(** * ShowTailsOCR: the text pipeline behind the OCR scan

    A shallow embedding of [src/ocr.js]: the normalizer [preClean], the
    segmenter [segmentRabbits] with [roleRank], the field extractor
    [parseSection], the date normalizer [normalizeDate], the renderers
    [renderReadable] and [renderTSV], and the driver [runOCR].  The file
    [src/unnamed/part_000] holds two earlier drafts; their [preClean],
    [normalizeDate] and name inference are those of [src/ocr.js].

    JavaScript strings are sequences of UTF-16 code units; a code unit is a
    natural number [N].  The regular expressions of the source are values of
    an abstract syntax [regex], run by a backtracking matcher that follows
    the ECMAScript pattern semantics: leftmost match, alternatives in order,
    greedy and lazy quantifiers, captures, lookahead, [\b], [^] and [$].
    The matcher returns the list of all the ways a pattern matches at a
    position, in the order in which backtracking tries them; the match that
    JavaScript reports is the head of that list. *)

From Stdlib Require Import String Ascii NArith Bool Arith Lia DecimalString List.
Import ListNotations.

(** ** Strings *)

Abbreviation char := N (only parsing).
Definition jstring := list char.

(** A literal of the source, written as a Rocq string (ASCII only). *)
Definition js (s : string) : jstring :=
  map N_of_ascii (list_ascii_of_string s).
Arguments js s%_string.

Fixpoint jstring_eqb (a b : jstring) : bool :=
  match a, b with
  | [], [] => true
  | x :: a', y :: b' => (x =? y)%N && jstring_eqb a' b'
  | _, _ => false
  end.

(** ECMAScript WhiteSpace and LineTerminator code units: the set matched by
    [\s] and stripped by [String.prototype.trim]. *)
Definition is_space (c : char) : bool :=
  ((9 <=? c) && (c <=? 13) || (c =? 32) || (c =? 160) || (c =? 5760)
   || (8192 <=? c) && (c <=? 8202) || (c =? 8232) || (c =? 8233)
   || (c =? 8239) || (c =? 8287) || (c =? 12288) || (c =? 65279))%N.

Definition is_digit (c : char) : bool := ((48 <=? c) && (c <=? 57))%N.
Definition is_upper (c : char) : bool := ((65 <=? c) && (c <=? 90))%N.
Definition is_lower (c : char) : bool := ((97 <=? c) && (c <=? 122))%N.

(** [\w]: ASCII letters, digits and underscore. *)
Definition is_word (c : char) : bool :=
  is_upper c || is_lower c || is_digit c || (c =? 95)%N.

(** [toUpperCase] on one code unit.  Only ASCII letters are mapped: the
    source applies it to a match of [(Name|Sire|Dam)] alone. *)
Definition upper_char (c : char) : char :=
  if is_lower c then (c - 32)%N else c.

Definition toUpperCase (s : jstring) : jstring := map upper_char s.

(** The other-case variant of an ASCII letter, the letter itself otherwise.
    Under the [i] flag a pattern character [a] matches an input character
    [c] when their canonical forms agree; for the ASCII-only patterns of
    this program that is [a = c] or [a = swap_case c]. *)
Definition swap_case (c : char) : char :=
  if is_lower c then (c - 32)%N
  else if is_upper c then (c + 32)%N
  else c.

Fixpoint drop_space (s : jstring) : jstring :=
  match s with
  | c :: t => if is_space c then drop_space t else s
  | [] => []
  end.

(** [String.prototype.trim]. *)
Definition trim (s : jstring) : jstring :=
  rev (drop_space (rev (drop_space s))).

(** ** Regular expressions *)

Inductive citem : Type :=
| One (c : char)            (* a single character *)
| Range (lo hi : char)      (* [lo-hi] *)
| Space                     (* \s *)
| Digit.                    (* \d *)

Inductive regex : Type :=
| Eps
| Chr (cs : list citem)                     (* a character class *)
| Seq (a b : regex)
| Alt (a b : regex)
| Rep (greedy : bool) (mn : nat) (mx : option nat) (a : regex)
| Grp (n : nat) (a : regex)                 (* capture group number n *)
| Look (a : regex)                          (* (?=a) *)
| Bol                                       (* ^ *)
| Eol                                       (* $ *)
| Wordb.                                    (* \b *)

Definition item_mem (it : citem) (c : char) : bool :=
  match it with
  | One a => (a =? c)%N
  | Range lo hi => ((lo <=? c) && (c <=? hi))%N
  | Space => is_space c
  | Digit => is_digit c
  end.

Definition class_mem (ci : bool) (cs : list citem) (c : char) : bool :=
  existsb (fun it => item_mem it c || (ci && item_mem it (swap_case c))) cs.

(** The matcher state: the character before the current position (none at
    the start of the input), the input from the current position on, and
    the captures made so far (most recent first). *)
Record mstate : Type := MState {
  prev : option char;
  rest : jstring;
  caps : list (nat * jstring)
}.

Fixpoint get_cap (n : nat) (cs : list (nat * jstring)) : option jstring :=
  match cs with
  | (k, v) :: t => if Nat.eqb k n then Some v else get_cap n t
  | [] => None
  end.

(** The text consumed between an earlier state and a later one. *)
Definition consumed (st st' : mstate) : jstring :=
  firstn (length (rest st) - length (rest st')) (rest st).

Definition is_word_opt (o : option char) : bool :=
  match o with Some c => is_word c | None => false end.

(** RepeatMatcher: the quantifier [a{mn,mx}], greedy or lazy; an iteration
    that consumes nothing once the minimum is reached is rejected. *)
Fixpoint rep_loop (f : mstate -> list mstate) (greedy : bool) (fuel : nat)
    (mn : nat) (mx : option nat) (st : mstate) : list mstate :=
  match fuel with
  | O => []
  | S fuel' =>
    match mx with
    | Some O => [st]
    | _ =>
      let iter :=
        flat_map (fun st' =>
          if Nat.eqb mn 0 && Nat.eqb (length (rest st')) (length (rest st))
          then []
          else rep_loop f greedy fuel' (Nat.pred mn) (option_map Nat.pred mx) st')
          (f st) in
      if Nat.ltb 0 mn then iter
      else if greedy then iter ++ [st]
      else st :: iter
    end
  end.

(** All the ways [r] matches at a state, in the order in which the
    backtracking matcher of ECMAScript tries them. *)
Fixpoint rmatch (ci : bool) (r : regex) (st : mstate) : list mstate :=
  match r with
  | Eps => [st]
  | Chr cs =>
      match rest st with
      | c :: t => if class_mem ci cs c then [MState (Some c) t (caps st)] else []
      | [] => []
      end
  | Seq a b => flat_map (rmatch ci b) (rmatch ci a st)
  | Alt a b => rmatch ci a st ++ rmatch ci b st
  | Rep g mn mx a =>
      rep_loop (rmatch ci a) g (mn + length (rest st) + 1) mn mx st
  | Grp n a =>
      map (fun st' => MState (prev st') (rest st') ((n, consumed st st') :: caps st'))
          (rmatch ci a st)
  | Look a =>
      match rmatch ci a st with
      | st' :: _ => [MState (prev st) (rest st) (caps st')]
      | [] => []
      end
  | Bol => match prev st with None => [st] | Some _ => [] end
  | Eol => match rest st with [] => [st] | _ :: _ => [] end
  | Wordb =>
      if xorb (is_word_opt (prev st)) (is_word_opt (hd_error (rest st)))
      then [st] else []
  end.

(** The first way [r] matches at a position. *)
Definition match_at (ci : bool) (r : regex) (p : option char) (s : jstring)
  : option mstate :=
  hd_error (rmatch ci r (MState p s [])).

(** A successful match: text before it, matched text, captures, text after. *)
Record jsmatch : Type := JsMatch {
  m_pre : jstring;
  m_text : jstring;
  m_caps : list (nat * jstring);
  m_post : jstring
}.

(** RegExp.prototype.exec without the [g] flag: the leftmost match. *)
Fixpoint search (ci : bool) (r : regex) (pre_rev : jstring) (p : option char)
    (s : jstring) : option jsmatch :=
  match match_at ci r p s with
  | Some st' =>
      Some (JsMatch (rev pre_rev)
                    (firstn (length s - length (rest st')) s)
                    (caps st') (rest st'))
  | None =>
      match s with
      | c :: t => search ci r (c :: pre_rev) (Some c) t
      | [] => None
      end
  end.

Definition exec (ci : bool) (r : regex) (s : jstring) : option jsmatch :=
  search ci r [] None s.

(** RegExp.prototype.test. *)
Definition test (ci : bool) (r : regex) (s : jstring) : bool :=
  match exec ci r s with Some _ => true | None => false end.

(** Replacement templates: literal text and [$n] group references. *)
Inductive ritem : Type :=
| RLit (s : jstring)
| RGrp (n : nat).

Definition expand (tpl : list ritem) (cs : list (nat * jstring)) : jstring :=
  flat_map (fun it =>
    match it with
    | RLit s => s
    | RGrp n => match get_cap n cs with Some v => v | None => [] end
    end) tpl.

(** [String.prototype.replace] with a [g] regex.  [skip] counts the
    characters of the current match still to be dropped; after an empty
    match one character is copied and the scan resumes behind it. *)
Fixpoint replace_go (ci : bool) (r : regex) (tpl : list ritem) (skip : nat)
    (p : option char) (s : jstring) {struct s} : jstring :=
  match skip with
  | S k =>
      match s with
      | c :: t => replace_go ci r tpl k (Some c) t
      | [] => []
      end
  | O =>
      match match_at ci r p s with
      | Some st' =>
          expand tpl (caps st') ++
          match length s - length (rest st'), s with
          | _, [] => []
          | O, c :: t => c :: replace_go ci r tpl 0 (Some c) t
          | S k, c :: t => replace_go ci r tpl k (Some c) t
          end
      | None =>
          match s with
          | c :: t => c :: replace_go ci r tpl 0 (Some c) t
          | [] => []
          end
      end
  end.

Definition replace_all (ci : bool) (r : regex) (tpl : list ritem) (s : jstring)
  : jstring :=
  replace_go ci r tpl 0 None s.

(** [String.prototype.replace] with a regex without the [g] flag. *)
Definition replace_first (ci : bool) (r : regex) (tpl : list ritem)
    (s : jstring) : jstring :=
  match exec ci r s with
  | Some mt => m_pre mt ++ expand tpl (m_caps mt) ++ m_post mt
  | None => s
  end.

(** [String.prototype.split] with a regex separator and no limit.  [cur_rev]
    holds, reversed, the text since the last separator.  A match that is
    empty and sits right behind the last separator does not split. *)
Fixpoint split_go (ci : bool) (r : regex) (skip : nat) (p : option char)
    (cur_rev : jstring) (s : jstring) {struct s} : list jstring :=
  match s with
  | [] => [rev cur_rev]
  | c :: t =>
      match skip with
      | S k => split_go ci r k (Some c) [] t
      | O =>
          match match_at ci r p s with
          | Some st' =>
              match length s - length (rest st'), cur_rev with
              | O, [] => split_go ci r 0 (Some c) [c] t
              | O, _ :: _ => rev cur_rev :: split_go ci r 0 (Some c) [c] t
              | S k, _ => rev cur_rev :: split_go ci r k (Some c) [] t
              end
          | None => split_go ci r 0 (Some c) (c :: cur_rev) t
          end
      end
  end.

Definition split (ci : bool) (r : regex) (s : jstring) : list jstring :=
  match s with
  | [] => match match_at ci r None [] with Some _ => [] | None => [[]] end
  | _ :: _ => split_go ci r 0 None [] s
  end.

(** ** Pattern notation *)

Definition lit (s : string) : regex :=
  fold_right (fun c r => Seq (Chr [One c]) r) Eps (js s).
Arguments lit s%_string.

Definition cat (rs : list regex) : regex := fold_right Seq Eps rs.

Fixpoint alt (rs : list regex) : regex :=
  match rs with
  | [] => Chr []
  | [r] => r
  | r :: t => Alt r (alt t)
  end.

Definition ch (s : string) : citem :=
  match js s with c :: _ => One c | [] => One 0%N end.
Arguments ch s%_string.

Definition rng (lo hi : string) : citem :=
  match js lo, js hi with
  | a :: _, b :: _ => Range a b
  | _, _ => One 0%N
  end.
Arguments rng (lo hi)%_string.

Definition star (r : regex) : regex := Rep true 0 None r.
Definition plus (r : regex) : regex := Rep true 1 None r.
Definition opt (r : regex) : regex := Rep true 0 (Some 1) r.

Definition LF : char := 10%N.
Definition CR : char := 13%N.
Definition TAB : char := 9%N.
Definition SP : char := 32%N.

Definition ws : regex := Chr [Space].
Definition c1 (s : string) : regex := Chr [ch s].
Arguments c1 s%_string.

(** ** [preClean] *)

Module Clean.

(* /\r/g *)
Definition rx_cr : regex := Chr [One CR].
(* /\n{2,}/g *)
Definition rx_blank_lines : regex := Rep true 2 None (Chr [One LF]).
(* /[ \t]{2,}/g *)
Definition rx_hspace : regex := Rep true 2 None (Chr [One SP; One TAB]).
(* /ariety/gi *)
Definition rx_variety : regex := lit "ariety".
(* /We[il1]?ght/gi *)
Definition rx_weight : regex :=
  cat [lit "We"; opt (Chr [ch "i"; ch "l"; ch "1"]); lit "ght"].
(* /Leg[s5]/gi *)
Definition rx_legs : regex := cat [lit "Leg"; Chr [ch "s"; ch "5"]].
(* /\bRe[gq][\.\s#:]*/gi *)
Definition rx_reg : regex :=
  cat [Wordb; lit "Re"; Chr [ch "g"; ch "q"];
       star (Chr [ch "."; Space; ch "#"; ch ":"])].
(* /\b[Gg][Cc][\.\s#:]*/g *)
Definition rx_gc : regex :=
  cat [Wordb; Chr [ch "G"; ch "g"]; Chr [ch "C"; ch "c"];
       star (Chr [ch "."; Space; ch "#"; ch ":"])].
(* /[Ee]ar[\s#:]*/g *)
Definition rx_ear : regex :=
  cat [Chr [ch "E"; ch "e"]; lit "ar"; star (Chr [Space; ch "#"; ch ":"])].
(* /\bBorn[\s:]*([0-9OIl\-\/\.]+)/gi *)
Definition rx_born : regex :=
  cat [Wordb; lit "Born"; star (Chr [Space; ch ":"]);
       Grp 1 (plus (Chr [rng "0" "9"; ch "O"; ch "I"; ch "l"; ch "-"; ch "/"; ch "."]))].
(* /([0-9])\s*[il1]b\b/gi *)
Definition rx_lb : regex :=
  cat [Grp 1 (Chr [rng "0" "9"]); star ws; Chr [ch "i"; ch "l"; ch "1"];
       c1 "b"; Wordb].
(* /\b([0-9])\s*[o0]z\b/gi *)
Definition rx_oz : regex :=
  cat [Wordb; Grp 1 (Chr [rng "0" "9"]); star ws; Chr [ch "o"; ch "0"];
       c1 "z"; Wordb].
(* /[|]/g *)
Definition rx_pipe : regex := Chr [ch "|"].

(** The Ear rule on its own: [.replace(/[Ee]ar[\s#:]*/g, 'Ear # ')]. *)
Definition ear_rule (s : jstring) : jstring :=
  replace_all false rx_ear [RLit (js "Ear # ")] s.
Definition reg_rule (s : jstring) : jstring :=
  replace_all true rx_reg [RLit (js "Reg # ")] s.
Definition gc_rule (s : jstring) : jstring :=
  replace_all false rx_gc [RLit (js "GC # ")] s.
Definition born_rule (s : jstring) : jstring :=
  replace_all true rx_born [RLit (js "Born: "); RGrp 1] s.

Definition preClean (s : jstring) : jstring :=
  let s := replace_all false rx_cr [RLit [LF]] s in
  let s := replace_all false rx_blank_lines [RLit [LF]] s in
  let s := replace_all false rx_hspace [RLit [SP]] s in
  let s := replace_all true rx_variety [RLit (js "Variety")] s in
  let s := replace_all true rx_weight [RLit (js "Weight")] s in
  let s := replace_all true rx_legs [RLit (js "Legs")] s in
  let s := reg_rule s in
  let s := gc_rule s in
  let s := ear_rule s in
  let s := born_rule s in
  let s := replace_all true rx_lb [RGrp 1; RLit (js " lb")] s in
  let s := replace_all true rx_oz [RGrp 1; RLit (js " oz")] s in
  let s := replace_all false rx_pipe [RLit [SP]] s in
  trim s.

End Clean.
Export Clean.

(** ** [segmentRabbits] and [roleRank] *)

Record section : Type := Section_ {
  role : jstring;
  block : jstring
}.

Module Segment.

Definition keyword : regex := alt [lit "Name"; lit "Sire"; lit "Dam"].

(* /\b(Name|Sire|Dam)\b\s*:?/gi *)
Definition rx_marker : regex :=
  cat [Wordb; Grp 1 keyword; Wordb; star ws; opt (c1 ":")].
(* '\n=== $1 ===\n' *)
Definition marker_tpl : list ritem :=
  [RLit (LF :: js "=== "); RGrp 1; RLit (js " ===" ++ [LF])].
(* /\n===\s*/ *)
Definition rx_split : regex := cat [Chr [One LF]; lit "==="; star ws].
(* /^((Name|Sire|Dam))\s*===?\s*/i *)
Definition rx_role : regex :=
  cat [Bol; Grp 1 (Grp 2 keyword); star ws; lit "=="; opt (c1 "="); star ws].
(* /^Name[:\s]/i *)
Definition rx_name_start : regex :=
  cat [Bol; lit "Name"; Chr [ch ":"; Space]].

(** [role in order ? order[role] : 3], on the four keys of [order]. *)
Definition roleRank (r : jstring) : nat :=
  if jstring_eqb r (js "NAME") then 0
  else if jstring_eqb r (js "SIRE") then 1
  else if jstring_eqb r (js "DAM") then 2
  else 3.

(** [Array.prototype.sort] with the comparator
    [(a,b) => roleRank(a.role) - roleRank(b.role)].  The sort is stable:
    blocks of equal rank keep the order of the text.  [insert_by_rank x l]
    puts [x], which stood before all of [l], in front of the first block
    whose rank is not smaller, so in front of the blocks of its own rank. *)
Fixpoint insert_by_rank (x : section) (l : list section) : list section :=
  match l with
  | [] => [x]
  | y :: t =>
      if Nat.leb (roleRank (role x)) (roleRank (role y)) then x :: l
      else y :: insert_by_rank x t
  end.

Definition sort_by_rank (l : list section) : list section :=
  fold_right insert_by_rank [] l.

Definition non_empty (s : jstring) : bool :=
  match s with [] => false | _ :: _ => true end.

Definition tag_chunk (chunk : jstring) : section :=
  match exec true rx_role chunk with
  | Some m =>
      Section_ (toUpperCase (match get_cap 1 (m_caps m) with Some v => v | None => [] end))
               (replace_first true rx_role [] chunk)
  | None =>
      if test true rx_name_start chunk then Section_ (js "NAME") chunk
      else Section_ (js "UNKNOWN") chunk
  end.

Definition mark (s : jstring) : jstring :=
  replace_all true rx_marker marker_tpl s.

Definition chunks_of (marked : jstring) : list jstring :=
  filter non_empty (map trim (split false rx_split marked)).

Definition segmentRabbits (s : jstring) : list section :=
  sort_by_rank (map tag_chunk (chunks_of (mark s))).

End Segment.
Export Segment.

(** ** [normalizeDate] *)

Module Dates.

(* /^(\d{1,2})\/(\d{1,2})\/(\d{2,4})$/ *)
Definition rx_date : regex :=
  cat [Bol; Grp 1 (Rep true 1 (Some 2) (Chr [Digit])); c1 "/";
       Grp 2 (Rep true 1 (Some 2) (Chr [Digit])); c1 "/";
       Grp 3 (Rep true 2 (Some 4) (Chr [Digit])); Eol].

(** [padStart(2,'0')]. *)
Definition padStart2 (s : jstring) : jstring :=
  repeat 48%N (2 - length s) ++ s.

(** Unary [+] on a string of decimal digits. *)
Definition to_number (s : jstring) : N :=
  fold_left (fun acc c => (10 * acc + (c - 48))%N) s 0%N.

Definition group (n : nat) (cs : list (nat * jstring)) : jstring :=
  match get_cap n cs with Some v => v | None => [] end.

Definition normalizeDate (s : jstring) : jstring :=
  match s with
  | [] => []
  | _ :: _ =>
      let t := replace_all false (c1 "O") [RLit (js "0")] s in
      let t := replace_all false (Chr [ch "I"; ch "l"]) [RLit (js "1")] t in
      let t := replace_all false (c1 ".") [RLit (js "/")] t in
      let t := replace_all false (c1 "-") [RLit (js "/")] t in
      match exec false rx_date t with
      | None => trim s
      | Some m =>
          let mm := group 1 (m_caps m) in
          let dd := group 2 (m_caps m) in
          let yy := group 3 (m_caps m) in
          let yy := if Nat.eqb (length yy) 2
                    then (if (70 <=? to_number yy)%N then js "19" else js "20") ++ yy
                    else yy in
          padStart2 mm ++ js "/" ++ padStart2 dd ++ js "/" ++ yy
      end
  end.

End Dates.
Export Dates.

(** ** [parseSection] *)

Record rabbit : Type := Rabbit {
  Role : jstring;
  Name : jstring;
  Ear : jstring;
  Reg : jstring;
  GC : jstring;
  Variety : jstring;
  Weight : jstring;
  Legs : jstring;
  Born : jstring
}.

Module Parse.

Definition name_class : list citem :=
  [rng "A" "Z"; rng "a" "z"; rng "0" "9"; ch "'"; ch "&"; ch "-"; Space].
Definition id_class : list citem := [rng "A" "Z"; rng "0" "9"; ch "-"].
Definition sep : regex := Chr [ch ":"; Space].

(* /(Name|Rabbit|Animal)[:\s]+([A-Za-z0-9'&\-\s]{3,})/ *)
Definition rx_name : regex :=
  cat [Grp 1 (alt [lit "Name"; lit "Rabbit"; lit "Animal"]); plus sep;
       Grp 2 (Rep true 3 None (Chr name_class))].
(* /Ear\s*#[:\s]*([A-Z0-9\-]+)\b/i *)
Definition rx_ear : regex :=
  cat [lit "Ear"; star ws; c1 "#"; star sep; Grp 1 (plus (Chr id_class)); Wordb].
(* /Reg\s*#[:\s]*([A-Z0-9\-]+)\b/i *)
Definition rx_reg : regex :=
  cat [lit "Reg"; star ws; c1 "#"; star sep; Grp 1 (plus (Chr id_class)); Wordb].
(* /\bGC\s*#[:\s]*([A-Z0-9\-]+)\b/i *)
Definition rx_gc : regex :=
  cat [Wordb; lit "GC"; star ws; c1 "#"; star sep; Grp 1 (plus (Chr id_class));
       Wordb].
(* /Variety[:\s]+([A-Za-z][A-Za-z\s\(\)\/\-]+?)\b(?=Weight|Legs|Ear|Reg|GC|Born|Sire|Dam|$)/i *)
Definition rx_variety : regex :=
  cat [lit "Variety"; plus sep;
       Grp 1 (cat [Chr [rng "A" "Z"; rng "a" "z"];
                   Rep false 1 None
                     (Chr [rng "A" "Z"; rng "a" "z"; Space; ch "("; ch ")";
                           ch "/"; ch "-"])]);
       Wordb;
       Look (alt [lit "Weight"; lit "Legs"; lit "Ear"; lit "Reg"; lit "GC";
                  lit "Born"; lit "Sire"; lit "Dam"; Eol])].
(* /Weight[:\s]*([0-9]{1,2}\s*lb\s*[0-9]{1,2}\s*oz)/i *)
Definition rx_weight : regex :=
  cat [lit "Weight"; star sep;
       Grp 1 (cat [Rep true 1 (Some 2) (Chr [rng "0" "9"]); star ws; lit "lb";
                   star ws; Rep true 1 (Some 2) (Chr [rng "0" "9"]); star ws;
                   lit "oz"])].
(* /Legs?[:\s]*([0-9]{1,2})\b/i *)
Definition rx_legs : regex :=
  cat [lit "Leg"; opt (c1 "s"); star sep;
       Grp 1 (Rep true 1 (Some 2) (Chr [rng "0" "9"])); Wordb].
(* /Born[:\s]*([0-9OIl\-\/\.]{6,12})/i *)
Definition rx_born : regex :=
  cat [lit "Born"; star sep;
       Grp 1 (Rep true 6 (Some 12)
                (Chr [rng "0" "9"; ch "O"; ch "I"; ch "l"; ch "-"; ch "/"; ch "."]))].
(* /^(SIRE|DAM)/i *)
Definition rx_parent_role : regex :=
  cat [Bol; Grp 1 (alt [lit "SIRE"; lit "DAM"])].
(* /^(?:Sire|Dam)[:\s]+([A-Za-z0-9'&\-\s]{3,})/i *)
Definition rx_inferred : regex :=
  cat [Bol; alt [lit "Sire"; lit "Dam"]; plus sep;
       Grp 1 (Rep true 3 None (Chr name_class))].

(** [' ' + sec.block.replace(/\n/g, ' ') + ' '] *)
Definition padded (b : jstring) : jstring :=
  SP :: replace_all false (Chr [One LF]) [RLit [SP]] b ++ [SP].

(** [m[2] || m[1] || ''] *)
Definition pick (cs : list (nat * jstring)) : jstring :=
  match get_cap 2 cs with
  | Some ((_ :: _) as v) => v
  | _ => match get_cap 1 cs with
         | Some v => v
         | None => []
         end
  end.

Definition grab (blk : jstring) (ci : bool) (r : regex) : jstring :=
  match exec ci r blk with
  | Some m => trim (pick (m_caps m))
  | None => []
  end.

Definition inferredName (sec : section) : jstring :=
  let blk := padded (block sec) in
  if negb (non_empty (grab blk false rx_name)) && test true rx_parent_role (role sec)
  then grab blk true rx_inferred
  else [].

Definition parseSection (sec : section) : rabbit :=
  let blk := padded (block sec) in
  {| Role := role sec;
     Name := match grab blk false rx_name with
             | (_ :: _) as v => v
             | [] => inferredName sec
             end;
     Ear := grab blk true rx_ear;
     Reg := grab blk true rx_reg;
     GC := grab blk true rx_gc;
     Variety := grab blk true rx_variety;
     Weight := grab blk true rx_weight;
     Legs := grab blk true rx_legs;
     Born := normalizeDate (grab blk true rx_born) |}.

End Parse.
Export Parse.

(** ** Exceptions *)

Inductive exn : Type :=
| TypeError (msg : jstring)       (* raised by the language itself *)
| Rejected (reason : jstring).    (* a rejected promise of the OCR engine *)

Inductive result (A : Type) : Type :=
| Ok (a : A)
| Throw (e : exn).
Arguments Ok {A} a.
Arguments Throw {A} e.

Definition rbind {A B : Type} (x : result A) (f : A -> result B) : result B :=
  match x with Ok a => f a | Throw e => Throw e end.

(** [Array.prototype.map] with a callback that may throw: elements are
    visited in order and the first exception aborts the loop. *)
Fixpoint map_result {A B : Type} (f : A -> result B) (l : list A)
  : result (list B) :=
  match l with
  | [] => Ok []
  | x :: t => rbind (f x) (fun y => rbind (map_result f t) (fun ys => Ok (y :: ys)))
  end.

(** [Array.prototype.join]. *)
Fixpoint join (sep : jstring) (l : list jstring) : jstring :=
  match l with
  | [] => []
  | [x] => x
  | x :: t => x ++ sep ++ join sep t
  end.

(** [String(n)] for a non-negative integer. *)
Definition number_to_string (n : N) : jstring :=
  js (NilZero.string_of_uint (N.to_uint n)).

(** ** Renderers *)

Module Render.

(** The values put in a TSV row: the numeric index and the string fields. *)
Inductive jsval : Type :=
| VNum (n : N)
| VStr (s : jstring).

Definition header : list jstring :=
  [js "Index"; js "Role"; js "Name"; js "Variety"; js "Ear"; js "Reg";
   js "GC"; js "Weight"; js "Legs"; js "Born"].

(** [(v || '').replace(/\t/g, ' ').replace(/\r?\n/g, ' ').trim()] on a string. *)
Definition safe_string (s : jstring) : jstring :=
  trim (replace_all false (cat [opt (Chr [One CR]); Chr [One LF]]) [RLit [SP]]
          (replace_all false (Chr [One TAB]) [RLit [SP]] s)).

(** [safe]: [v || ''] keeps a non-zero number as it is, and a number has no
    [replace] method. *)
Definition safe (v : jsval) : result jstring :=
  match v with
  | VStr s => Ok (safe_string s)
  | VNum 0%N => Ok (safe_string [])
  | VNum _ => Throw (TypeError (js "(v || '').replace is not a function"))
  end.

Definition cells (i : nat) (r : rabbit) : list jsval :=
  [VNum (N.of_nat (i + 1)); VStr (Role r); VStr (Name r); VStr (Variety r);
   VStr (Ear r); VStr (Reg r); VStr (GC r); VStr (Weight r); VStr (Legs r);
   VStr (Born r)].

Definition row (ir : nat * rabbit) : result jstring :=
  rbind (map_result safe (cells (fst ir) (snd ir)))
        (fun cs => Ok (join [TAB] cs)).

(** [rows.map((r, i) => ...)]: every element with its index. *)
Definition indexed {A : Type} (l : list A) : list (nat * A) :=
  combine (seq 0 (length l)) l.

Definition renderTSV (rows : list rabbit) : result jstring :=
  rbind (map_result row (indexed rows))
        (fun body => Ok (join [LF] (join [TAB] header :: body))).

Definition DASH : char := 8212%N.

Definition field_line (label : string) (v : jstring) : list jstring :=
  match v with
  | [] => []
  | _ :: _ => [js "  " ++ js label ++ js ": " ++ v]
  end.

Definition readable_lines (ir : nat * rabbit) : list jstring :=
  let r := snd ir in
  [js "R" ++ number_to_string (N.of_nat (fst ir + 1)) ++ [SP; DASH; SP] ++ Role r]
  ++ field_line "Name" (Name r)
  ++ field_line "Variety" (Variety r)
  ++ field_line "Ear #" (Ear r)
  ++ field_line "Reg #" (Reg r)
  ++ field_line "GC #" (GC r)
  ++ field_line "Weight" (Weight r)
  ++ field_line "Legs" (Legs r)
  ++ field_line "Born" (Born r)
  ++ [[]].

(** [l.replace(/&/g,'&amp;').replace(/</g,'&lt;')] *)
Definition escape (l : jstring) : jstring :=
  replace_all false (c1 "<") [RLit (js "&lt;")]
    (replace_all false (c1 "&") [RLit (js "&amp;")] l).

Definition renderReadable (rows : list rabbit) : jstring :=
  join (js "<br>") (map escape (flat_map readable_lines (indexed rows))).

End Render.
Export Render.

(** ** [runOCR]

    The OCR engine and the page are external.  A run is a computation that
    records the calls made on them, in order, and either returns or throws.
    The engine is given by the outcome of each of its asynchronous calls.
    The logger callback only formats a progress fraction for display and is
    recorded as installed, not run. *)

Module Driver.

Inductive element : Type := ProgressEl | OutputEl | TsvEl.

Inductive event : Type :=
| CreateWorker
| SetLogger
| LoadLanguage (lang : jstring)
| Initialize (lang : jstring)
| Recognize (image : jstring)
| Terminate
| SetInnerHTML (el : element) (html : jstring)
| SetTextContent (el : element) (text : jstring).

Record engine : Type := Engine {
  createWorker : result unit;
  loadLanguage : jstring -> result unit;
  initialize : jstring -> result unit;
  recognize : jstring -> result jstring;
  terminate : result unit
}.

(** Computations: the trace so far goes in, the extended trace and the
    outcome come out. *)
Definition io (A : Type) : Type := list event -> list event * result A.

Definition ret {A : Type} (a : A) : io A := fun tr => (tr, Ok a).

Definition bind {A B : Type} (x : io A) (f : A -> io B) : io B :=
  fun tr =>
    match x tr with
    | (tr', Ok a) => f a tr'
    | (tr', Throw e) => (tr', Throw e)
    end.

(** An awaited call on the outside world: logged, then settled. *)
Definition call {A : Type} (ev : event) (outcome : result A) : io A :=
  fun tr => (tr ++ [ev], outcome).

Definition lift {A : Type} (x : result A) : io A := fun tr => (tr, x).

Notation "x <- c1 ;; c2" := (bind c1 (fun x => c2))
  (at level 61, c1 at next level, right associativity).
Notation "c1 ;; c2" := (bind c1 (fun _ => c2))
  (at level 61, right associativity).

Definition CHECK : char := 9989%N.

Definition done_message : jstring :=
  [CHECK] ++ js " OCR complete " ++ [DASH]
  ++ js " copy TSV into Glide (or use readable for review).".

Definition runOCR (E : engine) (imageUrl : jstring) : io unit :=
  call CreateWorker (createWorker E) ;;
  call SetLogger (Ok tt) ;;
  call (LoadLanguage (js "eng")) (loadLanguage E (js "eng")) ;;
  call (Initialize (js "eng")) (initialize E (js "eng")) ;;
  text <- call (Recognize imageUrl) (recognize E imageUrl) ;;
  call Terminate (terminate E) ;;
  let clean := preClean text in
  let sections := segmentRabbits clean in
  let rabbits := map parseSection sections in
  let readable := renderReadable rabbits in
  tsv <- lift (renderTSV rabbits) ;;
  call (SetInnerHTML OutputEl readable) (Ok tt) ;;
  call (SetTextContent TsvEl tsv) (Ok tt) ;;
  call (SetTextContent ProgressEl done_message) (Ok tt).

Definition run (E : engine) (imageUrl : jstring) : list event * result unit :=
  runOCR E imageUrl [].

End Driver.
Export Driver.


(** ** Auxiliary notions used in the statements *)

(** A matcher that never hands back more input than it was given. *)
Definition shrinking (f : mstate -> list mstate) : Prop :=
  forall st st', In st' (f st) -> length (rest st') <= length (rest st).

(** The character before the position reached after reading [x] from a
    position whose previous character is [p]. *)
Fixpoint last_opt (p : option char) (x : jstring) : option char :=
  match x with
  | [] => p
  | c :: t => last_opt (Some c) t
  end.

(** A sequence of literal characters as a pattern. *)
Definition lits (w : jstring) : regex :=
  fold_right (fun c r => Seq (Chr [One c]) r) Eps w.

(** Reading the literal [w] off the front of [s]. *)
Fixpoint strip (ci : bool) (w s : jstring) : option jstring :=
  match w with
  | [] => Some s
  | a :: w' =>
      match s with
      | c :: t => if class_mem ci [One a] c then strip ci w' t else None
      | [] => None
      end
  end.

(** The longest prefix of class characters, and what follows it. *)
Fixpoint take_class (ci : bool) (cs : list citem) (s : jstring) : jstring :=
  match s with
  | c :: t => if class_mem ci cs c then c :: take_class ci cs t else []
  | [] => []
  end.

Fixpoint drop_class (ci : bool) (cs : list citem) (s : jstring) : jstring :=
  match s with
  | c :: t => if class_mem ci cs c then drop_class ci cs t else s
  | [] => []
  end.

Definition is_letter (c : char) : bool := is_upper c || is_lower c.

Definition letters (w : jstring) : bool := forallb is_letter w.

(** [k] spells the word [w], in any mix of cases. *)
Definition spells (w : string) (k : jstring) : bool :=
  jstring_eqb (toUpperCase k) (toUpperCase (js w)).
Arguments spells w%_string k.

(** [k] is one of the role keywords, in any mix of cases. *)
Definition is_keyword (k : jstring) : bool :=
  spells "Name" k || spells "Sire" k || spells "Dam" k.

(** No match of [/Name|Sire|Dam/i] anywhere in the text. *)
Definition keyword_free (x : jstring) : bool := negb (test true keyword x).

(** No whole-word role keyword: no match of [/\b(Name|Sire|Dam)\b/i]. *)
Definition rx_word : regex := cat [Wordb; keyword; Wordb].
Definition wordless (x : jstring) : bool := negb (test true rx_word x).

(** No run [===] in the text: no match of [/===/]. *)
Definition tame (x : jstring) : bool := negb (test false (lit "===") x).

(** The character [c] does not occur in the text. *)
Definition lacks (c : char) (x : jstring) : bool :=
  forallb (fun d => negb (d =? c)%N) x.

Definition EQ : char := 61%N.
Definition COLON : char := 58%N.

Definition starts_nonword (x : jstring) : bool :=
  match x with
  | c :: _ => negb (is_word c)
  | [] => false
  end.

Definition ends_nonword (x : jstring) : bool := starts_nonword (rev x).

Definition blank (x : jstring) : bool := forallb is_space x.

(** What is left of the text behind a role keyword once the marker
    pattern has taken [\s*:?]. *)
Definition after_marker (t : jstring) : jstring :=
  match drop_class true [Space] t with
  | c :: t' => if (c =? COLON)%N then t' else c :: t'
  | [] => []
  end.

(** The marker put in place of a role keyword [k]: ['\n=== k ===\n']. *)
Definition marker (k : jstring) : jstring :=
  LF :: js "=== " ++ k ++ js " ===" ++ [LF].

Definition starts_letter (z : jstring) : bool :=
  match z with c :: _ => is_letter c | [] => false end.

(** No line feed in the text has [===] right behind it. *)
Fixpoint calm (x : jstring) : bool :=
  match x with
  | c :: t =>
      negb ((c =? LF)%N
            && match strip false [EQ; EQ; EQ] t with
               | Some _ => true
               | None => false
               end)
      && calm t
  | [] => true
  end.

(** The separator that [split] finds in front of a marked keyword, and the
    chunk that starts at the keyword. *)
Definition separator : jstring := LF :: js "=== ".
Definition chunk_of (k a : jstring) : jstring := k ++ js " ===" ++ LF :: a.

(** [trim] on the right only. *)
Definition rtrim (s : jstring) : jstring := rev (drop_space (rev s)).

(** The text between two role keywords, before the first and behind the
    last: no whole-word role keyword and no [===] inside; a non-word
    character on the side of a keyword, so that the keyword is a whole word. *)
Definition gap (a : jstring) : bool :=
  wordless a && tame a && starts_nonword a && ends_nonword a.
Definition lead (pre : jstring) : bool :=
  wordless pre && tame pre
  && match pre with [] => true | _ :: _ => ends_nonword pre end.
Definition trail (c : jstring) : bool :=
  wordless c && tame c
  && match c with [] => true | _ :: _ => starts_nonword c end.

(** No match of [/\n===/] anywhere in the text. *)
Definition marker_free (x : jstring) : bool :=
  negb (test false (lits (LF :: js "===")) x).

(** The text behind a role keyword does not go on with [===] once the
    marker pattern has taken [\s*:?]: the line feed that ends the marker
    would make a separator of it. *)
Definition head_free (a : jstring) : bool :=
  match strip false [EQ; EQ; EQ] (after_marker a) with
  | Some _ => false
  | None => true
  end.

(** The text around three role keywords, with what the segmenter needs of
    it and no more: no whole-word role keyword; no line feed followed by
    [===]; behind a keyword, no [===] right after its white space and colon;
    a non-word character on the side of a keyword, so that the keyword is a
    whole word.  A run [===] anywhere else is allowed. *)
Definition before_keywords (pre : jstring) : bool :=
  wordless pre && marker_free pre
  && match pre with [] => true | _ :: _ => ends_nonword pre end.
Definition between_keywords (a : jstring) : bool :=
  wordless a && marker_free a && head_free a
  && starts_nonword a && ends_nonword a.
Definition behind_keywords (c : jstring) : bool :=
  wordless c && marker_free c && head_free c
  && match c with [] => true | _ :: _ => starts_nonword c end.

(** The Ear rule, said directly: reading left to right, every [ear] or
    [Ear] becomes ["Ear # "] and the spaces, [#] and [:] right behind it are
    dropped; everything else is copied.  [skipping] is set while such
    trailing characters are being dropped. *)
Definition ear_delims : list citem := [Space; ch "#"; ch ":"].

Definition is_e (c : char) : bool := (c =? 69)%N || (c =? 101)%N.

Fixpoint ear_rewrite (skipping : bool) (s : jstring) : jstring :=
  match s with
  | [] => []
  | c :: t =>
      if skipping && class_mem false ear_delims c then ear_rewrite true t
      else
        match t with
        | a :: r :: t' =>
            if is_e c && (a =? 97)%N && (r =? 114)%N
            then js "Ear # " ++ ear_rewrite true t'
            else c :: ear_rewrite false t
        | _ => c :: ear_rewrite false t
        end
  end.

(** [preClean] around its Ear rule: the steps in front of the rule
    (white space, Variety, Weight, Legs, Reg, GC) and the steps behind it
    (Born, lb, oz, the bar, [trim]). *)
Definition before_ear (s : jstring) : jstring :=
  let s := replace_all false Clean.rx_cr [RLit [LF]] s in
  let s := replace_all false Clean.rx_blank_lines [RLit [LF]] s in
  let s := replace_all false Clean.rx_hspace [RLit [SP]] s in
  let s := replace_all true Clean.rx_variety [RLit (js "Variety")] s in
  let s := replace_all true Clean.rx_weight [RLit (js "Weight")] s in
  let s := replace_all true Clean.rx_legs [RLit (js "Legs")] s in
  let s := reg_rule s in
  gc_rule s.

Definition after_ear (s : jstring) : jstring :=
  let s := born_rule s in
  let s := replace_all true Clean.rx_lb [RGrp 1; RLit (js " lb")] s in
  let s := replace_all true Clean.rx_oz [RGrp 1; RLit (js " oz")] s in
  let s := replace_all false Clean.rx_pipe [RLit [SP]] s in
  trim s.

(** The patterns of the other rules, each with its [i] flag, and the texts
    in which none of them matches anywhere. *)
Definition rules_before_ear : list (bool * regex) :=
  [(false, Clean.rx_cr); (false, Clean.rx_blank_lines);
   (false, Clean.rx_hspace); (true, Clean.rx_variety);
   (true, Clean.rx_weight); (true, Clean.rx_legs);
   (true, Clean.rx_reg); (false, Clean.rx_gc)].

Definition rules_after_ear : list (bool * regex) :=
  [(true, Clean.rx_born); (true, Clean.rx_lb); (true, Clean.rx_oz);
   (false, Clean.rx_pipe)].

Definition idle (rules : list (bool * regex)) (s : jstring) : bool :=
  forallb (fun r => negb (test (fst r) (snd r) s)) rules.

(** The Born rule's white space and colons, [[\s:]], the characters of its
    date token, [[0-9OIl\-\/\.]], and a text that does not go on with a date
    character behind its white space and colons. *)
Definition born_delims : list citem := [Space; ch ":"].
Definition born_date : list citem :=
  [rng "0" "9"; ch "O"; ch "I"; ch "l"; ch "-"; ch "/"; ch "."].
Definition dateless (t : jstring) : bool :=
  match drop_class true born_delims t with
  | c :: _ => negb (class_mem true born_date c)
  | [] => true
  end.

(** Steps 1 to 3 of [runOCR]: the records extracted from the recognized
    text. *)
Definition extract (text : jstring) : list rabbit :=
  map parseSection (segmentRabbits (preClean text)).

(** The dates [normalizeDate] builds: two digits, a slash, two digits, a
    slash and a year of three or four digits. *)
Definition digits (w : jstring) : bool := forallb is_digit w.

Definition date_shape (d : jstring) : Prop :=
  exists mm dd yy,
    d = mm ++ js "/" ++ dd ++ js "/" ++ yy
    /\ digits mm = true /\ length mm = 2
    /\ digits dd = true /\ length dd = 2
    /\ digits yy = true /\ (length yy = 3 \/ length yy = 4).

(** A later matcher state [st'] reached from [st]: some text [w] was read
    in between, and the character in front of the new position is the last
    one read. *)
Definition reached (st st' : mstate) : Prop :=
  exists w, rest st = w ++ rest st' /\ prev st' = last_opt (prev st) w.

(** The labels that end a variety, in the order of the lookahead. *)
Definition variety_stops : list string :=
  ["Weight"; "Legs"; "Ear"; "Reg"; "GC"; "Born"; "Sire"; "Dam"]%string.

(** The text starts with one of these labels, in any mix of cases. *)
Definition at_label (t : jstring) : bool :=
  existsb (fun w => match strip true (js w) t with Some _ => true | None => false end)
          variety_stops.

(** ** Sample inputs *)

(** An engine whose every call succeeds and that reads [text] off the image. *)
Definition reading_engine (text : jstring) : engine :=
  {| createWorker := Ok tt;
     loadLanguage := fun _ => Ok tt;
     initialize := fun _ => Ok tt;
     recognize := fun _ => Ok text;
     terminate := Ok tt |}.

(** An engine whose [recognize] rejects. *)
Definition failing_engine : engine :=
  {| createWorker := Ok tt;
     loadLanguage := fun _ => Ok tt;
     initialize := fun _ => Ok tt;
     recognize := fun _ => Throw (Rejected (js "cannot read image"));
     terminate := Ok tt |}.

(** The calls [runOCR] has made once it awaits [recognize]. *)
Definition up_to_recognize (imageUrl : jstring) : list event :=
  [CreateWorker; SetLogger; LoadLanguage (js "eng"); Initialize (js "eng");
   Recognize imageUrl].

Definition thumper_block : jstring :=
  js " Name: Thumper Variety: Dutch Weight: 4 lb 2 oz Legs: 4 Born: 11-10-2024 ".

Definition no_replace : jstring := js "(v || '').replace is not a function".

From Stdlib Require Import Sorted Permutation.

(** ** The drafts in [src/unnamed/part_000]

    The file holds two earlier versions of the program.  Their [preClean],
    [normalizeDate], marker insertion, chunking and sort are those of
    [src/ocr.js]; the text functions that differ are embedded here. *)

Module Draft.

(** [String.prototype.split] with a separator of one character.
    [cur_rev] holds, reversed, the text since the last separator. *)
Fixpoint split_char (sep : char) (cur_rev : jstring) (s : jstring)
  : list jstring :=
  match s with
  | [] => [rev cur_rev]
  | c :: t =>
      if (c =? sep)%N then rev cur_rev :: split_char sep [] t
      else split_char sep (c :: cur_rev) t
  end.

(** The first draft shows the recognized text line by line:
    [text.split('\n').map(line => line.trim()).filter(line => line.length)
         .join('<br>')]. *)
Definition formatted (text : jstring) : jstring :=
  join (js "<br>") (filter non_empty (map trim (split_char LF [] text))).

(* /^((Name|Sire|Dam))/i *)
Definition rx_role : regex := cat [Bol; Grp 1 (Grp 2 keyword)].

(** The loop of the second draft's [segmentRabbits]: a chunk is tagged by
    its first letters alone, and the whole chunk is kept as the block. *)
Definition tag_chunk (chunk : jstring) : section :=
  match exec true rx_role chunk with
  | Some m =>
      Section_ (toUpperCase (match get_cap 1 (m_caps m) with
                             | Some v => v
                             | None => []
                             end))
               chunk
  | None => Section_ (js "UNKNOWN") chunk
  end.

End Draft.

(** ** Notions used in the further properties *)

(** *** Blocks and roles *)

(** The order [segmentRabbits] sorts by. *)
Definition rank_le (x y : section) : Prop :=
  roleRank (role x) <= roleRank (role y).

(** The four roles a block can carry. *)
Definition roles : list jstring :=
  [js "NAME"; js "SIRE"; js "DAM"; js "UNKNOWN"].

(** A text read as role keywords, each with the text behind it. *)
Definition text_of (segs : list (jstring * jstring)) : jstring :=
  flat_map (fun ka => fst ka ++ snd ka) segs.

(** Every keyword is a whole word and the text behind it holds no further
    whole-word keyword and no [===]. *)
Fixpoint spaced (segs : list (jstring * jstring)) : bool :=
  match segs with
  | [] => true
  | (k, a) :: more =>
      is_keyword k
      && match more with [] => trail a | _ :: _ => gap a end
      && spaced more
  end.

(** The block made of a keyword and the text behind it. *)
Definition section_of (ka : jstring * jstring) : section :=
  Section_ (toUpperCase (fst ka)) (trim (after_marker (snd ka))).

(** The block made of the text in front of the first keyword. *)
Definition leading (pre : jstring) : list section :=
  if blank pre then [] else [Section_ (js "UNKNOWN") (trim pre)].

(** The marked text, and the chunks [split] cuts it into. *)
Definition marked_of (segs : list (jstring * jstring)) : jstring :=
  flat_map (fun ka => marker (fst ka) ++ after_marker (snd ka)) segs.

Definition chunk_at (ka : jstring * jstring) : jstring :=
  chunk_of (fst ka) (after_marker (snd ka)).

(** *** Fields *)

(** [trim] leaves the text as it is. *)
Definition trimmed (v : jstring) : Prop := trim v = v.

(** The labels the name pattern starts with, and the texts that hold one of
    them in this very spelling: a match of [/Name|Rabbit|Animal/]. *)
Definition name_labels : list jstring := [js "Name"; js "Rabbit"; js "Animal"].

Definition labelled (b : jstring) : bool :=
  test false (alt [lit "Name"; lit "Rabbit"; lit "Animal"]) b.

(** [\n] read as a space, as [parseSection] does. *)
Definition unbreak (c : char) : char := if (LF =? c)%N then SP else c.

(** The characters of an ear, registration or championship number. *)
Definition is_id_char (c : char) : bool :=
  is_letter c || is_digit c || (c =? 45)%N.

(** *** Dates *)

(** The four repairs of [normalizeDate] on one character: [O] is read as
    [0], [I] and [l] as [1], and [.] and [-] as [/]. *)
Definition repair (c : char) : char :=
  if (c =? 79)%N then 48%N
  else if (c =? 73)%N || (c =? 108)%N then 49%N
  else if (c =? 46)%N || (c =? 45)%N then 47%N
  else c.

(** The year [normalizeDate] writes: a year of two digits gets its century,
    [19] from 70 on and [20] below. *)
Definition century (yy : jstring) : jstring :=
  if Nat.eqb (length yy) 2
  then (if (70 <=? to_number yy)%N then js "19" else js "20") ++ yy
  else yy.

(** *** Rendering and the run *)

(** What [escape] writes for one character. *)
Definition escape_char (c : char) : jstring :=
  if (c =? 38)%N then js "&amp;"
  else if (c =? 60)%N then js "&lt;"
  else [c].

Definition LT : char := 60%N.
Definition BAR : char := 124%N.

(** [/\r?\n/] *)
Definition rx_newline : regex := cat [opt (Chr [One CR]); Chr [One LF]].

(** The writes of [runOCR] to the page. *)
Definition page_write (ev : event) : bool :=
  match ev with
  | SetInnerHTML _ _ | SetTextContent _ _ => true
  | _ => false
  end.

(** The trace of a run that completes. *)
Definition complete_trace (imageUrl readable tsv : jstring) : list event :=
  up_to_recognize imageUrl
  ++ [Terminate; SetInnerHTML OutputEl readable; SetTextContent TsvEl tsv;
      SetTextContent ProgressEl done_message].

(** *** The matcher *)

(** Every character of the input still to be read and of the captures made
    so far satisfies [Q]. *)
Definition kept (Q : char -> bool) (st : mstate) : Prop :=
  forallb Q (rest st) = true
  /\ Forall (fun nv => forallb Q (snd nv) = true) (caps st).

(** Every literal character of a replacement template satisfies [Q]. *)
Definition tpl_in (Q : char -> bool) (tpl : list ritem) : bool :=
  forallb (fun it => match it with RLit l => forallb Q l | RGrp _ => true end)
          tpl.

(** A pattern without capture groups. *)
Fixpoint capfree (r : regex) : bool :=
  match r with
  | Eps | Chr _ | Bol | Eol | Wordb => true
  | Seq a b | Alt a b => capfree a && capfree b
  | Rep _ _ _ a => capfree a
  | Grp _ _ => false
  | Look a => capfree a
  end.

(** From [st] to [st'] the matcher read characters that satisfy [P] and
    made no capture. *)
Definition read_in (P : char -> bool) (st st' : mstate) : Prop :=
  exists w, rest st = w ++ rest st' /\ forallb P w = true
            /\ caps st' = caps st.

(** The quantifier stops here: the input is at its end or goes on with a
    character outside the class. *)
Definition stops (ci : bool) (cs : list citem) (z : jstring) : bool :=
  match z with
  | [] => true
  | c :: _ => negb (class_mem ci cs c)
  end.

(** A class item no white-space character belongs to. *)
Definition item_solid (it : citem) : bool :=
  match it with
  | One a => negb (is_space a)
  | Range lo hi => (32 <? lo)%N && (hi <? 160)%N
  | Space => false
  | Digit => true
  end.

(** A pattern that cannot start at white space or at the end of the input
    when no word character stands in front: it starts with [\b] or with a
    character that is not white space. *)
Fixpoint needs_solid (r : regex) : bool :=
  match r with
  | Chr cs => forallb item_solid cs
  | Seq a _ => needs_solid a
  | Alt a b => needs_solid a && needs_solid b
  | Grp _ a => needs_solid a
  | Wordb => true
  | _ => false
  end.

(** A position with white space or the end of the input ahead and no word
    character behind. *)
Definition quiet (st : mstate) : bool :=
  negb (is_word_opt (prev st))
  && match rest st with [] => true | c :: _ => is_space c end.

(** * Facts about the matcher *)

Section Scanning.

Variables (ci : bool) (r : regex).

Lemma last_opt_app x : forall p y,
  last_opt p (x ++ y) = last_opt (last_opt p x) y.
Proof. induction x as [|c t IH]; intros; simpl; auto. Qed.

Lemma search_eq pre p s :
  search ci r pre p s =
  match match_at ci r p s with
  | Some st' =>
      Some (JsMatch (rev pre) (firstn (length s - length (rest st')) s)
                    (caps st') (rest st'))
  | None =>
      match s with
      | c :: t => search ci r (c :: pre) (Some c) t
      | [] => None
      end
  end.
Proof. destruct s; reflexivity. Qed.

(** No match at any position of the input. *)
Lemma search_none_at x : forall pre p y,
  search ci r pre p (x ++ y) = None ->
  match_at ci r (last_opt p x) y = None.
Proof.
  induction x as [|c t IH]; intros pre p y H; rewrite search_eq in H.
  - simpl in *. destruct (match_at ci r p y); [discriminate|reflexivity].
  - simpl in *. destruct (match_at ci r p (c :: t ++ y)); [discriminate|].
    eapply IH; eauto.
Qed.

Lemma search_none_intro s : forall pre p,
  (forall x y, s = x ++ y -> match_at ci r (last_opt p x) y = None) ->
  search ci r pre p s = None.
Proof.
  induction s as [|c t IH]; intros pre p H; rewrite search_eq.
  - pose proof (H [] [] eq_refl) as E. simpl in E. rewrite E. reflexivity.
  - pose proof (H [] (c :: t) eq_refl) as E. simpl in E. rewrite E.
    apply IH. intros x y E'.
    apply (H (c :: x) y). simpl. congruence.
Qed.

Variable tpl : list ritem.

Lemma replace_go_eq p s :
  replace_go ci r tpl 0 p s =
  match match_at ci r p s with
  | Some st' =>
      expand tpl (caps st') ++
      match length s - length (rest st'), s with
      | _, [] => []
      | O, c :: t => c :: replace_go ci r tpl 0 (Some c) t
      | S k, c :: t => replace_go ci r tpl k (Some c) t
      end
  | None =>
      match s with
      | c :: t => c :: replace_go ci r tpl 0 (Some c) t
      | [] => []
      end
  end.
Proof. destruct s; reflexivity. Qed.

(** Dropping the rest of a match. *)
Lemma replace_go_skip x : forall p y,
  replace_go ci r tpl (length x) p (x ++ y) =
  replace_go ci r tpl 0 (last_opt p x) y.
Proof.
  induction x as [|c t IH]; intros p y; simpl.
  - destruct y; reflexivity.
  - apply IH.
Qed.

(** A stretch of input in which the pattern matches nowhere is copied. *)
Lemma replace_go_copy x : forall p y,
  (forall x1 x2, x = x1 ++ x2 -> x2 <> [] ->
     match_at ci r (last_opt p x1) (x2 ++ y) = None) ->
  replace_go ci r tpl 0 p (x ++ y) =
  x ++ replace_go ci r tpl 0 (last_opt p x) y.
Proof.
  induction x as [|c t IH]; intros p y H; [reflexivity|].
  rewrite replace_go_eq.
  pose proof (H [] (c :: t) eq_refl ltac:(discriminate)) as E.
  simpl in E. cbn [app]. rewrite E.
  simpl. f_equal. apply IH. intros x1 x2 E' N.
  apply (H (c :: x1) x2); simpl; congruence.
Qed.

(** A non-empty match is replaced by the expanded template. *)
Lemma replace_go_match w y p st' :
  match_at ci r p (w ++ y) = Some st' -> rest st' = y -> w <> [] ->
  replace_go ci r tpl 0 p (w ++ y) =
  expand tpl (caps st') ++ replace_go ci r tpl 0 (last_opt p w) y.
Proof.
  intros M R N. rewrite replace_go_eq, M, R. f_equal.
  destruct w as [|c t]; [congruence|].
  assert (E : length ((c :: t) ++ y) - length y = S (length t))
    by (rewrite length_app; cbn [length]; lia).
  rewrite E. cbn [app]. apply (replace_go_skip t (Some c) y).
Qed.

Lemma replace_all_none s :
  exec ci r s = None -> replace_all ci r tpl s = s.
Proof.
  unfold exec, replace_all. generalize (@nil char), (@None char).
  induction s as [|c t IH]; intros pre p H;
    rewrite search_eq in H; rewrite replace_go_eq;
    destruct (match_at ci r p _); try discriminate; auto.
  f_equal. eapply IH; eauto.
Qed.

Lemma split_go_nil k p cur : split_go ci r k p cur [] = [rev cur].
Proof. destruct k; reflexivity. Qed.

Lemma split_go_skip x : forall p y,
  x <> [] ->
  split_go ci r (length x) p [] (x ++ y) = split_go ci r 0 (last_opt p x) [] y.
Proof.
  induction x as [|c t IH]; intros p y N; [congruence|].
  simpl. destruct t as [|d t'].
  - simpl. destruct y; reflexivity.
  - apply IH. discriminate.
Qed.

Lemma split_go_copy x : forall p cur y,
  (forall x1 x2, x = x1 ++ x2 -> x2 <> [] ->
     match_at ci r (last_opt p x1) (x2 ++ y) = None) ->
  split_go ci r 0 p cur (x ++ y) =
  split_go ci r 0 (last_opt p x) (rev x ++ cur) y.
Proof.
  induction x as [|c t IH]; intros p cur y H; [reflexivity|].
  pose proof (H [] (c :: t) eq_refl ltac:(discriminate)) as E.
  simpl in E. simpl. rewrite E.
  rewrite IH.
  - rewrite <- app_assoc. reflexivity.
  - intros x1 x2 E' N. apply (H (c :: x1) x2); simpl; congruence.
Qed.

Lemma split_go_match w y p cur st' :
  match_at ci r p (w ++ y) = Some st' -> rest st' = y -> w <> [] ->
  split_go ci r 0 p cur (w ++ y) =
  rev cur :: split_go ci r 0 (last_opt p w) [] y.
Proof.
  intros M R N. destruct w as [|c t]; [congruence|].
  assert (E : length ((c :: t) ++ y) - length y = S (length t))
    by (rewrite length_app; cbn [length]; lia).
  cbn [app split_go]. cbn [app] in M, E. rewrite M, R, E.
  f_equal. destruct t as [|d t'].
  - simpl. destruct y; reflexivity.
  - apply (split_go_skip (d :: t') (Some c) y). discriminate.
Qed.

Lemma split_none s :
  s <> [] -> exec ci r s = None -> split ci r s = [s].
Proof.
  intros N H. unfold split. destruct s as [|c t]; [congruence|].
  rewrite <- (app_nil_r (c :: t)) at 1.
  rewrite split_go_copy.
  - rewrite split_go_nil, app_nil_r, rev_involutive. reflexivity.
  - intros x1 x2 E _. rewrite app_nil_r.
    unfold exec in H. rewrite E in H.
    apply (search_none_at x1 [] None x2 H).
Qed.

End Scanning.

(** ** The quantifier loop never runs out of fuel *)

Section Fuel.

Lemma rep_loop_shrinking f g : shrinking f ->
  forall fuel mn mx, shrinking (rep_loop f g fuel mn mx).
Proof.
  intros Hf fuel. induction fuel as [|fuel IH]; intros mn mx st st' H; simpl in H.
  - contradiction.
  - assert (Hiter : forall l,
      In st' (flat_map (fun st1 =>
        if Nat.eqb mn 0 && Nat.eqb (length (rest st1)) (length (rest st))
        then [] else rep_loop f g fuel (Nat.pred mn) (option_map Nat.pred mx) st1) l) ->
      (forall x, In x l -> length (rest x) <= length (rest st)) ->
      length (rest st') <= length (rest st)).
    { intros l Hin Hl. apply in_flat_map in Hin. destruct Hin as [x [Hx Hin]].
      destruct (_ && _); [contradiction|].
      apply IH in Hin. specialize (Hl x Hx). lia. }
    assert (Hself : st' = st -> length (rest st') <= length (rest st))
      by (intros ->; lia).
    destruct mx as [[|k]|].
    + destruct H as [H|[]]. auto.
    + destruct (Nat.ltb 0 mn); [|destruct g].
      * eapply Hiter; eauto.
      * apply in_app_or in H. destruct H as [H|[H|[]]]; eauto.
      * destruct H as [H|H]; eauto.
    + destruct (Nat.ltb 0 mn); [|destruct g].
      * eapply Hiter; eauto.
      * apply in_app_or in H. destruct H as [H|[H|[]]]; eauto.
      * destruct H as [H|H]; eauto.
Qed.

Lemma rmatch_shrinking ci r : shrinking (rmatch ci r).
Proof.
  induction r; intros st st' H; simpl in H.
  - destruct H as [<-|[]]. lia.
  - destruct (rest st) as [|c t] eqn:E; [contradiction|].
    destruct (class_mem ci cs c); [|contradiction].
    destruct H as [<-|[]]. simpl. lia.
  - apply in_flat_map in H. destruct H as [x [H1 H2]].
    apply IHr1 in H1. apply IHr2 in H2. lia.
  - apply in_app_or in H. destruct H; eauto.
  - eapply rep_loop_shrinking; eauto.
  - apply in_map_iff in H. destruct H as [x [<- H]]. simpl. eauto.
  - destruct (rmatch ci r st); [contradiction|].
    destruct H as [<-|[]]. simpl. lia.
  - destruct (prev st); [contradiction|]. destruct H as [<-|[]]. lia.
  - destruct (rest st) eqn:E; [|contradiction]. destruct H as [<-|[]].
    rewrite E. simpl. lia.
  - destruct (xorb _ _); [|contradiction]. destruct H as [<-|[]]. lia.
Qed.

Lemma flat_map_ext_in {A B} (f g : A -> list B) l :
  (forall x, In x l -> f x = g x) -> flat_map f l = flat_map g l.
Proof.
  induction l as [|a l IH]; intros H; simpl; [reflexivity|].
  rewrite H by (left; reflexivity). f_equal. apply IH. intros; apply H; right; auto.
Qed.

(** Any two amounts of fuel above [mn + length (rest st)] give the same
    result: the amount [rmatch] supplies is enough. *)
Lemma rep_loop_fuel f g : shrinking f ->
  forall fuel1 fuel2 mn mx st,
    mn + length (rest st) < fuel1 -> mn + length (rest st) < fuel2 ->
    rep_loop f g fuel1 mn mx st = rep_loop f g fuel2 mn mx st.
Proof.
  intros Hf fuel1. induction fuel1 as [|fuel1 IH]; intros fuel2 mn mx st H1 H2.
  - lia.
  - destruct fuel2 as [|fuel2]; [lia|]. simpl.
    assert (E : forall l, (forall x, In x l -> length (rest x) <= length (rest st)) ->
      flat_map (fun st1 =>
        if Nat.eqb mn 0 && Nat.eqb (length (rest st1)) (length (rest st))
        then [] else rep_loop f g fuel1 (Nat.pred mn) (option_map Nat.pred mx) st1) l =
      flat_map (fun st1 =>
        if Nat.eqb mn 0 && Nat.eqb (length (rest st1)) (length (rest st))
        then [] else rep_loop f g fuel2 (Nat.pred mn) (option_map Nat.pred mx) st1) l).
    { intros l Hl. apply flat_map_ext_in. intros x Hx. specialize (Hl x Hx).
      destruct (Nat.eqb mn 0) eqn:E0; simpl.
      - apply Nat.eqb_eq in E0. subst mn.
        destruct (Nat.eqb _ _) eqn:E1; [reflexivity|].
        apply Nat.eqb_neq in E1. apply IH; simpl; lia.
      - apply Nat.eqb_neq in E0. apply IH; lia. }
    rewrite (E (f st)) by (intros x Hx; apply Hf; auto). reflexivity.
Qed.

(** The quantifier, unfolded by one iteration. *)
Lemma rmatch_rep ci g mn mx a st :
  rmatch ci (Rep g mn mx a) st =
  match mx with
  | Some O => [st]
  | _ =>
    let iter :=
      flat_map (fun st' =>
        if Nat.eqb mn 0 && Nat.eqb (length (rest st')) (length (rest st))
        then []
        else rmatch ci (Rep g (Nat.pred mn) (option_map Nat.pred mx) a) st')
        (rmatch ci a st) in
    if Nat.ltb 0 mn then iter
    else if g then iter ++ [st]
    else st :: iter
  end.
Proof.
  cbn [rmatch]. rewrite Nat.add_1_r. cbn [rep_loop].
  assert (E :
    flat_map (fun st' =>
        if Nat.eqb mn 0 && Nat.eqb (length (rest st')) (length (rest st))
        then []
        else rep_loop (rmatch ci a) g (mn + length (rest st)) (Nat.pred mn)
               (option_map Nat.pred mx) st') (rmatch ci a st) =
    flat_map (fun st' =>
        if Nat.eqb mn 0 && Nat.eqb (length (rest st')) (length (rest st))
        then []
        else rep_loop (rmatch ci a) g (Nat.pred mn + length (rest st') + 1)
               (Nat.pred mn) (option_map Nat.pred mx) st') (rmatch ci a st)).
  { apply flat_map_ext_in. intros x Hx. apply rmatch_shrinking in Hx.
    destruct (Nat.eqb mn 0) eqn:E0; simpl.
    - apply Nat.eqb_eq in E0. subst mn.
      destruct (Nat.eqb _ _) eqn:E1; [reflexivity|].
      apply Nat.eqb_neq in E1.
      apply rep_loop_fuel; [apply rmatch_shrinking| |]; simpl; lia.
    - apply Nat.eqb_neq in E0.
      apply rep_loop_fuel; [apply rmatch_shrinking| |]; lia. }
  rewrite E. reflexivity.
Qed.

End Fuel.

(** ** Evaluating pattern pieces *)

Section Pieces.

Variable ci : bool.

Lemma flat_map_single {A B} (f : A -> list B) x : flat_map f [x] = f x.
Proof. simpl. apply app_nil_r. Qed.

Lemma rmatch_seq a b st :
  rmatch ci (Seq a b) st = flat_map (rmatch ci b) (rmatch ci a st).
Proof. reflexivity. Qed.

Lemma rmatch_chr cs p c t k :
  rmatch ci (Chr cs) (MState p (c :: t) k) =
  if class_mem ci cs c then [MState (Some c) t k] else [].
Proof. reflexivity. Qed.

Lemma lit_lits s : lit s = lits (js s).
Proof. reflexivity. Qed.

Lemma rmatch_lits w : forall p s k,
  rmatch ci (lits w) (MState p s k) =
  match strip ci w s with
  | Some t => [MState (last_opt p (firstn (length w) s)) t k]
  | None => []
  end.
Proof.
  induction w as [|a w IH]; intros p s k.
  - reflexivity.
  - cbn [lits fold_right]. fold (lits w). rewrite rmatch_seq.
    destruct s as [|c t]; [reflexivity|].
    rewrite rmatch_chr. cbn [strip].
    destruct (class_mem ci [One a] c); [|reflexivity].
    rewrite flat_map_single, IH. reflexivity.
Qed.

(** The greedy star of a class first tries the longest run. *)
Lemma rmatch_star_class cs s : forall p k,
  exists tl,
    rmatch ci (star (Chr cs)) (MState p s k) =
    MState (last_opt p (take_class ci cs s)) (drop_class ci cs s) k :: tl.
Proof.
  unfold star. induction s as [|c t IH]; intros p k; rewrite rmatch_rep.
  - exists []. reflexivity.
  - cbn zeta. rewrite rmatch_chr. cbn [take_class drop_class].
    destruct (class_mem ci cs c).
    + rewrite flat_map_single. cbn [rest Nat.eqb andb length Nat.pred option_map].
      replace (Nat.eqb (length t) (S (length t))) with false
        by (symmetry; apply Nat.eqb_neq; lia).
      destruct (IH (Some c) k) as [tl E]. rewrite E.
      eexists. reflexivity.
    + exists []. reflexivity.
Qed.

Lemma rmatch_opt_class cs p s k :
  rmatch ci (opt (Chr cs)) (MState p s k) =
  match s with
  | c :: t =>
      if class_mem ci cs c then [MState (Some c) t k; MState p s k]
      else [MState p s k]
  | [] => [MState p s k]
  end.
Proof.
  unfold opt. rewrite rmatch_rep. cbn zeta. destruct s as [|c t]; [reflexivity|].
  rewrite rmatch_chr. destruct (class_mem ci cs c); [|reflexivity].
  rewrite flat_map_single. cbn [rest Nat.eqb andb length Nat.pred option_map].
  replace (Nat.eqb (length t) (S (length t))) with false
    by (symmetry; apply Nat.eqb_neq; lia).
  rewrite rmatch_rep. reflexivity.
Qed.

Lemma take_drop_class cs s : take_class ci cs s ++ drop_class ci cs s = s.
Proof.
  induction s as [|c t IH]; simpl; [reflexivity|].
  destruct (class_mem ci cs c); simpl; congruence.
Qed.

End Pieces.

(** A state reached through [Seq a b] went through a state of [a]. *)
Ltac in_seq H s Hs :=
  rewrite rmatch_seq in H; apply in_flat_map in H; destruct H as [s [Hs H]].

(** ** Characters *)

Lemma lower_spec c : is_lower c = true <-> (97 <= c <= 122)%N.
Proof. unfold is_lower. rewrite andb_true_iff, !N.leb_le. tauto. Qed.

Lemma upper_spec c : is_upper c = true <-> (65 <= c <= 90)%N.
Proof. unfold is_upper. rewrite andb_true_iff, !N.leb_le. tauto. Qed.

Lemma letter_spec c :
  is_letter c = true <-> ((65 <= c <= 90) \/ (97 <= c <= 122))%N.
Proof. unfold is_letter. rewrite orb_true_iff, upper_spec, lower_spec. tauto. Qed.

Lemma is_space_spec c :
  is_space c = true <->
  ((9 <= c <= 13) \/ c = 32 \/ c = 160 \/ c = 5760 \/ (8192 <= c <= 8202)
   \/ c = 8232 \/ c = 8233 \/ c = 8239 \/ c = 8287 \/ c = 12288
   \/ c = 65279)%N.
Proof.
  unfold is_space.
  rewrite !orb_true_iff, !andb_true_iff, !N.leb_le, !N.eqb_eq. tauto.
Qed.

(** The three shapes of a character with respect to letter case. *)
Lemma case_shape c :
  (is_lower c = true /\ is_upper c = false /\ (97 <= c <= 122)%N)
  \/ (is_lower c = false /\ is_upper c = true /\ (65 <= c <= 90)%N)
  \/ (is_lower c = false /\ is_upper c = false
      /\ ~ (97 <= c <= 122)%N /\ ~ (65 <= c <= 90)%N).
Proof.
  destruct (is_lower c) eqn:L, (is_upper c) eqn:U.
  - apply lower_spec in L. apply upper_spec in U. lia.
  - left. apply lower_spec in L. auto.
  - right; left. apply upper_spec in U. auto.
  - right; right. repeat split; auto.
    + intros H. apply lower_spec in H. congruence.
    + intros H. apply upper_spec in H. congruence.
Qed.

Lemma swap_case_cases c :
  (is_letter c = true /\ is_letter (swap_case c) = true)
  \/ (is_letter c = false /\ swap_case c = c).
Proof.
  unfold swap_case, is_letter.
  destruct (case_shape c) as [[L [U R]]|[[L [U R]]|[L [U R]]]]; rewrite L, U.
  - left. split; [reflexivity|]. fold (is_letter (c - 32)).
    apply letter_spec. lia.
  - left. split; [reflexivity|]. fold (is_letter (c + 32)).
    apply letter_spec. lia.
  - right. split; reflexivity.
Qed.

(** Under the [i] flag a letter matches exactly the characters with the
    same upper-case form. *)
Lemma class_one_ci a x :
  is_letter a = true ->
  class_mem true [One a] x = (upper_char x =? upper_char a)%N.
Proof.
  intros H. apply letter_spec in H.
  unfold class_mem, existsb, item_mem. cbn [andb]. rewrite orb_false_r.
  apply eq_iff_eq_true. rewrite orb_true_iff, !N.eqb_eq.
  unfold swap_case, upper_char.
  destruct (case_shape x) as [[L [U R]]|[[L [U R]]|[L [U R]]]]; rewrite L;
    try rewrite U;
    destruct (case_shape a) as [[La [Ua Ra]]|[[La [Ua Ra]]|[La [Ua Ra]]]];
    rewrite La; lia.
Qed.

Lemma letter_is_word a : is_letter a = true -> is_word a = true.
Proof.
  unfold is_letter, is_word. intros H. rewrite H. reflexivity.
Qed.

Lemma upper_char_letter a x :
  is_letter a = true -> upper_char x = upper_char a -> is_letter x = true.
Proof.
  intros H. apply letter_spec in H. unfold upper_char.
  destruct (case_shape x) as [[L [U R]]|[[L [U R]]|[L [U R]]]]; rewrite L;
    destruct (case_shape a) as [[La [Ua Ra]]|[[La [Ua Ra]]|[La [Ua Ra]]]];
    rewrite La; intros E; apply letter_spec; lia.
Qed.

Lemma letter_not_space c : is_letter c = true -> is_space c = false.
Proof.
  intros L. apply letter_spec in L. apply not_true_is_false. intros S.
  apply is_space_spec in S. lia.
Qed.

Lemma class_space_ci c : class_mem true [Space] c = is_space c.
Proof.
  unfold class_mem, existsb, item_mem. cbn [andb]. rewrite orb_false_r.
  destruct (swap_case_cases c) as [[L1 L2]|[_ E]].
  - rewrite (letter_not_space _ L1), (letter_not_space _ L2). reflexivity.
  - rewrite E. apply orb_diag.
Qed.

Lemma class_colon_ci c : class_mem true [One COLON] c = (c =? COLON)%N.
Proof.
  unfold class_mem, existsb, item_mem. cbn [andb]. rewrite orb_false_r.
  rewrite (N.eqb_sym COLON c).
  destruct (swap_case_cases c) as [[L1 L2]|[_ E]].
  - apply letter_spec in L1, L2. unfold COLON.
    destruct (N.eqb_spec c 58), (N.eqb_spec 58 (swap_case c)); simpl; auto; lia.
  - rewrite E, (N.eqb_sym COLON c). apply orb_diag.
Qed.

Lemma class_one_cs a c : class_mem false [One a] c = (a =? c)%N.
Proof.
  unfold class_mem, existsb, item_mem. cbn [andb]. rewrite !orb_false_r.
  reflexivity.
Qed.

Lemma class_space_cs c : class_mem false [Space] c = is_space c.
Proof.
  unfold class_mem, existsb, item_mem. cbn [andb]. rewrite !orb_false_r.
  reflexivity.
Qed.

(** ** Words *)

Lemma jstring_eqb_eq a : forall b, jstring_eqb a b = true <-> a = b.
Proof.
  induction a as [|x a IH]; intros [|y b]; simpl; split; intros H;
    try reflexivity; try discriminate.
  - apply andb_true_iff in H. destruct H as [H1 H2].
    apply N.eqb_eq in H1. apply IH in H2. congruence.
  - inversion H; subst. rewrite N.eqb_refl. simpl. apply IH. reflexivity.
Qed.

Lemma spells_upper w k : spells w k = true -> toUpperCase k = toUpperCase (js w).
Proof. apply jstring_eqb_eq. Qed.

(** Reading a word of letters, case-insensitively. *)
Lemma strip_ci_letters w : letters w = true -> forall s t,
  strip true w s = Some t <->
  exists k, s = k ++ t /\ toUpperCase k = toUpperCase w.
Proof.
  induction w as [|a w IH]; intros L s t.
  - simpl. split.
    + intros H. inversion H. exists []. auto.
    + intros [k [E U]]. destruct k; [|discriminate]. simpl in E. congruence.
  - cbn [letters forallb] in L. apply andb_true_iff in L. destruct L as [La L].
    cbn [strip]. split.
    + intros H. destruct s as [|c s]; [discriminate H|].
      rewrite (class_one_ci _ _ La) in H.
      destruct (N.eqb_spec (upper_char c) (upper_char a)) as [E|E]; [|discriminate H].
      apply (IH L) in H. destruct H as [k [E1 E2]].
      exists (c :: k). simpl. split; congruence.
    + intros [k [E U]]. destruct k as [|c k]; [discriminate U|].
      simpl in U. inversion U. subst s. cbn [app].
      rewrite (class_one_ci _ _ La). rewrite H0, N.eqb_refl.
      apply (IH L). exists k. auto.
Qed.

Lemma rmatch_keyword p s c :
  rmatch true keyword (MState p s c) =
  rmatch true (lits (js "Name")) (MState p s c) ++
  rmatch true (lits (js "Sire")) (MState p s c) ++
  rmatch true (lits (js "Dam")) (MState p s c).
Proof. reflexivity. Qed.

Lemma strip_keyword_self w k y :
  letters (js w) = true -> spells w k = true ->
  strip true (js w) (k ++ y) = Some y.
Proof.
  intros L H. apply (strip_ci_letters _ L). exists k. split; auto.
  apply spells_upper. exact H.
Qed.

Lemma strip_head_other a w c s :
  is_letter a = true -> upper_char c <> upper_char a ->
  strip true (a :: w) (c :: s) = None.
Proof.
  intros L U. cbn [strip]. rewrite (class_one_ci _ _ L).
  destruct (N.eqb_spec (upper_char c) (upper_char a)); [contradiction|reflexivity].
Qed.

Lemma spells_length w k : spells w k = true -> length k = length (js w).
Proof.
  intros H. apply spells_upper in H. apply (f_equal (@length _)) in H.
  unfold toUpperCase in H. rewrite !length_map in H. exact H.
Qed.

Lemma spells_head w k :
  spells w k = true ->
  match k, js w with
  | c :: _, a :: _ => upper_char c = upper_char a
  | [], [] => True
  | _, _ => False
  end.
Proof.
  intros H. apply spells_upper in H. unfold toUpperCase in H.
  destruct k, (js w); simpl in H; try discriminate H; auto. congruence.
Qed.

(** At a role keyword the keyword alternation matches in exactly one way. *)
Lemma rmatch_keyword_at k y p c :
  is_keyword k = true ->
  rmatch true keyword (MState p (k ++ y) c) = [MState (last_opt p k) y c].
Proof.
  unfold is_keyword. intros H.
  assert (F : forall w, spells w k = true ->
            firstn (length (js w)) (k ++ y) = k).
  { intros w Hw. rewrite <- (spells_length _ _ Hw).
    rewrite firstn_app, Nat.sub_diag, firstn_all. simpl. apply app_nil_r. }
  rewrite rmatch_keyword, !rmatch_lits.
  destruct (spells "Name" k) eqn:E1; [|destruct (spells "Sire" k) eqn:E2;
    [|destruct (spells "Dam" k) eqn:E3; [|discriminate H]]].
  - rewrite (strip_keyword_self "Name" k y eq_refl E1), (F _ E1).
    pose proof (spells_head _ _ E1) as Hh.
    destruct k as [|x k]; [contradiction|]. cbn [app].
    change (js "Sire") with [83; 105; 114; 101]%N.
    change (js "Dam") with [68; 97; 109]%N.
    rewrite !strip_head_other; auto; rewrite Hh; discriminate.
  - rewrite (strip_keyword_self "Sire" k y eq_refl E2), (F _ E2).
    pose proof (spells_head _ _ E2) as Hh.
    destruct k as [|x k]; [contradiction|]. cbn [app].
    change (js "Name") with [78; 97; 109; 101]%N.
    change (js "Dam") with [68; 97; 109]%N.
    rewrite !strip_head_other; auto; rewrite Hh; discriminate.
  - rewrite (strip_keyword_self "Dam" k y eq_refl E3), (F _ E3).
    pose proof (spells_head _ _ E3) as Hh.
    destruct k as [|x k]; [contradiction|]. cbn [app].
    change (js "Name") with [78; 97; 109; 101]%N.
    change (js "Sire") with [83; 105; 114; 101]%N.
    rewrite !strip_head_other; auto; rewrite Hh; discriminate.
Qed.

Lemma keyword_head_letter k :
  is_keyword k = true ->
  exists c t, k = c :: t /\ is_letter c = true.
Proof.
  unfold is_keyword. intros H.
  assert (G : forall w a, spells w k = true -> hd_error (js w) = Some a ->
            is_letter a = true -> exists c t, k = c :: t /\ is_letter c = true).
  { intros w a Hw Ha La. pose proof (spells_head _ _ Hw) as Hh.
    destruct k as [|c t]; destruct (js w) as [|a' w']; try contradiction;
      try discriminate Ha.
    inversion Ha; subst. exists c, t. split; auto.
    eapply upper_char_letter; eauto. }
  destruct (spells "Name" k) eqn:E1; [eapply G; eauto; reflexivity|].
  destruct (spells "Sire" k) eqn:E2; [eapply G; eauto; reflexivity|].
  destruct (spells "Dam" k) eqn:E3; [eapply G; eauto; reflexivity|].
  discriminate H.
Qed.

Lemma spells_letters w k :
  letters (js w) = true -> spells w k = true -> letters k = true.
Proof.
  intros L H. apply spells_upper in H. unfold toUpperCase in H.
  revert L H. generalize (js w). clear w.
  induction k as [|c k IH]; intros [|a w] L H; simpl in *; try discriminate H; auto.
  apply andb_true_iff in L. destruct L as [La L]. inversion H.
  rewrite (upper_char_letter _ _ La H1). simpl. eapply IH; eauto.
Qed.

Lemma keyword_letters k : is_keyword k = true -> letters k = true.
Proof.
  unfold is_keyword. intros H.
  destruct (spells "Name" k) eqn:E1; [eapply spells_letters; eauto; reflexivity|].
  destruct (spells "Sire" k) eqn:E2; [eapply spells_letters; eauto; reflexivity|].
  destruct (spells "Dam" k) eqn:E3; [eapply spells_letters; eauto; reflexivity|].
  discriminate H.
Qed.

Lemma last_opt_letters k : forall p,
  k <> [] -> letters k = true -> is_word_opt (last_opt p k) = true.
Proof.
  induction k as [|c k IH]; intros p N L; [congruence|].
  simpl in L. apply andb_true_iff in L. destruct L as [Lc L].
  destruct k as [|d k].
  - simpl. apply letter_is_word. exact Lc.
  - cbn [last_opt]. cbn [last_opt] in IH. apply (IH (Some c)); auto. discriminate.
Qed.

Lemma keyword_nonempty k : is_keyword k = true -> k <> [].
Proof.
  intros H. destruct (keyword_head_letter _ H) as [c [t [E _]]]. congruence.
Qed.

Lemma hd_flat_map {A B} (g : A -> list B) l x y :
  hd_error l = Some x -> hd_error (g x) = Some y ->
  hd_error (flat_map g l) = Some y.
Proof.
  destruct l as [|a l]; simpl; intros H1 H2; [discriminate|].
  inversion H1; subst. destruct (g x); simpl in *; [discriminate|]. exact H2.
Qed.

Lemma rmatch_wordb ci st :
  rmatch ci Wordb st =
  if xorb (is_word_opt (prev st)) (is_word_opt (hd_error (rest st)))
  then [st] else [].
Proof. reflexivity. Qed.

Lemma rmatch_grp ci n a st :
  rmatch ci (Grp n a) st =
  map (fun st' => MState (prev st') (rest st') ((n, consumed st st') :: caps st'))
      (rmatch ci a st).
Proof. reflexivity. Qed.

Lemma rmatch_bol ci st :
  rmatch ci Bol st = match prev st with None => [st] | Some _ => [] end.
Proof. reflexivity. Qed.

(** The tail [\s*:?] of the marker pattern. *)
Lemma marker_tail q t c :
  exists q',
    hd_error (rmatch true (Seq (star ws) (Seq (opt (c1 ":")) Eps))
                (MState q t c)) =
    Some (MState q' (after_marker t) c).
Proof.
  rewrite rmatch_seq. unfold ws.
  destruct (rmatch_star_class true [Space] t q c) as [tl E]. rewrite E.
  unfold after_marker.
  set (q1 := last_opt q (take_class true [Space] t)).
  destruct (drop_class true [Space] t) as [|x t'] eqn:D.
  - exists q1. reflexivity.
  - destruct (N.eqb_spec x COLON) as [Ex|Ex].
    + exists (Some x). eapply hd_flat_map; [reflexivity|].
      rewrite rmatch_seq. change (c1 ":") with (Chr [One COLON]).
      rewrite rmatch_opt_class, class_colon_ci.
      destruct (N.eqb_spec x COLON); [|contradiction]. reflexivity.
    + exists q1. eapply hd_flat_map; [reflexivity|].
      rewrite rmatch_seq. change (c1 ":") with (Chr [One COLON]).
      rewrite rmatch_opt_class, class_colon_ci.
      destruct (N.eqb_spec x COLON); [contradiction|]. reflexivity.
Qed.

Lemma consumed_app p k t c q c' :
  consumed (MState p (k ++ t) c) (MState q t c') = k.
Proof.
  unfold consumed. cbn [rest]. rewrite length_app.
  replace (length k + length t - length t) with (length k) by lia.
  rewrite firstn_app, Nat.sub_diag, firstn_all. simpl. apply app_nil_r.
Qed.

(** The marker pattern at a whole-word role keyword. *)
Lemma marker_match k t p :
  is_keyword k = true -> is_word_opt p = false ->
  is_word_opt (hd_error t) = false ->
  exists st', match_at true rx_marker p (k ++ t) = Some st'
              /\ rest st' = after_marker t /\ caps st' = [(1, k)].
Proof.
  intros K P T.
  destruct (keyword_head_letter _ K) as [x [k' [Ek Lx]]].
  pose proof (last_opt_letters k p (keyword_nonempty _ K) (keyword_letters _ K)) as Hl.
  destruct (marker_tail (last_opt p k) t [(1, k)]) as [q' Ht].
  exists (MState q' (after_marker t) [(1, k)]). split; [|split; reflexivity].
  unfold match_at, rx_marker. cbn [cat fold_right].
  rewrite rmatch_seq, rmatch_wordb. cbn [prev rest].
  replace (is_word_opt (hd_error (k ++ t))) with true
    by (rewrite Ek; simpl; symmetry; apply letter_is_word; exact Lx).
  rewrite P. cbn [xorb]. rewrite flat_map_single.
  rewrite rmatch_seq, rmatch_grp, rmatch_keyword_at by exact K.
  cbn [map prev rest caps]. rewrite consumed_app. rewrite flat_map_single.
  rewrite rmatch_seq, rmatch_wordb. cbn [prev rest].
  rewrite Hl, T. cbn [xorb]. rewrite flat_map_single. exact Ht.
Qed.

Lemma is_keyword_name k : spells "Name" k = true -> is_keyword k = true.
Proof. unfold is_keyword. intros ->. reflexivity. Qed.
Lemma is_keyword_sire k : spells "Sire" k = true -> is_keyword k = true.
Proof. unfold is_keyword. intros ->. rewrite orb_true_r. reflexivity. Qed.
Lemma is_keyword_dam k : spells "Dam" k = true -> is_keyword k = true.
Proof. unfold is_keyword. intros ->. rewrite !orb_true_r. reflexivity. Qed.


(** ** Text without whole-word role keywords *)

Lemma hd_error_nil {A} (l : list A) : hd_error l = None -> l = [].
Proof. destruct l; [reflexivity|discriminate]. Qed.

Lemma keyword_none p s c :
  rmatch true keyword (MState p s c) = [] <->
  strip true (js "Name") s = None /\ strip true (js "Sire") s = None
  /\ strip true (js "Dam") s = None.
Proof.
  rewrite rmatch_keyword, !rmatch_lits.
  destruct (strip true (js "Name") s), (strip true (js "Sire") s),
    (strip true (js "Dam") s); simpl; split; intros H;
    try discriminate H; try (decompose [and] H; discriminate); auto.
Qed.

Lemma keyword_none_any p c p' c' s :
  rmatch true keyword (MState p s c) = [] ->
  rmatch true keyword (MState p' s c') = [].
Proof. intros H. apply keyword_none. apply keyword_none in H. exact H. Qed.

Lemma spells_intro w k :
  toUpperCase k = toUpperCase (js w) -> spells w k = true.
Proof. apply jstring_eqb_eq. Qed.

(** Where the keyword alternation matches, the text starts with a keyword. *)
Lemma keyword_some_inv p s c :
  rmatch true keyword (MState p s c) <> [] ->
  exists k t, s = k ++ t /\ is_keyword k = true.
Proof.
  intros H.
  assert (G : forall w, letters (js w) = true ->
            strip true (js w) s <> None ->
            exists k t, s = k ++ t /\ spells w k = true).
  { intros w L N. destruct (strip true (js w) s) as [t|] eqn:E; [|congruence].
    apply (strip_ci_letters _ L) in E. destruct E as [k [E U]].
    exists k, t. split; auto. apply spells_intro. exact U. }
  destruct (strip true (js "Name") s) eqn:E1.
  { destruct (G "Name"%string eq_refl) as [k [t [E S]]]; [congruence|].
    exists k, t. split; auto. apply is_keyword_name. exact S. }
  destruct (strip true (js "Sire") s) eqn:E2.
  { destruct (G "Sire"%string eq_refl) as [k [t [E S]]]; [congruence|].
    exists k, t. split; auto. apply is_keyword_sire. exact S. }
  destruct (strip true (js "Dam") s) eqn:E3.
  { destruct (G "Dam"%string eq_refl) as [k [t [E S]]]; [congruence|].
    exists k, t. split; auto. apply is_keyword_dam. exact S. }
  exfalso. apply H. apply keyword_none. auto.
Qed.

Lemma ends_nonword_app x1 x2 :
  x2 <> [] -> ends_nonword (x1 ++ x2) = ends_nonword x2.
Proof.
  intros N. unfold ends_nonword. rewrite rev_app_distr.
  destruct (rev x2) eqn:R.
  - apply (f_equal (@rev _)) in R. rewrite rev_involutive in R. simpl in R. congruence.
  - reflexivity.
Qed.

Lemma last_opt_ends_nonword x : forall p,
  ends_nonword x = true -> is_word_opt (last_opt p x) = false.
Proof.
  induction x as [|c x IH]; intros p E; [discriminate E|].
  destruct x as [|d x].
  - unfold ends_nonword in E. simpl in *. destruct (is_word c); [discriminate|reflexivity].
  - cbn [last_opt]. cbn [last_opt] in IH.
    change (c :: d :: x) with ([c] ++ d :: x) in E.
    rewrite ends_nonword_app in E by discriminate. apply (IH (Some c) E).
Qed.

Lemma ends_nonword_letters x :
  x <> [] -> letters x = true -> ends_nonword x = false.
Proof.
  intros N L. destruct (ends_nonword x) eqn:E; [|reflexivity].
  apply (last_opt_ends_nonword x None) in E.
  rewrite (last_opt_letters x None N L) in E. discriminate E.
Qed.

Lemma letters_app x y : letters (x ++ y) = letters x && letters y.
Proof. unfold letters. apply forallb_app. Qed.

(** A keyword at the front of [x2 ++ y] lies inside [x2] when [x2] ends in
    a non-word character. *)
Lemma keyword_inside x2 y k t :
  x2 ++ y = k ++ t -> is_keyword k = true ->
  (y = [] \/ ends_nonword x2 = true) ->
  exists t2, x2 = k ++ t2 /\ t = t2 ++ y.
Proof.
  intros E K [->|N].
  - rewrite app_nil_r in E. exists t. rewrite app_nil_r. auto.
  - apply app_eq_app in E. destruct E as [l [[E1 E2]|[E1 E2]]].
    + exists l. auto.
    + destruct l as [|c l].
      * rewrite app_nil_r in E1. subst k. exists []. rewrite app_nil_r. auto.
      * exfalso. pose proof (keyword_letters _ K) as L. rewrite E1, letters_app in L.
        apply andb_true_iff in L. destruct L as [L _].
        rewrite ends_nonword_letters in N; auto; [discriminate N|].
        intros ->. discriminate N.
Qed.

Lemma rx_word_at k t p :
  is_keyword k = true -> is_word_opt p = false ->
  is_word_opt (hd_error t) = false ->
  match_at true rx_word p (k ++ t) <> None.
Proof.
  intros K P T.
  destruct (keyword_head_letter _ K) as [x [k' [Ek Lx]]].
  pose proof (last_opt_letters k p (keyword_nonempty _ K) (keyword_letters _ K)) as Hl.
  unfold match_at, rx_word. cbn [cat fold_right].
  rewrite rmatch_seq, rmatch_wordb. cbn [prev rest].
  replace (is_word_opt (hd_error (k ++ t))) with true
    by (rewrite Ek; simpl; symmetry; apply letter_is_word; exact Lx).
  rewrite P. cbn [xorb]. rewrite flat_map_single.
  rewrite rmatch_seq, rmatch_keyword_at by exact K.
  rewrite flat_map_single, rmatch_seq, rmatch_wordb. cbn [prev rest].
  rewrite Hl, T. cbn [xorb]. discriminate.
Qed.

(** A text without whole-word keywords has none at any position. *)
Lemma wordless_at u k t :
  wordless (u ++ k ++ t) = true -> is_keyword k = true ->
  is_word_opt (last_opt None u) = false ->
  is_word_opt (hd_error t) = false -> False.
Proof.
  unfold wordless, test, exec. intros H K P T.
  destruct (search true rx_word [] None (u ++ k ++ t)) eqn:E; [discriminate H|].
  apply search_none_at in E. exact (rx_word_at k t _ K P T E).
Qed.

Lemma marker_needs_keyword p s :
  rmatch true keyword (MState p s []) = [] -> match_at true rx_marker p s = None.
Proof.
  intros H. unfold match_at, rx_marker. cbn [cat fold_right].
  rewrite rmatch_seq, rmatch_wordb. cbn [prev rest].
  destruct (xorb _ _); [|reflexivity].
  rewrite flat_map_single, rmatch_seq, rmatch_grp, H. reflexivity.
Qed.

(** Where the marker pattern matches there is a whole-word keyword. *)
Lemma marker_needs_word p s :
  match_at true rx_marker p s <> None ->
  exists k t, s = k ++ t /\ is_keyword k = true
              /\ is_word_opt p = false /\ is_word_opt (hd_error t) = false.
Proof.
  intros H.
  destruct (rmatch true keyword (MState p s [])) eqn:E.
  { rewrite marker_needs_keyword in H by exact E. congruence. }
  destruct (keyword_some_inv p s []) as [k [t [Es K]]]; [congruence|].
  exists k, t. split; [exact Es|]. split; [exact K|]. subst s.
  destruct (keyword_head_letter _ K) as [x [k' [Ek Lx]]].
  pose proof (last_opt_letters k p (keyword_nonempty _ K) (keyword_letters _ K)) as Hl.
  unfold match_at, rx_marker in H. cbn [cat fold_right] in H.
  rewrite rmatch_seq, rmatch_wordb in H. cbn [prev rest] in H.
  replace (is_word_opt (hd_error (k ++ t))) with true in H
    by (rewrite Ek; simpl; symmetry; apply letter_is_word; exact Lx).
  destruct (is_word_opt p); [cbn in H; congruence|]. split; [reflexivity|].
  cbn [xorb] in H. rewrite flat_map_single in H.
  rewrite rmatch_seq, rmatch_grp, rmatch_keyword_at in H by exact K.
  cbn [map prev rest caps] in H. rewrite flat_map_single in H.
  rewrite rmatch_seq, rmatch_wordb in H. cbn [prev rest] in H.
  rewrite Hl in H. destruct (is_word_opt (hd_error t)); [|reflexivity].
  cbn in H. congruence.
Qed.

(** Inside text without whole-word keywords the marker pattern matches
    nowhere.  The position is given by the split [x1 ++ x2] of the text, [y]
    is what follows the text in the input, [p'] the character in front of
    the position there. *)
Lemma marker_quiet x x1 x2 y p' :
  wordless x = true -> x = x1 ++ x2 -> x2 <> [] ->
  (y = [] \/ ends_nonword x2 = true) ->
  (is_word_opt p' = is_word_opt (last_opt None x1) \/ starts_nonword x2 = true) ->
  match_at true rx_marker p' (x2 ++ y) = None.
Proof.
  intros W E N Y P.
  destruct (match_at true rx_marker p' (x2 ++ y)) eqn:M; [exfalso|reflexivity].
  destruct (marker_needs_word p' (x2 ++ y)) as [k [t [Es [K [Hp Ht]]]]];
    [congruence|].
  destruct (keyword_inside x2 y k t Es K Y) as [t2 [E2 Et]].
  subst x x2 t.
  destruct (keyword_head_letter _ K) as [c [k' [Ek Lc]]].
  apply (wordless_at x1 k t2 W K).
  - destruct P as [P|P]; [congruence|].
    rewrite Ek in P. simpl in P. rewrite (letter_is_word _ Lc) in P. discriminate P.
  - destruct t2; [reflexivity|exact Ht].
Qed.

(** Text without the keywords as substrings has no whole-word keyword. *)
Lemma keyword_free_wordless x : keyword_free x = true -> wordless x = true.
Proof.
  unfold keyword_free, wordless, test, exec. intros H.
  destruct (search true keyword [] None x) eqn:E; [discriminate H|].
  assert (E' : search true rx_word [] None x = None).
  { apply search_none_intro. intros u v Ex. subst x.
    apply search_none_at in E. unfold match_at in *. apply hd_error_nil in E.
    unfold rx_word. cbn [cat fold_right]. rewrite rmatch_seq, rmatch_wordb.
    destruct (xorb _ _); [|reflexivity].
    rewrite flat_map_single, rmatch_seq.
    rewrite (keyword_none_any _ _ _ _ _ E). reflexivity. }
  rewrite E'. reflexivity.
Qed.

(** ** One step of [mark] *)

Lemma after_marker_suffix a : exists d, a = d ++ after_marker a.
Proof.
  unfold after_marker.
  pose proof (take_drop_class true [Space] a) as E.
  destruct (drop_class true [Space] a) as [|c t].
  - exists a. rewrite app_nil_r. reflexivity.
  - destruct (c =? COLON)%N.
    + exists (take_class true [Space] a ++ [c]). rewrite <- app_assoc. exact (eq_sym E).
    + exists (take_class true [Space] a). exact (eq_sym E).
Qed.

Lemma drop_class_app_stop ci cs a z :
  (z = [] \/ exists c t, z = c :: t /\ class_mem ci cs c = false) ->
  drop_class ci cs (a ++ z) = drop_class ci cs a ++ z.
Proof.
  intros Z. induction a as [|x a IH]; simpl.
  - destruct Z as [->|[c [t [-> Hc]]]]; [reflexivity|]. simpl. rewrite Hc. reflexivity.
  - destruct (class_mem ci cs x); auto.
Qed.

Lemma after_marker_app a z :
  (z = [] \/ starts_letter z = true) ->
  after_marker (a ++ z) = after_marker a ++ z.
Proof.
  intros Z. unfold after_marker. rewrite drop_class_app_stop.
  - destruct (drop_class true [Space] a) as [|c t].
    + simpl. destruct Z as [->|Z]; [reflexivity|].
      destruct z as [|c t]; [discriminate Z|]. simpl in Z.
      apply letter_spec in Z. unfold COLON.
      destruct (N.eqb_spec c 58); [lia|reflexivity].
    + simpl. destruct (c =? COLON)%N; reflexivity.
  - destruct Z as [->|Z]; [left; reflexivity|right].
    destruct z as [|c t]; [discriminate Z|]. exists c, t. split; auto.
    rewrite class_space_ci. apply letter_not_space. exact Z.
Qed.

Lemma expand_marker k : expand marker_tpl [(1, k)] = marker k.
Proof.
  unfold expand, marker_tpl, marker. cbn [flat_map get_cap Nat.eqb].
  rewrite app_nil_r. reflexivity.
Qed.

Lemma mark_step k a z p :
  is_keyword k = true -> is_word_opt p = false ->
  wordless a = true ->
  (a = [] \/ starts_nonword a = true) ->
  ((a = [] /\ z = []) \/ (a <> [] /\ z = []) \/ (ends_nonword a = true /\ starts_letter z = true)) ->
  replace_go true rx_marker marker_tpl 0 p (k ++ a ++ z) =
  marker k ++ after_marker a ++
  replace_go true rx_marker marker_tpl 0 (last_opt p (k ++ a)) z.
Proof.
  intros K P F A Z.
  assert (Hz : z = [] \/ starts_letter z = true) by (destruct Z as [[_ ?]|[[_ ?]|[_ ?]]]; auto).
  assert (Hhd : is_word_opt (hd_error (a ++ z)) = false).
  { destruct A as [->|A].
    - destruct Z as [[_ ->]|[[N _]|[E _]]]; [reflexivity|congruence|discriminate E].
    - destruct a as [|c a]; [discriminate A|]. simpl in *.
      destruct (is_word c); [discriminate A|reflexivity]. }
  destruct (marker_match k (a ++ z) p K P Hhd) as [st' [M [R C]]].
  rewrite (after_marker_app a z Hz) in R.
  destruct (after_marker_suffix a) as [d Ed].
  assert (Es : k ++ a ++ z = (k ++ d) ++ (after_marker a ++ z)).
  { rewrite Ed at 1. rewrite <- !app_assoc. reflexivity. }
  rewrite Es in M |- *.
  rewrite (replace_go_match true rx_marker marker_tpl (k ++ d) _ p st' M R).
  2:{ pose proof (keyword_nonempty _ K). destruct k; [congruence|discriminate]. }
  rewrite C, expand_marker. f_equal.
  rewrite replace_go_copy.
  - rewrite <- last_opt_app, <- app_assoc, <- Ed. reflexivity.
  - intros x1 x2 E N.
    apply (marker_quiet a (d ++ x1) x2 z _ F); auto.
    + rewrite <- app_assoc, <- E. exact Ed.
    + destruct Z as [[_ ?]|[[_ ?]|[E' _]]]; auto. right.
      rewrite Ed, E, app_assoc in E'. rewrite ends_nonword_app in E'; auto.
    + destruct (d ++ x1) as [|c0 z0] eqn:Ez.
      * right. apply app_eq_nil in Ez. destruct Ez as [-> ->].
        simpl in E, Ed. rewrite <- E, <- Ed.
        destruct A as [Ha|A]; [|exact A].
        exfalso. apply N. rewrite <- E, <- Ed. exact Ha.
      * left. rewrite <- last_opt_app, <- app_assoc, Ez.
        rewrite last_opt_app. reflexivity.
Qed.

Lemma marker_at_end p : match_at true rx_marker p [] = None.
Proof. apply marker_needs_keyword. reflexivity. Qed.

Lemma starts_letter_keyword k z : is_keyword k = true -> starts_letter (k ++ z) = true.
Proof.
  intros K. destruct (keyword_head_letter _ K) as [c [t [-> L]]]. exact L.
Qed.

Lemma gap_inv a :
  gap a = true ->
  wordless a = true /\ tame a = true /\ starts_nonword a = true
  /\ ends_nonword a = true.
Proof. unfold gap. rewrite !andb_true_iff. tauto. Qed.

Lemma lead_inv pre :
  lead pre = true ->
  wordless pre = true /\ tame pre = true
  /\ (pre = [] \/ ends_nonword pre = true).
Proof.
  unfold lead. rewrite !andb_true_iff. intros [[H1 H2] H3].
  destruct pre; auto.
Qed.

Lemma trail_inv c :
  trail c = true ->
  wordless c = true /\ tame c = true
  /\ (c = [] \/ starts_nonword c = true).
Proof.
  unfold trail. rewrite !andb_true_iff. intros [[H1 H2] H3].
  destruct c; auto.
Qed.

Lemma last_opt_lead pre :
  pre = [] \/ ends_nonword pre = true -> is_word_opt (last_opt None pre) = false.
Proof. intros [->|H]; [reflexivity|]. apply last_opt_ends_nonword. exact H. Qed.

Lemma last_opt_gap p k a :
  ends_nonword a = true -> is_word_opt (last_opt p (k ++ a)) = false.
Proof. intros H. rewrite last_opt_app. apply last_opt_ends_nonword. exact H. Qed.

Lemma between_inv a :
  between_keywords a = true ->
  wordless a = true /\ marker_free a = true /\ head_free a = true
  /\ starts_nonword a = true /\ ends_nonword a = true.
Proof. unfold between_keywords. rewrite !andb_true_iff. tauto. Qed.

Lemma before_inv pre :
  before_keywords pre = true ->
  wordless pre = true /\ marker_free pre = true
  /\ (pre = [] \/ ends_nonword pre = true).
Proof.
  unfold before_keywords. rewrite !andb_true_iff. intros [[H1 H2] H3].
  destruct pre; auto.
Qed.

Lemma behind_inv c :
  behind_keywords c = true ->
  wordless c = true /\ marker_free c = true /\ head_free c = true
  /\ (c = [] \/ starts_nonword c = true).
Proof.
  unfold behind_keywords. rewrite !andb_true_iff. intros [[[H1 H2] H3] H4].
  destruct c; auto.
Qed.

(** [mark] on a text with the three role keywords. *)
Lemma mark_three pre k1 a k2 b k3 c :
  is_keyword k1 = true -> is_keyword k2 = true -> is_keyword k3 = true ->
  before_keywords pre = true -> between_keywords a = true ->
  between_keywords b = true -> behind_keywords c = true ->
  mark (pre ++ k1 ++ a ++ k2 ++ b ++ k3 ++ c) =
  pre ++ marker k1 ++ after_marker a ++ marker k2 ++ after_marker b
      ++ marker k3 ++ after_marker c.
Proof.
  intros K1 K2 K3 Hp Ha Hb Hc.
  apply before_inv in Hp. destruct Hp as [Fp [_ Ep]].
  apply between_inv in Ha. destruct Ha as [Fa [_ [_ [Sa Ea]]]].
  apply between_inv in Hb. destruct Hb as [Fb [_ [_ [Sb Eb]]]].
  apply behind_inv in Hc. destruct Hc as [Fc [_ [_ Sc]]].
  unfold mark, replace_all.
  rewrite replace_go_copy.
  2:{ intros x1 x2 E N. apply (marker_quiet pre x1 x2 _ _ Fp); auto.
      right. destruct Ep as [->|Ep].
      - destruct x1; simpl in E; [congruence|discriminate E].
      - rewrite E, ends_nonword_app in Ep; auto. }
  f_equal.
  rewrite (mark_step k1 a (k2 ++ b ++ k3 ++ c)); auto.
  2:{ apply last_opt_lead; auto. }
  2:{ right; right. split; auto. apply starts_letter_keyword; auto. }
  do 2 f_equal.
  rewrite (mark_step k2 b (k3 ++ c)); auto.
  2:{ apply last_opt_gap; auto. }
  2:{ right; right. split; auto. apply starts_letter_keyword; auto. }
  do 2 f_equal.
  rewrite <- (app_nil_r c) at 1.
  rewrite (mark_step k3 c []); auto.
  2:{ apply last_opt_gap; auto. }
  2:{ destruct c; [left; auto|right; left; split; [discriminate|reflexivity]]. }
  rewrite replace_go_eq, marker_at_end. rewrite app_nil_r. reflexivity.
Qed.

(** ** Splitting the marked text *)

Lemma rx_split_none p c t :
  (c <> LF \/ strip false [EQ; EQ; EQ] t = None) ->
  match_at false rx_split p (c :: t) = None.
Proof.
  intros H. unfold match_at, rx_split. cbn [cat fold_right].
  rewrite rmatch_seq, rmatch_chr, class_one_cs.
  destruct (N.eqb_spec LF c) as [E|E]; [|reflexivity].
  destruct H as [H|H]; [congruence|].
  rewrite flat_map_single, rmatch_seq, lit_lits, rmatch_lits.
  change (js "===") with [EQ; EQ; EQ]. rewrite H. reflexivity.
Qed.

(** A run [===] does not straddle the end of a text that is followed by
    something other than [=]. *)
Lemma strip_eq3_app t y :
  strip false [EQ; EQ; EQ] t = None -> hd_error y <> Some EQ ->
  strip false [EQ; EQ; EQ] (t ++ y) = None.
Proof.
  intros H Y.
  assert (Hy : strip false [EQ] y = None /\ strip false [EQ; EQ] y = None
               /\ strip false [EQ; EQ; EQ] y = None).
  { destruct y as [|d y]; [auto|]. cbn [strip]. rewrite class_one_cs.
    destruct (N.eqb_spec EQ d) as [E|E]; [|auto].
    subst d. simpl in Y. congruence. }
  destruct Hy as [Y1 [Y2 Y3]].
  destruct t as [|a1 t]; [exact Y3|]. cbn [app strip] in *.
  destruct (class_mem false [One EQ] a1); [|reflexivity].
  destruct t as [|a2 t]; [exact Y2|]. cbn [app strip] in *.
  destruct (class_mem false [One EQ] a2); [|reflexivity].
  destruct t as [|a3 t]; [exact Y1|]. cbn [app strip] in *.
  destruct (class_mem false [One EQ] a3); [discriminate H|reflexivity].
Qed.

Lemma calm_app_r x1 x2 : calm (x1 ++ x2) = true -> calm x2 = true.
Proof.
  induction x1 as [|c x1 IH]; intros H; [exact H|].
  apply IH. cbn [app calm] in H. apply andb_true_iff in H. apply H.
Qed.

(** In calm text followed by the end or by something other than [=], the
    separator pattern matches nowhere. *)
Lemma split_quiet x y :
  calm x = true -> hd_error y <> Some EQ ->
  forall p x1 x2, x = x1 ++ x2 -> x2 <> [] ->
    match_at false rx_split p (x2 ++ y) = None.
Proof.
  intros C Y p x1 x2 E N. subst x. apply calm_app_r in C.
  destruct x2 as [|c t]; [congruence|]. cbn [app]. apply rx_split_none.
  cbn [calm] in C. apply andb_true_iff in C. destruct C as [C _].
  apply negb_true_iff, andb_false_iff in C.
  destruct C as [C|C]; [left; apply N.eqb_neq; exact C|right].
  apply strip_eq3_app; [|exact Y].
  destruct (strip false [EQ; EQ; EQ] t); [discriminate C|reflexivity].
Qed.

Lemma drop_class_letter ci z :
  starts_letter z = true -> drop_class ci [Space] z = z.
Proof.
  destruct z as [|c t]; intros L; [discriminate L|]. simpl in L.
  cbn [drop_class]. destruct ci.
  - rewrite class_space_ci, (letter_not_space _ L). reflexivity.
  - rewrite class_space_cs, (letter_not_space _ L). reflexivity.
Qed.

Lemma separator_match p y :
  starts_letter y = true ->
  exists st', match_at false rx_split p (separator ++ y) = Some st'
              /\ rest st' = y.
Proof.
  intros L. unfold match_at, rx_split, separator. cbn [cat fold_right app].
  rewrite rmatch_seq, rmatch_chr. cbn [class_mem existsb item_mem].
  rewrite N.eqb_refl. cbn [orb]. rewrite flat_map_single.
  rewrite rmatch_seq, lit_lits, rmatch_lits.
  change (js "=== ") with [EQ; EQ; EQ; SP]. change (js "===") with [EQ; EQ; EQ].
  cbn [app strip]. rewrite !class_one_cs, N.eqb_refl.
  rewrite flat_map_single, rmatch_seq. unfold ws.
  destruct (rmatch_star_class false [Space] (SP :: y) (last_opt (Some LF) (firstn (length [EQ; EQ; EQ]) (EQ :: EQ :: EQ :: SP :: y))) []) as [tl E].
  rewrite E. cbn [flat_map rmatch app hd_error].
  eexists. split; [reflexivity|]. cbn [rest drop_class].
  rewrite class_space_cs. change (is_space SP) with true. cbv iota.
  apply drop_class_letter. exact L.
Qed.

Lemma split_nonempty ci r s :
  s <> [] -> split ci r s = split_go ci r 0 None [] s.
Proof. destruct s; [congruence|reflexivity]. Qed.

Lemma split_step x y p cur :
  calm x = true -> starts_letter y = true ->
  exists q,
    split_go false rx_split 0 p cur (x ++ separator ++ y) =
    (rev cur ++ x) :: split_go false rx_split 0 q [] y.
Proof.
  intros C L.
  rewrite split_go_copy.
  2:{ intros x1 x2. apply (split_quiet x _ C). discriminate. }
  destruct (separator_match (last_opt p x) y L) as [st' [M R]].
  rewrite (split_go_match false rx_split separator y _ _ st' M R) by discriminate.
  eexists. rewrite rev_app_distr, rev_involutive. reflexivity.
Qed.

Lemma split_last x p cur :
  calm x = true ->
  split_go false rx_split 0 p cur x = [rev cur ++ x].
Proof.
  intros C. rewrite <- (app_nil_r x) at 1. rewrite split_go_copy.
  - rewrite split_go_nil, rev_app_distr, rev_involutive. reflexivity.
  - intros x1 x2. apply (split_quiet x [] C). discriminate.
Qed.

Lemma lacks_app c x y : lacks c (x ++ y) = lacks c x && lacks c y.
Proof. unfold lacks. apply forallb_app. Qed.

Lemma strip_lits_none ci w p s :
  match_at ci (lits w) p s = None <-> strip ci w s = None.
Proof.
  unfold match_at. rewrite rmatch_lits.
  destruct (strip ci w s); simpl; split; intros H; congruence.
Qed.

(** [tame], position by position. *)
Lemma tame_spec x :
  tame x = true <->
  forall x1 x2, x = x1 ++ x2 -> strip false [EQ; EQ; EQ] x2 = None.
Proof.
  unfold tame, test, exec. rewrite lit_lits. change (js "===") with [EQ; EQ; EQ].
  split.
  - intros H x1 x2 E. subst x.
    destruct (search false (lits [EQ; EQ; EQ]) [] None (x1 ++ x2)) eqn:S;
      [discriminate H|].
    apply search_none_at in S. apply strip_lits_none in S. exact S.
  - intros H.
    rewrite (search_none_intro false (lits [EQ; EQ; EQ]) x [] None); [reflexivity|].
    intros x1 x2 E. apply strip_lits_none. eapply H; eauto.
Qed.

Lemma tame_app_r x1 x2 : tame (x1 ++ x2) = true -> tame x2 = true.
Proof.
  intros H. apply tame_spec. intros u v E. subst x2.
  apply (proj1 (tame_spec _) H (x1 ++ u) v). rewrite app_assoc. reflexivity.
Qed.

Lemma tame_head x : tame x = true -> strip false [EQ; EQ; EQ] x = None.
Proof. intros H. apply (proj1 (tame_spec _) H [] x). reflexivity. Qed.

Lemma calm_tame x : tame x = true -> calm x = true.
Proof.
  induction x as [|c x IH]; intros H; [reflexivity|].
  cbn [calm]. rewrite IH by (apply (tame_app_r [c] x); exact H).
  rewrite (tame_head x) by (apply (tame_app_r [c] x); exact H).
  rewrite andb_false_r. reflexivity.
Qed.

Lemma calm_app_nolf x y : lacks LF x = true -> calm y = true -> calm (x ++ y) = true.
Proof.
  induction x as [|c x IH]; intros H C; [exact C|].
  cbn [lacks forallb] in H. apply andb_true_iff in H. destruct H as [Hc H].
  cbn [app calm]. rewrite (IH H C), andb_true_r.
  apply negb_true_iff in Hc. rewrite Hc. reflexivity.
Qed.

Lemma letters_lack c k :
  is_letter c = false -> letters k = true -> lacks c k = true.
Proof.
  intros Hc. induction k as [|x k IH]; intros L; [reflexivity|].
  cbn [letters forallb] in L. apply andb_true_iff in L. destruct L as [Lx L].
  change (lacks c (x :: k)) with (negb (x =? c)%N && lacks c k).
  rewrite (IH L), andb_true_r.
  apply negb_true_iff, N.eqb_neq. intros ->. congruence.
Qed.

Lemma calm_chunk_head k a :
  letters k = true -> calm a = true -> strip false [EQ; EQ; EQ] a = None ->
  calm (chunk_of k a) = true.
Proof.
  intros L A H. unfold chunk_of. rewrite app_assoc. apply calm_app_nolf.
  - rewrite lacks_app, (letters_lack LF k eq_refl L). reflexivity.
  - cbn [calm]. rewrite H, A. reflexivity.
Qed.

Lemma calm_chunk k a :
  letters k = true -> tame a = true -> calm (chunk_of k a) = true.
Proof.
  intros L A. apply calm_chunk_head; auto using calm_tame, tame_head.
Qed.

(** [marker_free], position by position, and the same said by [calm]. *)
Lemma marker_free_spec x :
  marker_free x = true ->
  forall x1 x2, x = x1 ++ x2 -> strip false (LF :: [EQ; EQ; EQ]) x2 = None.
Proof.
  unfold marker_free, test, exec. intros H x1 x2 E. subst x.
  change (js "===") with [EQ; EQ; EQ] in H.
  destruct (search false (lits (LF :: [EQ; EQ; EQ])) [] None (x1 ++ x2)) eqn:S;
    [discriminate H|].
  apply search_none_at in S. apply strip_lits_none in S. exact S.
Qed.

Lemma marker_free_calm x : marker_free x = true -> calm x = true.
Proof.
  intros H. pose proof (marker_free_spec x H) as S. clear H.
  induction x as [|c x IH]; [reflexivity|].
  cbn [calm]. rewrite IH.
  2:{ intros x1 x2 E. apply (S (c :: x1) x2). rewrite E. reflexivity. }
  rewrite andb_true_r.
  specialize (S [] (c :: x) eq_refl).
  destruct (N.eqb_spec c LF) as [E|E]; [|reflexivity].
  subst c. change (strip false [EQ; EQ; EQ] x = None) in S.
  rewrite S. reflexivity.
Qed.

Lemma calm_marker_free x : calm x = true -> marker_free x = true.
Proof.
  intros C. unfold marker_free, test, exec.
  rewrite (search_none_intro false (lits (LF :: js "===")) x [] None);
    [reflexivity|].
  intros x1 x2 E. apply strip_lits_none. subst x. apply calm_app_r in C.
  destruct x2 as [|c t]; [reflexivity|].
  cbn [calm] in C. apply andb_true_iff in C. destruct C as [C _].
  change (strip false (LF :: js "===") (c :: t))
    with (if class_mem false [One LF] c
          then strip false [EQ; EQ; EQ] t else None).
  rewrite class_one_cs.
  destruct (N.eqb_spec LF c) as [E|E]; [|reflexivity].
  subst c. rewrite N.eqb_refl in C. cbn [andb] in C.
  destruct (strip false [EQ; EQ; EQ] t); [discriminate C|reflexivity].
Qed.

Lemma calm_after_marker a : calm a = true -> calm (after_marker a) = true.
Proof.
  intros H. destruct (after_marker_suffix a) as [d E]. rewrite E in H.
  eapply calm_app_r; eauto.
Qed.

Lemma head_free_inv a :
  head_free a = true -> strip false [EQ; EQ; EQ] (after_marker a) = None.
Proof.
  unfold head_free. destruct (strip false [EQ; EQ; EQ] (after_marker a));
    [discriminate|reflexivity].
Qed.

Lemma tame_after_marker a : tame a = true -> tame (after_marker a) = true.
Proof.
  intros H. destruct (after_marker_suffix a) as [d E]. rewrite E in H.
  eapply tame_app_r; eauto.
Qed.

Lemma marker_chunk k a z :
  marker k ++ a ++ z = separator ++ chunk_of k a ++ z.
Proof.
  unfold marker, separator, chunk_of. cbn [app].
  rewrite <- !app_assoc. cbn [app]. reflexivity.
Qed.

(** The chunks of a text with the three role keywords. *)
Lemma split_three pre k1 a k2 b k3 c :
  is_keyword k1 = true -> is_keyword k2 = true -> is_keyword k3 = true ->
  calm pre = true ->
  calm a = true -> strip false [EQ; EQ; EQ] a = None ->
  calm b = true -> strip false [EQ; EQ; EQ] b = None ->
  calm c = true -> strip false [EQ; EQ; EQ] c = None ->
  split false rx_split
    (pre ++ marker k1 ++ a ++ marker k2 ++ b ++ marker k3 ++ c) =
  [pre; chunk_of k1 a; chunk_of k2 b; chunk_of k3 c].
Proof.
  intros K1 K2 K3 Hp Ha Ga Hb Gb Hc Gc.
  rewrite (marker_chunk k1 a), (marker_chunk k2 b).
  rewrite <- (app_nil_r c) at 1. rewrite (marker_chunk k3 c), app_nil_r.
  rewrite split_nonempty by (destruct pre; discriminate).
  assert (L : forall k x z, is_keyword k = true ->
            starts_letter (chunk_of k x ++ z) = true).
  { intros k x z K. unfold chunk_of. rewrite <- app_assoc.
    apply starts_letter_keyword; auto. }
  assert (C : forall k x, is_keyword k = true -> calm x = true ->
            strip false [EQ; EQ; EQ] x = None ->
            calm (chunk_of k x) = true).
  { intros k x K X G. apply calm_chunk_head; auto. apply keyword_letters; auto. }
  pose proof (L k3 c [] K3) as L3. rewrite app_nil_r in L3.
  destruct (split_step pre _ None [] Hp
              (L k1 a (separator ++ chunk_of k2 b ++ separator ++ chunk_of k3 c) K1))
    as [q1 E1].
  rewrite E1. cbn [rev app]. f_equal.
  destruct (split_step (chunk_of k1 a) _ q1 [] (C _ _ K1 Ha Ga)
              (L k2 b (separator ++ chunk_of k3 c) K2))
    as [q2 E2].
  rewrite E2. cbn [rev app]. f_equal.
  destruct (split_step (chunk_of k2 b) _ q2 [] (C _ _ K2 Hb Gb) L3) as [q3 E3].
  rewrite E3. cbn [rev app]. f_equal.
  apply split_last. apply C; auto.
Qed.

(** Text without any run [===] is text the segmenter can take around the
    keywords. *)
Lemma tame_head_free a : tame a = true -> head_free a = true.
Proof.
  intros H. unfold head_free.
  rewrite (tame_head _ (tame_after_marker _ H)). reflexivity.
Qed.

Lemma gap_between a : gap a = true -> between_keywords a = true.
Proof.
  unfold gap, between_keywords. rewrite !andb_true_iff.
  intros [[[W T] S] E].
  repeat split; auto using calm_marker_free, calm_tame, tame_head_free.
Qed.

Lemma lead_before pre : lead pre = true -> before_keywords pre = true.
Proof.
  unfold lead, before_keywords. rewrite !andb_true_iff.
  intros [[W T] E]. repeat split; auto using calm_marker_free, calm_tame.
Qed.

Lemma trail_behind c : trail c = true -> behind_keywords c = true.
Proof.
  unfold trail, behind_keywords. rewrite !andb_true_iff.
  intros [[W T] E].
  repeat split; auto using calm_marker_free, calm_tame, tame_head_free.
Qed.

(** ** Trimming *)

Lemma drop_space_suffix s : exists u, s = u ++ drop_space s /\ blank u = true.
Proof.
  induction s as [|c s [u [E B]]]; [exists []; auto|].
  cbn [drop_space]. destruct (is_space c) eqn:S.
  - exists (c :: u). split; [simpl; congruence|].
    unfold blank in *. simpl. rewrite S. exact B.
  - exists []. auto.
Qed.

Lemma drop_space_blank s : blank s = true -> drop_space s = [].
Proof.
  induction s as [|c s IH]; intros B; [reflexivity|].
  unfold blank in B. simpl in B. apply andb_true_iff in B. destruct B as [Bc B].
  simpl. rewrite Bc. apply IH. exact B.
Qed.

Lemma blank_rev s : blank (rev s) = blank s.
Proof.
  unfold blank. induction s as [|c s IH]; [reflexivity|].
  simpl. rewrite forallb_app, IH. simpl. rewrite andb_true_r. apply andb_comm.
Qed.

Lemma blank_app x y : blank (x ++ y) = blank x && blank y.
Proof. unfold blank. apply forallb_app. Qed.

(** The trimmed text is what lies between a blank prefix and a blank suffix. *)
Lemma trim_split s :
  exists u v, s = u ++ trim s ++ v /\ blank u = true /\ blank v = true.
Proof.
  unfold trim. destruct (drop_space_suffix s) as [u [E B]].
  destruct (drop_space_suffix (rev (drop_space s))) as [w [E' B']].
  exists u, (rev w). repeat split; auto.
  - rewrite E at 1. f_equal.
    apply (f_equal (@rev _)) in E'. rewrite rev_involutive, rev_app_distr in E'.
    exact E'.
  - rewrite blank_rev. exact B'.
Qed.

Lemma trim_nil_blank s : trim s = [] <-> blank s = true.
Proof.
  split.
  - intros H. destruct (trim_split s) as [u [v [E [Bu Bv]]]].
    rewrite H in E. rewrite E, blank_app, Bu. exact Bv.
  - intros B. unfold trim. rewrite (drop_space_blank _ B). reflexivity.
Qed.

Lemma non_empty_trim s : non_empty (trim s) = negb (blank s).
Proof.
  destruct (blank s) eqn:B.
  - apply trim_nil_blank in B. rewrite B. reflexivity.
  - destruct (trim s) eqn:T; [|reflexivity].
    apply trim_nil_blank in T. congruence.
Qed.

Lemma drop_space_stop c s : is_space c = false -> drop_space (c :: s) = c :: s.
Proof. intros H. simpl. rewrite H. reflexivity. Qed.

Lemma drop_space_app_stop x c y :
  is_space c = false -> drop_space (x ++ c :: y) = drop_space x ++ c :: y.
Proof.
  intros H. induction x as [|d x IH]; simpl.
  - rewrite H. reflexivity.
  - destruct (is_space d); auto.
Qed.

(** Trimming a text whose head is solid: only the right end moves. *)
Lemma trim_solid_head c u d v :
  is_space c = false -> is_space d = false ->
  trim ((c :: u) ++ d :: v) = (c :: u) ++ d :: rtrim v.
Proof.
  intros Hc Hd. unfold trim, rtrim.
  change ((c :: u) ++ d :: v) with (c :: (u ++ d :: v)).
  rewrite drop_space_stop by exact Hc.
  change (c :: u ++ d :: v) with ((c :: u) ++ d :: v).
  assert (E : rev ((c :: u) ++ d :: v) = rev v ++ d :: rev (c :: u)).
  { rewrite rev_app_distr. change (d :: v) with ([d] ++ v).
    rewrite rev_app_distr, <- app_assoc. reflexivity. }
  rewrite E, drop_space_app_stop by exact Hd.
  rewrite rev_app_distr. change (d :: rev (c :: u)) with ([d] ++ rev (c :: u)).
  rewrite rev_app_distr, rev_involutive, <- app_assoc. reflexivity.
Qed.

Lemma trim_chunk k a :
  is_keyword k = true ->
  trim (chunk_of k a) = k ++ js " ===" ++ rtrim (LF :: a).
Proof.
  intros K. destruct (keyword_head_letter _ K) as [c [t [-> L]]].
  unfold chunk_of. change (js " ===") with [SP; EQ; EQ; EQ].
  replace ((c :: t) ++ [SP; EQ; EQ; EQ] ++ LF :: a)
    with ((c :: (t ++ [SP; EQ; EQ])) ++ EQ :: (LF :: a))
    by (cbn [app]; rewrite <- app_assoc; reflexivity).
  rewrite trim_solid_head; [|apply letter_not_space; exact L|reflexivity].
  cbn [app]. rewrite <- app_assoc. reflexivity.
Qed.

(** ** Tagging a chunk *)

Lemma role_match_at k t :
  is_keyword k = true ->
  exists st', match_at true rx_role None (k ++ js " ===" ++ t) = Some st'
              /\ caps st' = [(1, k); (2, k)].
Proof.
  intros K. unfold match_at, rx_role. cbn [cat fold_right].
  rewrite rmatch_seq, rmatch_bol. cbn [prev]. rewrite flat_map_single.
  rewrite rmatch_seq, !rmatch_grp, rmatch_keyword_at by exact K.
  cbn [map prev rest caps]. rewrite !consumed_app, flat_map_single.
  change (js " ===") with [SP; EQ; EQ; EQ]. cbn [app].
  rewrite rmatch_seq. unfold ws.
  destruct (rmatch_star_class true [Space] (SP :: EQ :: EQ :: EQ :: t)
              (last_opt None k) [(1, k); (2, k)]) as [tl1 E1].
  rewrite E1. cbn [drop_class take_class]. rewrite !class_space_ci.
  change (is_space SP) with true. change (is_space EQ) with false. cbv iota.
  set (q1 := last_opt (last_opt None k) [SP]).
  destruct (rmatch_star_class true [Space] t (Some EQ) [(1, k); (2, k)])
    as [tl2 E2].
  exists (MState (last_opt (Some EQ) (take_class true [Space] t))
                 (drop_class true [Space] t) [(1, k); (2, k)]).
  split; [|reflexivity].
  eapply hd_flat_map; [reflexivity|].
  rewrite rmatch_seq, lit_lits, rmatch_lits. change (js "==") with [EQ; EQ].
  cbn [strip]. change (class_mem true [One EQ] EQ) with true. cbv iota.
  rewrite flat_map_single, rmatch_seq.
  change (c1 "=") with (Chr [One EQ]). rewrite rmatch_opt_class.
  change (class_mem true [One EQ] EQ) with true. cbv iota.
  eapply hd_flat_map; [reflexivity|].
  rewrite rmatch_seq. rewrite E2. reflexivity.
Qed.

Lemma tag_keyword_chunk k t :
  is_keyword k = true ->
  role (tag_chunk (k ++ js " ===" ++ t)) = toUpperCase k.
Proof.
  intros K. destruct (role_match_at k t K) as [st' [M C]].
  unfold tag_chunk, exec. rewrite search_eq, M. cbn [m_caps role].
  rewrite C. reflexivity.
Qed.

Lemma search_bol_inside ci r s : forall pre c,
  search ci (Seq Bol r) pre (Some c) s = None.
Proof.
  induction s as [|x t IH]; intros pre c; simpl; auto.
Qed.

Lemma exec_bol ci r s :
  exec ci (Seq Bol r) s =
  match match_at ci (Seq Bol r) None s with
  | Some st' =>
      Some (JsMatch [] (firstn (length s - length (rest st')) s)
                    (caps st') (rest st'))
  | None => None
  end.
Proof.
  unfold exec. rewrite search_eq. destruct (match_at _ _ _ _); [reflexivity|].
  destruct s; [reflexivity|]. apply search_bol_inside.
Qed.

Lemma space_not_word c : is_space c = true -> is_word c = false.
Proof.
  intros S. apply is_space_spec in S. apply not_true_is_false.
  unfold is_word, is_upper, is_lower, is_digit.
  rewrite !orb_true_iff, !andb_true_iff, !N.leb_le, N.eqb_eq. lia.
Qed.

Lemma last_opt_blank u : forall p,
  is_word_opt p = false -> blank u = true -> is_word_opt (last_opt p u) = false.
Proof.
  induction u as [|c u IH]; intros p P B; [exact P|].
  unfold blank in B. cbn [forallb] in B. apply andb_true_iff in B.
  destruct B as [Bc B]. cbn [last_opt]. apply IH; [|exact B].
  simpl. apply space_not_word. exact Bc.
Qed.

Lemma hd_app_blank t v :
  blank v = true -> is_word_opt (hd_error (t ++ v)) = true ->
  exists c t', t = c :: t' /\ is_word c = true.
Proof.
  intros B H. destruct t as [|c t'].
  - destruct v as [|d v]; [discriminate H|]. simpl in H.
    unfold blank in B. cbn [forallb] in B. apply andb_true_iff in B.
    rewrite (space_not_word d) in H by apply B. discriminate H.
  - exists c, t'. auto.
Qed.

(** The star of a class in front of a character outside the class. *)
Lemma rmatch_star_stop ci cs p c t k :
  class_mem ci cs c = false ->
  rmatch ci (star (Chr cs)) (MState p (c :: t) k) = [MState p (c :: t) k].
Proof.
  intros H. unfold star. rewrite rmatch_rep. cbn zeta.
  rewrite rmatch_chr, H. reflexivity.
Qed.

Lemma word_not_eq c : is_word c = true -> class_mem true [One EQ] c = false.
Proof.
  intros W. unfold class_mem, existsb, item_mem. cbn [andb].
  rewrite orb_false_r. apply orb_false_iff.
  assert (N : is_word EQ = false) by reflexivity.
  split; apply N.eqb_neq; intros E.
  - subst c. congruence.
  - destruct (swap_case_cases c) as [[_ L]|[_ E']].
    + rewrite <- E in L. discriminate L.
    + rewrite E' in E. subst c. congruence.
Qed.

Lemma word_not_sep c :
  is_word c = true -> class_mem true [ch ":"; Space] c = false.
Proof.
  intros W. change [ch ":"; Space] with ([One COLON] ++ [Space]).
  unfold class_mem. rewrite existsb_app. fold (class_mem true [One COLON] c).
  fold (class_mem true [Space] c). rewrite class_colon_ci, class_space_ci.
  apply orb_false_iff. split.
  - apply N.eqb_neq. intros ->. discriminate W.
  - destruct (is_space c) eqn:S; [|reflexivity].
    apply space_not_word in S. congruence.
Qed.

(** A trimmed text without whole-word keywords is tagged UNKNOWN. *)
Lemma tag_trimmed x :
  wordless x = true ->
  tag_chunk (trim x) = Section_ (js "UNKNOWN") (trim x).
Proof.
  intros F. destruct (trim_split x) as [u [v [E [Bu Bv]]]].
  pose proof (last_opt_blank u None eq_refl Bu) as Pu.
  unfold tag_chunk, test.
  assert (E1 : exec true rx_role (trim x) = None).
  { unfold rx_role. cbn [cat fold_right]. rewrite exec_bol.
    unfold match_at. rewrite rmatch_seq, rmatch_bol. cbn [prev].
    rewrite flat_map_single, rmatch_seq, !rmatch_grp.
    destruct (rmatch true keyword (MState None (trim x) [])) eqn:R; [reflexivity|].
    destruct (keyword_some_inv None (trim x) []) as [k [t [Et K]]]; [congruence|].
    rewrite Et, rmatch_keyword_at in R by exact K. rewrite <- R.
    cbn [map prev rest caps]. rewrite flat_map_single, rmatch_seq. unfold ws.
    destruct (is_word_opt (hd_error (t ++ v))) eqn:W.
    - destruct (hd_app_blank t v Bv W) as [c [t' [-> Wc]]].
      rewrite rmatch_star_stop
        by (rewrite class_space_ci; destruct (is_space c) eqn:S; auto;
            apply space_not_word in S; congruence).
      rewrite flat_map_single, rmatch_seq, lit_lits, rmatch_lits.
      change (js "==") with [EQ; EQ]. cbn [strip].
      rewrite (word_not_eq c Wc). reflexivity.
    - exfalso. rewrite Et, <- app_assoc in E. rewrite E in F.
      exact (wordless_at u k (t ++ v) F K Pu W). }
  assert (E2 : exec true rx_name_start (trim x) = None).
  { unfold rx_name_start. cbn [cat fold_right]. rewrite exec_bol.
    unfold match_at. rewrite rmatch_seq, rmatch_bol. cbn [prev].
    rewrite flat_map_single, rmatch_seq, lit_lits, rmatch_lits.
    destruct (strip true (js "Name") (trim x)) as [t|] eqn:S; [|reflexivity].
    apply (strip_ci_letters (js "Name") eq_refl) in S. destruct S as [k [Et U]].
    pose proof (is_keyword_name k (spells_intro "Name" k U)) as K.
    rewrite flat_map_single, rmatch_seq.
    destruct t as [|c t']; [reflexivity|]. rewrite rmatch_chr.
    destruct (class_mem true [ch ":"; Space] c) eqn:C; [|reflexivity].
    exfalso. rewrite Et, <- app_assoc in E. rewrite E in F.
    apply (wordless_at u k ((c :: t') ++ v) F K Pu).
    simpl. destruct (is_word c) eqn:W; [|reflexivity].
    rewrite (word_not_sep c W) in C. discriminate C. }
  rewrite E1, E2. reflexivity.
Qed.

(** ** The Ear rule *)

Lemma ear_rewrite_skip t :
  ear_rewrite true t = ear_rewrite false (drop_class false ear_delims t).
Proof.
  induction t as [|c t IH]; [reflexivity|].
  cbn [drop_class]. destruct (class_mem false ear_delims c) eqn:D.
  - rewrite <- IH. cbn [ear_rewrite]. rewrite D. reflexivity.
  - cbn [ear_rewrite]. rewrite D. reflexivity.
Qed.

Lemma class_e c : class_mem false [ch "E"; ch "e"] c = is_e c.
Proof.
  change [ch "E"; ch "e"] with [One 69; One 101]%N.
  unfold class_mem, existsb, item_mem, is_e. cbn [andb].
  rewrite !orb_false_r, (N.eqb_sym 69 c), (N.eqb_sym 101 c). reflexivity.
Qed.

(** The Ear pattern matches at every [ear]/[Ear], whatever comes before and
    after, and takes the trailing delimiters with it. *)
Lemma ear_match p e t :
  is_e e = true ->
  exists st', match_at false Clean.rx_ear p (e :: 97 :: 114 :: t)%N = Some st'
              /\ rest st' = drop_class false ear_delims t /\ caps st' = [].
Proof.
  intros He. unfold match_at, Clean.rx_ear. cbn [cat fold_right].
  rewrite rmatch_seq, rmatch_chr, class_e, He, flat_map_single.
  rewrite rmatch_seq, lit_lits, rmatch_lits.
  change (js "ar") with [97; 114]%N. cbn [strip].
  rewrite !class_one_cs, !N.eqb_refl, flat_map_single, rmatch_seq.
  change (Chr [Space; ch "#"; ch ":"]) with (Chr ear_delims).
  match goal with
  | |- context [rmatch false (star (Chr ear_delims)) (MState ?q ?u ?k)] =>
      destruct (rmatch_star_class false ear_delims u q k) as [tl E]; rewrite E
  end.
  eexists. split; [reflexivity|]. split; reflexivity.
Qed.

Lemma ear_no_match p c t :
  match t with
  | a :: r :: _ => is_e c && (a =? 97)%N && (r =? 114)%N
  | _ => false
  end = false ->
  match_at false Clean.rx_ear p (c :: t) = None.
Proof.
  intros H. unfold match_at, Clean.rx_ear. cbn [cat fold_right].
  rewrite rmatch_seq, rmatch_chr, class_e.
  destruct (is_e c); [|reflexivity].
  rewrite flat_map_single, rmatch_seq, lit_lits, rmatch_lits.
  change (js "ar") with [97; 114]%N. cbn [strip].
  destruct t as [|a [|r t]]; try reflexivity; rewrite !class_one_cs.
  - destruct (97 =? a)%N; reflexivity.
  - rewrite (N.eqb_sym a), (N.eqb_sym r) in H. cbn [andb] in H.
    destruct (97 =? a)%N; [|reflexivity]. cbn [andb] in H. rewrite H. reflexivity.
Qed.

Lemma drop_class_length ci cs t : length (drop_class ci cs t) <= length t.
Proof.
  induction t as [|c t IH]; simpl; [lia|].
  destruct (class_mem ci cs c); simpl; lia.
Qed.

Lemma ear_go_rewrite n : forall s p,
  length s <= n ->
  replace_go false Clean.rx_ear [RLit (js "Ear # ")] 0 p s = ear_rewrite false s.
Proof.
  induction n as [|n IH]; intros s p L.
  - destruct s; [reflexivity|simpl in L; lia].
  - destruct s as [|c t]; [reflexivity|].
    cbn [ear_rewrite andb].
    destruct (match t with
              | a :: r :: _ => is_e c && (a =? 97)%N && (r =? 114)%N
              | _ => false end) eqn:M.
    + destruct t as [|a [|r t']]; try discriminate M.
      rewrite M. apply andb_true_iff in M. destruct M as [M Hr].
      apply andb_true_iff in M. destruct M as [He Ha].
      apply N.eqb_eq in Ha, Hr. subst a r.
      destruct (ear_match p c t' He) as [st' [Hm [Hr Hc]]].
      pose proof (take_drop_class false ear_delims t') as Et.
      match type of Hm with
      | match_at _ _ _ ?s = _ =>
          assert (Es : s = (c :: 97 :: 114 :: take_class false ear_delims t')%N
                           ++ drop_class false ear_delims t')
            by (cbn [app]; rewrite Et; reflexivity);
          rewrite Es in Hm; rewrite Es
      end.
      rewrite (replace_go_match false Clean.rx_ear _ _ _ p st' Hm Hr) by discriminate.
      rewrite Hc. cbn [expand flat_map]. rewrite app_nil_r. f_equal.
      rewrite ear_rewrite_skip. apply IH.
      pose proof (drop_class_length false ear_delims t'). simpl in L. lia.
    + rewrite replace_go_eq, (ear_no_match p c t M).
      assert (E : replace_go false Clean.rx_ear [RLit (js "Ear # ")] 0 (Some c) t
                  = ear_rewrite false t) by (apply IH; simpl in L; lia).
      rewrite E. destruct t as [|a [|r t']]; try reflexivity.
      rewrite M. reflexivity.
Qed.

Lemma ear_rule_rewrite s : ear_rule s = ear_rewrite false s.
Proof. apply (ear_go_rewrite (length s)). lia. Qed.

Lemma is_e_not_delim e : is_e e = true -> class_mem false ear_delims e = false.
Proof.
  unfold is_e. intros H. apply orb_true_iff in H.
  destruct H as [H|H]; apply N.eqb_eq in H; subst e; reflexivity.
Qed.

Lemma ear_rewrite_occurrence n : forall pre sk e post,
  length pre <= n -> is_e e = true ->
  ear_rewrite sk (pre ++ e :: 97 :: 114 :: post)%N =
  ear_rewrite sk pre ++ js "Ear # "
    ++ ear_rewrite false (drop_class false ear_delims post).
Proof.
  induction n as [|n IH]; intros pre sk e post L He.
  - destruct pre; [|simpl in L; lia]. cbn [app ear_rewrite].
    rewrite (is_e_not_delim _ He), andb_false_r, He, !N.eqb_refl. cbn [andb].
    rewrite ear_rewrite_skip. reflexivity.
  - destruct pre as [|c pre]; [apply (IH [] sk e post); [simpl; lia|exact He]|].
    cbn [app ear_rewrite].
    destruct (sk && class_mem false ear_delims c).
    + apply IH; [simpl in L; lia|exact He].
    + assert (He' : (e =? 97)%N = false /\ (e =? 114)%N = false).
      { unfold is_e in He. apply orb_true_iff in He.
        destruct He as [H|H]; apply N.eqb_eq in H; subst e; split; reflexivity. }
      destruct He' as [He1 He2].
      destruct pre as [|a [|r pre]]; cbn [app].
      * rewrite He1, andb_false_r. cbn [andb].
        pose proof (IH [] false e post) as H. cbn [app] in H.
        rewrite H by (first [assumption | cbn [length] in *; lia]). reflexivity.
      * rewrite He2, andb_false_r.
        pose proof (IH [a] false e post) as H. cbn [app] in H.
        rewrite H by (first [assumption | cbn [length] in *; lia]). reflexivity.
      * destruct (is_e c && (a =? 97)%N && (r =? 114)%N).
        -- rewrite (IH pre true e post) by (first [assumption | cbn [length] in *; lia]).
           rewrite <- !app_assoc. reflexivity.
        -- pose proof (IH (a :: r :: pre) false e post) as H. cbn [app] in H.
           rewrite H by (first [assumption | cbn [length] in *; lia]). reflexivity.
Qed.

(** ** The rules around the Ear rule *)

Lemma idle_cons ci r rules s :
  idle ((ci, r) :: rules) s = true ->
  exec ci r s = None /\ idle rules s = true.
Proof.
  unfold idle. cbn [forallb fst snd]. rewrite andb_true_iff, negb_true_iff.
  intros [H R]. split; [|exact R].
  unfold test in H. destruct (exec ci r s); [discriminate H|reflexivity].
Qed.

Lemma before_ear_idle s : idle rules_before_ear s = true -> before_ear s = s.
Proof.
  unfold rules_before_ear, before_ear, reg_rule, gc_rule. intros H.
  repeat (apply idle_cons in H; destruct H as [E H];
          rewrite (replace_all_none _ _ _ _ E); clear E).
  reflexivity.
Qed.

Lemma after_ear_idle s : idle rules_after_ear s = true -> after_ear s = trim s.
Proof.
  unfold rules_after_ear, after_ear, born_rule. intros H.
  repeat (apply idle_cons in H; destruct H as [E H];
          rewrite (replace_all_none _ _ _ _ E); clear E).
  reflexivity.
Qed.

Lemma preClean_steps s : preClean s = after_ear (ear_rule (before_ear s)).
Proof. reflexivity. Qed.

Lemma reg_match p t :
  is_word_opt p = false ->
  match_at true Clean.rx_reg p (js "Reg" ++ t) <> None.
Proof.
  intros P. unfold match_at, Clean.rx_reg. cbn [cat fold_right].
  rewrite rmatch_seq, rmatch_wordb. cbn [prev rest]. rewrite P.
  change (js "Reg" ++ t) with (82 :: 101 :: 103 :: t)%N.
  cbn [hd_error is_word_opt].
  change (is_word 82%N) with true. cbn [xorb flat_map]. rewrite app_nil_r.
  rewrite rmatch_seq, lit_lits, rmatch_lits.
  change (strip true (js "Re") (82 :: 101 :: 103 :: t)%N) with (Some (103%N :: t)).
  cbn [flat_map]. rewrite app_nil_r, rmatch_seq, rmatch_chr.
  change (class_mem true [ch "g"; ch "q"] 103%N) with true.
  cbn [flat_map]. rewrite app_nil_r, rmatch_seq.
  match goal with
  | |- context [rmatch true (star (Chr ?cs)) (MState ?q ?u ?k)] =>
      destruct (rmatch_star_class true cs u q k) as [tl E]; rewrite E
  end.
  cbn [flat_map]. discriminate.
Qed.

Lemma gc_match p t :
  is_word_opt p = false ->
  match_at false Clean.rx_gc p (js "GC" ++ t) <> None.
Proof.
  intros P. unfold match_at, Clean.rx_gc. cbn [cat fold_right].
  rewrite rmatch_seq, rmatch_wordb. cbn [prev rest]. rewrite P.
  change (js "GC" ++ t) with (71 :: 67 :: t)%N.
  cbn [hd_error is_word_opt].
  change (is_word 71%N) with true. cbn [xorb flat_map]. rewrite app_nil_r.
  rewrite rmatch_seq, rmatch_chr.
  change (class_mem false [ch "G"; ch "g"] 71%N) with true.
  cbn [flat_map]. rewrite app_nil_r, rmatch_seq, rmatch_chr.
  change (class_mem false [ch "C"; ch "c"] 67%N) with true.
  cbn [flat_map]. rewrite app_nil_r, rmatch_seq.
  match goal with
  | |- context [rmatch false (star (Chr ?cs)) (MState ?q ?u ?k)] =>
      destruct (rmatch_star_class false cs u q k) as [tl E]; rewrite E
  end.
  cbn [flat_map]. discriminate.
Qed.


Lemma class_mem_app ci x y c :
  class_mem ci (x ++ y) c = class_mem ci x c || class_mem ci y c.
Proof. unfold class_mem. apply existsb_app. Qed.

Lemma born_delims_spec c :
  class_mem true born_delims c = is_space c || (c =? COLON)%N.
Proof.
  change born_delims with ([Space] ++ [One COLON]).
  rewrite class_mem_app, class_space_ci, class_colon_ci. reflexivity.
Qed.

Lemma born_date_spec c :
  class_mem true born_date c = true ->
  ((45 <= c <= 57) \/ c = 73 \/ c = 76 \/ c = 79
   \/ c = 105 \/ c = 108 \/ c = 111)%N.
Proof.
  unfold born_date, class_mem, existsb.
  change (rng "0" "9") with (Range 48 57).
  change (ch "O") with (One 79%N). change (ch "I") with (One 73%N).
  change (ch "l") with (One 108%N). change (ch "-") with (One 45%N).
  change (ch "/") with (One 47%N). change (ch ".") with (One 46%N).
  cbn [item_mem andb].
  rewrite !orb_true_iff, !andb_true_iff, !N.leb_le, !N.eqb_eq.
  unfold swap_case.
  destruct (case_shape c) as [[L [U R]]|[[L [U R]]|[L [U R]]]];
    rewrite L; try rewrite U; lia.
Qed.

Lemma date_not_delim c :
  class_mem true born_delims c = true -> class_mem true born_date c = false.
Proof.
  rewrite born_delims_spec, orb_true_iff, is_space_spec, N.eqb_eq.
  unfold COLON. intros H.
  destruct (class_mem true born_date c) eqn:D; [|reflexivity].
  apply born_date_spec in D. lia.
Qed.

(** Every way the greedy star of a class matches stops behind a run of
    characters of the class. *)
Lemma star_class_all ci cs s : forall p k st,
  In st (rmatch ci (star (Chr cs)) (MState p s k)) ->
  exists u, s = u ++ rest st /\ forallb (class_mem ci cs) u = true.
Proof.
  unfold star. induction s as [|c t IH]; intros p k st; rewrite rmatch_rep.
  - cbn. intros [<-|[]]. exists []. split; reflexivity.
  - cbn zeta. rewrite rmatch_chr.
    destruct (class_mem ci cs c) eqn:C.
    + rewrite flat_map_single. cbn [rest Nat.eqb andb length Nat.pred option_map].
      replace (Nat.eqb (length t) (S (length t))) with false
        by (symmetry; apply Nat.eqb_neq; lia).
      cbn [Nat.ltb Nat.leb]. intros H. apply in_app_or in H.
      destruct H as [H|[<-|[]]].
      * destruct (IH _ _ _ H) as [u [E F]]. exists (c :: u).
        cbn [app forallb]. rewrite C, F, <- E. split; reflexivity.
      * exists []. split; reflexivity.
    + cbn. intros [<-|[]]. exists []. split; reflexivity.
Qed.

Lemma plus_class_none ci cs st :
  match rest st with c :: _ => class_mem ci cs c = false | [] => True end ->
  rmatch ci (plus (Chr cs)) st = [].
Proof.
  intros H. unfold plus. rewrite rmatch_rep. cbn zeta. cbn [Nat.ltb Nat.leb].
  destruct st as [p s k]. cbn [rest] in H.
  destruct s as [|c t]; [reflexivity|]. rewrite rmatch_chr, H. reflexivity.
Qed.

Lemma flat_map_nil {A B} (f : A -> list B) l :
  (forall x, In x l -> f x = []) -> flat_map f l = [].
Proof.
  induction l as [|a l IH]; intros H; [reflexivity|].
  cbn [flat_map]. rewrite (H a (or_introl eq_refl)), IH; [reflexivity|].
  intros x Hx. apply H. right. exact Hx.
Qed.

Lemma dateless_suffix u : forall v,
  dateless (u ++ v) = true -> forallb (class_mem true born_delims) u = true ->
  match v with c :: _ => class_mem true born_date c = false | [] => True end.
Proof.
  induction u as [|a u IH]; intros v D F.
  - destruct v as [|c v]; [exact I|]. cbn [app] in D. unfold dateless in D.
    cbn [drop_class] in D.
    destruct (class_mem true born_delims c) eqn:C.
    + apply date_not_delim. exact C.
    + apply negb_true_iff. exact D.
  - cbn [forallb] in F. apply andb_true_iff in F. destruct F as [Fa F].
    apply IH; [|exact F]. unfold dateless in *. cbn [app drop_class] in D.
    rewrite Fa in D. exact D.
Qed.

(** The Born pattern needs a date character behind its white space and
    colons. *)
Lemma born_needs_date p t :
  dateless t = true -> match_at true Clean.rx_born p (js "Born" ++ t) = None.
Proof.
  intros D. unfold match_at, Clean.rx_born. cbn [cat fold_right].
  rewrite rmatch_seq, rmatch_wordb.
  destruct (xorb _ _); [|reflexivity].
  cbn [flat_map]. rewrite app_nil_r, rmatch_seq, lit_lits, rmatch_lits.
  change (strip true (js "Born") (js "Born" ++ t)) with (Some t).
  cbn [flat_map]. rewrite app_nil_r, rmatch_seq.
  change (Chr [Space; ch ":"]) with (Chr born_delims).
  rewrite flat_map_nil; [reflexivity|].
  intros st Hst. apply star_class_all in Hst. destruct Hst as [u [E F]].
  rewrite rmatch_seq, rmatch_grp.
  change (Chr [rng "0" "9"; ch "O"; ch "I"; ch "l"; ch "-"; ch "/"; ch "."])
    with (Chr born_date).
  rewrite plus_class_none; [reflexivity|].
  rewrite E in D. exact (dateless_suffix u (rest st) D F).
Qed.

(** It needs neither white space nor a colon in front of the date. *)
Lemma born_match p d t :
  is_word_opt p = false -> class_mem true born_date d = true ->
  match_at true Clean.rx_born p (js "Born" ++ d :: t) <> None.
Proof.
  intros P D. unfold match_at, Clean.rx_born. cbn [cat fold_right].
  rewrite rmatch_seq, rmatch_wordb. cbn [prev rest]. rewrite P.
  change (js "Born" ++ d :: t) with (66 :: 111 :: 114 :: 110 :: d :: t)%N.
  cbn [hd_error is_word_opt].
  change (is_word 66%N) with true. cbn [xorb flat_map]. rewrite app_nil_r.
  rewrite rmatch_seq, lit_lits, rmatch_lits.
  change (strip true (js "Born") (66 :: 111 :: 114 :: 110 :: d :: t)%N)
    with (Some (d :: t)).
  cbn [flat_map]. rewrite app_nil_r, rmatch_seq.
  change (Chr [Space; ch ":"]) with (Chr born_delims).
  rewrite rmatch_star_stop.
  2:{ destruct (class_mem true born_delims d) eqn:C; [|reflexivity].
      apply date_not_delim in C. congruence. }
  cbn [flat_map]. rewrite app_nil_r, rmatch_seq, rmatch_grp.
  change (Chr [rng "0" "9"; ch "O"; ch "I"; ch "l"; ch "-"; ch "/"; ch "."])
    with (Chr born_date).
  unfold plus. rewrite rmatch_rep. cbn zeta. cbn [Nat.ltb Nat.leb].
  rewrite rmatch_chr, D, flat_map_single.
  cbn [Nat.eqb andb Nat.pred option_map].
  match goal with
  | |- context [rmatch true (Rep true 0 None (Chr ?cs)) (MState ?q ?u ?k)] =>
      destruct (rmatch_star_class true cs u q k) as [tl E];
      unfold star in E; rewrite E
  end.
  cbn [map flat_map]. discriminate.
Qed.

(** ** The segmenter *)

Lemma spells_role w k :
  spells w k = true -> toUpperCase k = toUpperCase (js w).
Proof. apply spells_upper. Qed.

Lemma role_of_chunk k a :
  is_keyword k = true -> role (tag_chunk (trim (chunk_of k a))) = toUpperCase k.
Proof.
  intros K. rewrite trim_chunk by exact K. apply tag_keyword_chunk. exact K.
Qed.

Lemma non_empty_chunk k a :
  is_keyword k = true -> non_empty (trim (chunk_of k a)) = true.
Proof.
  intros K. rewrite trim_chunk by exact K.
  destruct (keyword_head_letter _ K) as [c [t [-> _]]]. reflexivity.
Qed.

Lemma sort_three b1 b2 b3 :
  map role (sort_by_rank
    [Section_ (js "NAME") b1; Section_ (js "SIRE") b2; Section_ (js "DAM") b3])
  = [js "NAME"; js "SIRE"; js "DAM"].
Proof. reflexivity. Qed.

Lemma sort_four b0 b1 b2 b3 :
  map role (sort_by_rank
    [Section_ (js "UNKNOWN") b0; Section_ (js "NAME") b1;
     Section_ (js "SIRE") b2; Section_ (js "DAM") b3])
  = [js "NAME"; js "SIRE"; js "DAM"; js "UNKNOWN"].
Proof. reflexivity. Qed.

Lemma section_eta x : x = Section_ (role x) (block x).
Proof. destruct x; reflexivity. Qed.

Lemma marker_free_split s :
  marker_free s = true -> exec false rx_split s = None.
Proof.
  unfold marker_free, test, exec. intros H.
  destruct (search false (lits (LF :: js "===")) [] None s) eqn:E; [discriminate H|].
  apply search_none_intro. intros x y Exy. subst s.
  apply search_none_at in E. unfold match_at in *. apply hd_error_nil in E.
  rewrite rmatch_lits in E.
  unfold rx_split. cbn [cat fold_right]. rewrite rmatch_seq.
  destruct y as [|c t]; [reflexivity|]. rewrite rmatch_chr.
  cbn [strip] in E. destruct (class_mem false [One LF] c); [|reflexivity].
  rewrite flat_map_single, rmatch_seq, lit_lits, rmatch_lits.
  destruct (strip false (js "===") t); [discriminate E|reflexivity].
Qed.

Lemma wordless_mark s : wordless s = true -> mark s = s.
Proof.
  intros F. apply replace_all_none. apply search_none_intro.
  intros x y E. destruct y as [|c y].
  - apply marker_at_end.
  - rewrite <- (app_nil_r (c :: y)).
    apply (marker_quiet s x (c :: y) [] _ F); auto. discriminate.
Qed.

(** ** The anchored fall-back pattern *)

Lemma exec_inferred_padded x : exec true rx_inferred (SP :: x) = None.
Proof.
  unfold exec. rewrite search_eq.
  replace (match_at true rx_inferred None (SP :: x)) with (@None mstate)
    by (vm_compute; reflexivity).
  apply search_bol_inside.
Qed.

Lemma inferredName_empty sec : inferredName sec = [].
Proof.
  unfold inferredName, grab, padded.
  rewrite exec_inferred_padded. destruct (_ && _); reflexivity.
Qed.

(** ** The driver *)

Lemma run_up_to_recognize E url :
  createWorker E = Ok tt -> loadLanguage E (js "eng") = Ok tt ->
  initialize E (js "eng") = Ok tt ->
  run E url =
  bind (call (Recognize url) (recognize E url))
       (fun text =>
          bind (call Terminate (terminate E))
               (fun _ =>
                  let rabbits := map parseSection (segmentRabbits (preClean text)) in
                  bind (lift (renderTSV rabbits))
                       (fun tsv =>
                          bind (call (SetInnerHTML OutputEl (renderReadable rabbits)) (Ok tt))
                               (fun _ =>
                                  bind (call (SetTextContent TsvEl tsv) (Ok tt))
                                       (fun _ =>
                                          call (SetTextContent ProgressEl done_message)
                                               (Ok tt))))))
       [CreateWorker; SetLogger; LoadLanguage (js "eng"); Initialize (js "eng")].
Proof.
  intros H1 H2 H3. unfold run, runOCR, bind at 1 2 3 4, call at 1 2 3 4.
  rewrite H1, H2, H3. reflexivity.
Qed.

Lemma bind_trace_prefix {A B} (x : io A) (f : A -> io B) tr pre :
  (forall a tr0, exists more, fst (f a tr0) = tr0 ++ more) ->
  (exists more, fst (x tr) = pre ++ more) ->
  exists more, fst (bind x f tr) = pre ++ more.
Proof.
  intros Hf [m Hx]. unfold bind. destruct (x tr) as [tr' [a|e]]; simpl in *.
  - destruct (Hf a tr') as [m' E]. exists (m ++ m'). rewrite E, Hx, app_assoc.
    reflexivity.
  - exists m. exact Hx.
Qed.

Lemma call_extends {A} ev (o : result A) tr : exists more, fst (call ev o tr) = tr ++ more.
Proof. exists [ev]. reflexivity. Qed.

Lemma lift_extends {A} (o : result A) tr : exists more, fst (lift o tr) = tr ++ more.
Proof. exists []. simpl. rewrite app_nil_r. reflexivity. Qed.

Lemma bind_extends {A B} (x : io A) (f : A -> io B) :
  (forall tr, exists more, fst (x tr) = tr ++ more) ->
  (forall a tr, exists more, fst (f a tr) = tr ++ more) ->
  forall tr, exists more, fst (bind x f tr) = tr ++ more.
Proof.
  intros Hx Hf tr. apply bind_trace_prefix; auto.
Qed.

(** ** Dates *)

(** Every way a bounded quantifier over a class matches: it reads between
    [lo] and [hi] characters of the class and keeps the captures. *)
Lemma in_rep_class ci g cs hi : forall lo st st',
  lo <= hi ->
  In st' (rmatch ci (Rep g lo (Some hi) (Chr cs)) st) ->
  exists w, rest st = w ++ rest st'
            /\ forallb (class_mem ci cs) w = true
            /\ lo <= length w <= hi /\ caps st' = caps st.
Proof.
  induction hi as [|h IH]; intros lo st st' L H; rewrite rmatch_rep in H.
  - destruct H as [<-|[]]. exists []. repeat split; simpl; auto; lia.
  - cbn zeta in H.
    assert (Hiter :
      In st' (flat_map (fun st1 =>
        if Nat.eqb lo 0 && Nat.eqb (length (rest st1)) (length (rest st))
        then []
        else rmatch ci (Rep g (Nat.pred lo) (option_map Nat.pred (Some (S h)))
                          (Chr cs)) st1) (rmatch ci (Chr cs) st)) ->
      exists w, rest st = w ++ rest st'
                /\ forallb (class_mem ci cs) w = true
                /\ lo <= length w <= S h /\ caps st' = caps st).
    { intros Hin. apply in_flat_map in Hin. destruct Hin as [st1 [H1 H2]].
      destruct st as [p s k]. destruct s as [|c t]; [contradiction|].
      rewrite rmatch_chr in H1. destruct (class_mem ci cs c) eqn:C; [|contradiction].
      destruct H1 as [<-|[]]. destruct (_ && _); [contradiction|].
      cbn [option_map Nat.pred] in H2.
      apply IH in H2; [|lia]. destruct H2 as [w [E [F [B K]]]].
      exists (c :: w). cbn [rest caps] in *. repeat split.
      - rewrite E. reflexivity.
      - cbn [forallb]. rewrite C. exact F.
      - simpl. lia.
      - simpl. lia.
      - exact K. }
    assert (Hself : lo = 0 -> st' = st ->
      exists w, rest st = w ++ rest st'
                /\ forallb (class_mem ci cs) w = true
                /\ lo <= length w <= S h /\ caps st' = caps st).
    { intros -> ->. exists []. repeat split; simpl; auto; lia. }
    destruct (Nat.ltb 0 lo) eqn:Z.
    + apply Hiter. exact H.
    + apply Nat.ltb_ge in Z. assert (lo = 0) by lia.
      destruct g.
      * apply in_app_or in H. destruct H as [H|[H|[]]]; auto.
      * destruct H as [H|H]; auto.
Qed.

Lemma class_digit c : class_mem false [Digit] c = is_digit c.
Proof.
  unfold class_mem, existsb, item_mem. cbn [andb]. rewrite !orb_false_r.
  reflexivity.
Qed.

Lemma forallb_ext_eq {A} (f g : A -> bool) l :
  (forall x, f x = g x) -> forallb f l = forallb g l.
Proof. intros H. induction l; simpl; [reflexivity|]. rewrite H, IHl. reflexivity. Qed.

Lemma in_grp_digits n lo hi st st' :
  lo <= hi ->
  In st' (rmatch false (Grp n (Rep true lo (Some hi) (Chr [Digit]))) st) ->
  exists w, caps st' = (n, w) :: caps st /\ digits w = true
            /\ lo <= length w <= hi.
Proof.
  intros L H. rewrite rmatch_grp in H. apply in_map_iff in H.
  destruct H as [st1 [<- H]]. apply in_rep_class in H; [|exact L].
  destruct H as [w [E [F [B K]]]]. exists w. cbn [caps]. repeat split.
  - rewrite K. f_equal. f_equal. unfold consumed. rewrite E, length_app.
    replace (length w + length (rest st1) - length (rest st1)) with (length w) by lia.
    rewrite firstn_app, Nat.sub_diag, firstn_all. simpl. apply app_nil_r.
  - unfold digits. rewrite <- F. apply forallb_ext_eq. intros x.
    symmetry. apply class_digit.
  - lia.
  - lia.
Qed.

Lemma in_chr_caps ci cs st st' :
  In st' (rmatch ci (Chr cs) st) -> caps st' = caps st.
Proof.
  destruct st as [p s k]. destruct s as [|c t]; [contradiction|].
  rewrite rmatch_chr. destruct (class_mem ci cs c); [|contradiction].
  intros [<-|[]]. reflexivity.
Qed.

(** What the date pattern captures. *)
Lemma rx_date_caps p t st' :
  In st' (rmatch false rx_date (MState p t [])) ->
  exists mm dd yy,
    caps st' = [(3, yy); (2, dd); (1, mm)]
    /\ digits mm = true /\ 1 <= length mm <= 2
    /\ digits dd = true /\ 1 <= length dd <= 2
    /\ digits yy = true /\ 2 <= length yy <= 4.
Proof.
  unfold rx_date. cbn [cat fold_right]. intros H.
  in_seq H s0 H0.
  rewrite rmatch_bol in H0. cbn [prev] in H0.
  assert (K0 : caps s0 = []) by (destruct p; [contradiction|destruct H0 as [<-|[]]; reflexivity]).
  in_seq H s1 H1.
  apply in_grp_digits in H1; [|lia]. destruct H1 as [mm [K1 [D1 L1]]].
  in_seq H s2 H2.
  apply in_chr_caps in H2.
  in_seq H s3 H3.
  apply in_grp_digits in H3; [|lia]. destruct H3 as [dd [K3 [D3 L3]]].
  in_seq H s4 H4.
  apply in_chr_caps in H4.
  in_seq H s5 H5.
  apply in_grp_digits in H5; [|lia]. destruct H5 as [yy [K5 [D5 L5]]].
  in_seq H s6 H6.
  assert (E6 : s6 = s5) by (cbn [rmatch] in H6; destruct (rest s5); [destruct H6 as [<-|[]]; reflexivity|contradiction]).
  destruct H as [<-|[]].
  exists mm, dd, yy. rewrite E6, K5, H4, K3, H2, K1, K0. repeat split; auto; lia.
Qed.

Lemma digits_app x y : digits (x ++ y) = digits x && digits y.
Proof. unfold digits. apply forallb_app. Qed.

Lemma padStart2_shape w :
  digits w = true -> 1 <= length w <= 2 ->
  digits (padStart2 w) = true /\ length (padStart2 w) = 2.
Proof.
  intros D L. unfold padStart2.
  destruct w as [|a [|b [|c w]]]; simpl in L; try lia; simpl; auto.
Qed.

Lemma exec_rx_date t :
  exec false rx_date t =
  match match_at false rx_date None t with
  | Some st' =>
      Some (JsMatch [] (firstn (length t - length (rest st')) t)
                    (caps st') (rest st'))
  | None => None
  end.
Proof. unfold rx_date. cbn [cat fold_right]. apply exec_bol. Qed.

(** The normalizer returns the trimmed token or a date with two-digit
    month and day and a year of three or four digits. *)
Lemma normalizeDate_shape s :
  normalizeDate s = trim s \/ date_shape (normalizeDate s).
Proof.
  unfold normalizeDate. destruct s as [|c0 s0]; [left; reflexivity|].
  cbv zeta. rewrite exec_rx_date.
  match goal with
  | |- context [match_at false rx_date None ?t] =>
      destruct (match_at false rx_date None t) as [st'|] eqn:M
  end; [right|left; reflexivity].
  unfold match_at in M.
  match type of M with
  | hd_error ?l = Some _ =>
      assert (I : In st' l) by (destruct l; [discriminate M|inversion M; left; reflexivity])
  end.
  apply rx_date_caps in I.
  destruct I as [mm [dd [yy [K [D1 [L1 [D2 [L2 [D3 L3]]]]]]]]].
  cbn [m_caps]. rewrite K. unfold group. cbn [get_cap Nat.eqb].
  destruct (padStart2_shape mm D1 L1) as [P1 Q1].
  destruct (padStart2_shape dd D2 L2) as [P2 Q2].
  eexists (padStart2 mm), (padStart2 dd), _. split; [reflexivity|].
  repeat split; auto.
  - destruct (Nat.eqb (length yy) 2); [|exact D3].
    rewrite digits_app, D3. destruct (70 <=? to_number yy)%N; reflexivity.
  - destruct (Nat.eqb_spec (length yy) 2) as [E|E].
    + right. rewrite length_app, E. destruct (70 <=? to_number yy)%N; reflexivity.
    + lia.
Qed.

(** ** Matcher states keep track of the input *)

Lemma reached_refl st : reached st st.
Proof. exists []. split; reflexivity. Qed.

Lemma reached_trans a b c : reached a b -> reached b c -> reached a c.
Proof.
  intros [w1 [E1 P1]] [w2 [E2 P2]]. exists (w1 ++ w2). split.
  - rewrite E1, E2, app_assoc. reflexivity.
  - rewrite last_opt_app, <- P1. exact P2.
Qed.

Lemma rep_loop_reached f g :
  (forall st st', In st' (f st) -> reached st st') ->
  forall fuel mn mx st st',
    In st' (rep_loop f g fuel mn mx st) -> reached st st'.
Proof.
  intros Hf fuel. induction fuel as [|fuel IH]; intros mn mx st st' H; simpl in H.
  - contradiction.
  - assert (Hiter : forall l,
      In st' (flat_map (fun st1 =>
        if Nat.eqb mn 0 && Nat.eqb (length (rest st1)) (length (rest st))
        then [] else rep_loop f g fuel (Nat.pred mn) (option_map Nat.pred mx) st1) l) ->
      (forall x, In x l -> reached st x) -> reached st st').
    { intros l Hin Hl. apply in_flat_map in Hin. destruct Hin as [x [Hx Hin]].
      destruct (_ && _); [contradiction|].
      apply IH in Hin. eapply reached_trans; eauto. }
    assert (Hself : st' = st -> reached st st')
      by (intros ->; apply reached_refl).
    destruct mx as [[|k]|].
    + destruct H as [H|[]]. auto.
    + destruct (Nat.ltb 0 mn); [|destruct g].
      * eapply Hiter; eauto.
      * apply in_app_or in H. destruct H as [H|[H|[]]]; eauto.
      * destruct H as [H|H]; eauto.
    + destruct (Nat.ltb 0 mn); [|destruct g].
      * eapply Hiter; eauto.
      * apply in_app_or in H. destruct H as [H|[H|[]]]; eauto.
      * destruct H as [H|H]; eauto.
Qed.

Lemma rmatch_reached ci r : forall st st',
  In st' (rmatch ci r st) -> reached st st'.
Proof.
  induction r; intros st st' H; simpl in H.
  - destruct H as [<-|[]]. apply reached_refl.
  - destruct st as [p s k]. cbn [rest] in H. destruct s as [|c t]; [contradiction|].
    destruct (class_mem ci cs c); [|contradiction].
    destruct H as [<-|[]]. exists [c]. split; reflexivity.
  - apply in_flat_map in H. destruct H as [x [H1 H2]].
    eapply reached_trans; eauto.
  - apply in_app_or in H. destruct H; eauto.
  - eapply rep_loop_reached; eauto.
  - apply in_map_iff in H. destruct H as [x [<- H]].
    destruct (IHr _ _ H) as [w [E P]]. exists w. split; assumption.
  - destruct (rmatch ci r st); [contradiction|].
    destruct H as [<-|[]]. exists []. split; reflexivity.
  - destruct (prev st); [contradiction|]. destruct H as [<-|[]]. apply reached_refl.
  - destruct (rest st) eqn:E; [|contradiction]. destruct H as [<-|[]].
    apply reached_refl.
  - destruct (xorb _ _); [|contradiction]. destruct H as [<-|[]]. apply reached_refl.
Qed.

(** Where a search succeeds. *)
Lemma search_some ci r s : forall pre p m,
  search ci r pre p s = Some m ->
  exists x y st',
    s = x ++ y /\ match_at ci r (last_opt p x) y = Some st'
    /\ m_post m = rest st' /\ m_caps m = caps st'.
Proof.
  induction s as [|c t IH]; intros pre p m H; rewrite search_eq in H.
  - destruct (match_at ci r p []) as [st'|] eqn:M; [|discriminate H].
    inversion H; subst. exists [], [], st'. auto.
  - destruct (match_at ci r p (c :: t)) as [st'|] eqn:M.
    + inversion H; subst. exists [], (c :: t), st'. auto.
    + apply IH in H. destruct H as [x [y [st' [E [M' [P C]]]]]].
      exists (c :: x), y, st'. simpl. rewrite E. auto.
Qed.

Lemma hd_error_in {A} (l : list A) x : hd_error l = Some x -> In x l.
Proof. destruct l; simpl; intros H; [discriminate|inversion H; auto]. Qed.

Lemma suffix_last {A} (s x y : list A) (c : A) :
  s ++ [c] = x ++ y -> y <> [] -> exists y0, y = y0 ++ [c].
Proof.
  intros H N. destruct (exists_last N) as [y0 [z Ez]]. subst y.
  rewrite app_assoc in H. apply app_inj_tail in H. destruct H as [_ <-].
  exists y0. reflexivity.
Qed.

(** ** The variety lookahead *)

Lemma stops_at_label st :
  rmatch true (alt [lit "Weight"; lit "Legs"; lit "Ear"; lit "Reg"; lit "GC";
                  lit "Born"; lit "Sire"; lit "Dam"; Eol]) st <> [] ->
  at_label (rest st) = true \/ rest st = [].
Proof.
  intros H. destruct st as [p s k]. cbn [rest].
  unfold at_label, variety_stops. cbn [existsb].
  cbn [alt rmatch] in H. fold (rmatch true) in H.
  repeat rewrite lit_lits in H. repeat rewrite rmatch_lits in H.
  destruct (strip true (js "Weight") s); [left; reflexivity|].
  destruct (strip true (js "Legs") s); [left; reflexivity|].
  destruct (strip true (js "Ear") s); [left; reflexivity|].
  destruct (strip true (js "Reg") s); [left; reflexivity|].
  destruct (strip true (js "GC") s); [left; reflexivity|].
  destruct (strip true (js "Born") s); [left; reflexivity|].
  destruct (strip true (js "Sire") s); [left; reflexivity|].
  destruct (strip true (js "Dam") s); [left; reflexivity|].
  right. cbn [app rest] in H. destruct s; [reflexivity|congruence].
Qed.

Lemma last_opt_snoc w c p : last_opt p (w ++ [c]) = Some c.
Proof. rewrite last_opt_app. reflexivity. Qed.

(** The variety pattern only ever matches in front of a label: behind the
    padding space that ends the block, [\b] fails at the end of the input. *)
Lemma variety_before_label b m :
  exec true Parse.rx_variety (padded b) = Some m ->
  at_label (m_post m) = true.
Proof.
  unfold exec. intros H. apply search_some in H.
  destruct H as [x [y [st' [E [M [P _]]]]]]. rewrite P. clear P m.
  unfold match_at in M. apply hd_error_in in M.
  unfold Parse.rx_variety in M. cbn [cat fold_right] in M.
  in_seq M s1 H1.
  in_seq M s2 H2.
  in_seq M s3 H3.
  in_seq M s4 H4.
  in_seq M s5 H5.
  destruct M as [<-|[]].
  pose proof (rmatch_reached _ _ _ _ H1) as R1.
  pose proof (rmatch_reached _ _ _ _ H2) as R2.
  pose proof (rmatch_reached _ _ _ _ H3) as R3.
  pose proof (reached_trans _ _ _ (reached_trans _ _ _ R1 R2) R3) as R.
  rewrite rmatch_wordb in H4.
  destruct (xorb (is_word_opt (prev s3)) (is_word_opt (hd_error (rest s3)))) eqn:W;
    [|contradiction].
  destruct H4 as [<-|[]].
  cbn [rmatch] in H5. fold (rmatch true) in H5.
  match type of H5 with
  | In _ (match rmatch true ?a s3 with _ => _ end) =>
      destruct (rmatch true a s3) as [|l0 ls] eqn:L; [contradiction|];
      assert (NL : rmatch true a s3 <> []) by congruence
  end.
  destruct H5 as [<-|[]]. cbn [rest].
  destruct (stops_at_label s3 NL) as [A|Z]; [exact A|exfalso].
  destruct R as [w [Ew Pw]]. cbn [rest prev] in Ew, Pw.
  rewrite Z, app_nil_r in Ew. subst w.
  rewrite Z in W. cbn [hd_error is_word_opt] in W. rewrite xorb_false_r in W.
  rewrite Pw in W.
  (* the block ends with the padding space *)
  unfold padded in E.
  assert (Ey : exists y0, y = y0 ++ [SP]).
  { apply (suffix_last (SP :: replace_all false (Chr [One LF]) [RLit [SP]] b) x).
    - exact E.
    - intros ->. rewrite lit_lits, rmatch_lits in H1. simpl in H1. contradiction. }
  destruct Ey as [y0 ->]. rewrite last_opt_snoc in W. discriminate W.
Qed.

(** * The rank sort

    The sort orders the blocks by rank, keeps them all, and is stable: the
    blocks of one rank come out in the order they had in the text. *)

Lemma insert_by_rank_perm x l : Permutation (insert_by_rank x l) (x :: l).
Proof.
  induction l as [|y t IH]; cbn [insert_by_rank]; [reflexivity|].
  destruct (Nat.leb _ _); [reflexivity|].
  rewrite IH. apply perm_swap.
Qed.

Lemma sort_by_rank_perm l : Permutation (sort_by_rank l) l.
Proof.
  induction l as [|x t IH]; cbn [sort_by_rank fold_right]; [reflexivity|].
  fold (sort_by_rank t). rewrite insert_by_rank_perm. now constructor.
Qed.

Lemma insert_by_rank_sorted x l :
  StronglySorted rank_le l -> StronglySorted rank_le (insert_by_rank x l).
Proof.
  induction 1 as [|y t St IH Hy]; cbn [insert_by_rank].
  - repeat constructor.
  - destruct (Nat.leb _ _) eqn:E.
    + apply Nat.leb_le in E. constructor; [now constructor|].
      constructor; [exact E|].
      eapply Forall_impl; [|exact Hy]. unfold rank_le. intros z Hz. lia.
    + apply Nat.leb_gt in E. constructor; [exact IH|].
      eapply Permutation_Forall; [symmetry; apply insert_by_rank_perm|].
      constructor; [unfold rank_le; lia|exact Hy].
Qed.

Lemma sort_by_rank_sorted l : StronglySorted rank_le (sort_by_rank l).
Proof.
  induction l as [|x t IH]; cbn [sort_by_rank fold_right]; [constructor|].
  now apply insert_by_rank_sorted.
Qed.

(** Stability: the blocks of any one rank stand in the sorted list as they
    stood before the sort. *)
Lemma insert_by_rank_stable r x l :
  filter (fun s => Nat.eqb (roleRank (role s)) r) (insert_by_rank x l) =
  filter (fun s => Nat.eqb (roleRank (role s)) r) (x :: l).
Proof.
  induction l as [|y t IH]; cbn [insert_by_rank]; [reflexivity|].
  destruct (Nat.leb _ _) eqn:E; [reflexivity|].
  apply Nat.leb_gt in E.
  cbn [filter] in *. rewrite IH.
  destruct (Nat.eqb (roleRank (role x)) r) eqn:Ex;
    destruct (Nat.eqb (roleRank (role y)) r) eqn:Ey; try reflexivity.
  apply Nat.eqb_eq in Ex. apply Nat.eqb_eq in Ey. lia.
Qed.

Lemma sort_by_rank_stable r l :
  filter (fun s => Nat.eqb (roleRank (role s)) r) (sort_by_rank l) =
  filter (fun s => Nat.eqb (roleRank (role s)) r) l.
Proof.
  induction l as [|x t IH]; cbn [sort_by_rank fold_right]; [reflexivity|].
  fold (sort_by_rank t). rewrite insert_by_rank_stable.
  cbn [filter]. now rewrite IH.
Qed.

(** Two blocks of the same role keep the order of the text. *)
Example sort_keeps_text_order :
  map block (segmentRabbits (js "Name: A Name: B")) = [js "A"; js "B"].
Proof. reflexivity. Qed.

(** * Replacements read character by character *)

Section Charwise.

Variable ci : bool.

Lemma match_at_chr cs p c t :
  match_at ci (Chr cs) p (c :: t)
  = if class_mem ci cs c then Some (MState (Some c) t []) else None.
Proof.
  unfold match_at. cbn [rmatch rest caps].
  destruct (class_mem ci cs c); reflexivity.
Qed.

Lemma replace_go_class cs t s : forall p,
  replace_go ci (Chr cs) [RLit t] 0 p s
  = flat_map (fun c => if class_mem ci cs c then t else [c]) s.
Proof.
  induction s as [|c s' IH]; intros p; rewrite replace_go_eq.
  - reflexivity.
  - rewrite match_at_chr. cbn [flat_map].
    destruct (class_mem ci cs c).
    + cbn [rest caps expand flat_map]. rewrite app_nil_r.
      replace (length (c :: s') - length s') with 1 by (cbn [length]; lia).
      now rewrite IH.
    + cbn [app]. now rewrite IH.
Qed.

Lemma replace_class cs t s :
  replace_all ci (Chr cs) [RLit t] s
  = flat_map (fun c => if class_mem ci cs c then t else [c]) s.
Proof. apply replace_go_class. Qed.

(** ** Characters a replacement cannot introduce *)

Variable Q : char -> bool.

Lemma forallb_firstn n : forall (l : jstring),
  forallb Q l = true -> forallb Q (firstn n l) = true.
Proof.
  induction n as [|n IH]; intros [|c l] H; cbn in *; auto.
  apply andb_true_iff in H as [-> H]. now rewrite IH.
Qed.

Lemma rep_loop_kept f g :
  (forall st st', kept Q st -> In st' (f st) -> kept Q st') ->
  forall fuel mn mx st st',
    kept Q st -> In st' (rep_loop f g fuel mn mx st) -> kept Q st'.
Proof.
  intros Hf. induction fuel as [|fuel IH]; intros mn mx st st' K H;
    cbn [rep_loop] in H; [contradiction|].
  assert (Hiter : forall mx',
    In st' (flat_map (fun s1 =>
      if Nat.eqb mn 0 && Nat.eqb (length (rest s1)) (length (rest st))
      then []
      else rep_loop f g fuel (Nat.pred mn) mx' s1) (f st)) -> kept Q st').
  { intros mx' Hin. apply in_flat_map in Hin as [s1 [H1 H2]].
    destruct (Nat.eqb mn 0 && _); [contradiction|].
    eapply IH; [|exact H2]. eapply Hf; eauto. }
  assert (Hall : forall mx',
    In st' (if Nat.ltb 0 mn
            then flat_map (fun s1 =>
              if Nat.eqb mn 0 && Nat.eqb (length (rest s1)) (length (rest st))
              then []
              else rep_loop f g fuel (Nat.pred mn) mx' s1) (f st)
            else if g
            then flat_map (fun s1 =>
              if Nat.eqb mn 0 && Nat.eqb (length (rest s1)) (length (rest st))
              then []
              else rep_loop f g fuel (Nat.pred mn) mx' s1) (f st) ++ [st]
            else st :: flat_map (fun s1 =>
              if Nat.eqb mn 0 && Nat.eqb (length (rest s1)) (length (rest st))
              then []
              else rep_loop f g fuel (Nat.pred mn) mx' s1) (f st)) ->
    kept Q st').
  { intros mx' Hin. destruct (Nat.ltb 0 mn); [eauto|]. destruct g.
    - apply in_app_iff in Hin as [Hin|[<-|[]]]; eauto.
    - destruct Hin as [<-|Hin]; eauto. }
  destruct mx as [[|m]|].
  - destruct H as [<-|[]]. exact K.
  - eapply Hall. exact H.
  - eapply Hall. exact H.
Qed.

Lemma rmatch_kept r : forall st st',
  kept Q st -> In st' (rmatch ci r st) -> kept Q st'.
Proof.
  induction r as [|cs|a IHa b IHb|a IHa b IHb|g mn mx a IHa|n a IHa|a IHa| | |];
    intros st st' K H; cbn [rmatch] in H.
  - destruct H as [<-|[]]. exact K.
  - destruct K as [K1 K2]. destruct (rest st) as [|c t] eqn:E; [contradiction|].
    destruct (class_mem ci cs c); [|contradiction].
    destruct H as [<-|[]]. split; cbn [rest caps]; [|exact K2].
    cbn in K1. now apply andb_true_iff in K1 as [_ K1].
  - apply in_flat_map in H as [s1 [H1 H2]]. eauto.
  - apply in_app_iff in H as [H|H]; eauto.
  - eapply rep_loop_kept; [exact IHa|exact K|exact H].
  - apply in_map_iff in H as [s1 [<- H1]].
    destruct (IHa _ _ K H1) as [K1 K2]. split; cbn [rest caps]; [exact K1|].
    constructor; [|exact K2]. cbn [snd]. unfold consumed.
    apply forallb_firstn. apply K.
  - destruct (rmatch ci a st) as [|s1 l] eqn:E; [contradiction|].
    destruct H as [<-|[]]. split; cbn [rest caps]; [apply K|].
    apply (IHa st s1 K). rewrite E. now left.
  - destruct (prev st); [contradiction|]. destruct H as [<-|[]]. exact K.
  - destruct (rest st); [|contradiction]. destruct H as [<-|[]]. exact K.
  - destruct (xorb _ _); [|contradiction]. destruct H as [<-|[]]. exact K.
Qed.

Lemma get_cap_kept n : forall cs v,
  Forall (fun nv => forallb Q (snd nv) = true) cs ->
  get_cap n cs = Some v -> forallb Q v = true.
Proof.
  induction cs as [|[k w] cs IH]; intros v F H; cbn in H; [discriminate|].
  inversion F; subst. destruct (Nat.eqb k n).
  - now injection H as <-.
  - eauto.
Qed.

Lemma forallb_app_true (x y : jstring) :
  forallb Q x = true -> forallb Q y = true -> forallb Q (x ++ y) = true.
Proof. intros. rewrite forallb_app. now rewrite H, H0. Qed.

Lemma expand_kept tpl cs :
  tpl_in Q tpl = true ->
  Forall (fun nv => forallb Q (snd nv) = true) cs ->
  forallb Q (expand tpl cs) = true.
Proof.
  intros T F. unfold expand. induction tpl as [|it tpl IH]; [reflexivity|].
  cbn [flat_map]. cbn [tpl_in forallb] in T.
  apply andb_true_iff in T as [T1 T2]. apply forallb_app_true; [|now apply IH].
  destruct it as [l|n]; [exact T1|].
  destruct (get_cap n cs) eqn:E; [|reflexivity].
  eapply get_cap_kept; eauto.
Qed.

Lemma replace_go_kept r tpl s :
  tpl_in Q tpl = true -> forallb Q s = true ->
  forall skip p, forallb Q (replace_go ci r tpl skip p s) = true.
Proof.
  intros T. induction s as [|c t IH]; intros F skip p.
  - destruct skip; [|reflexivity]. rewrite replace_go_eq.
    destruct (match_at ci r p []) as [st'|] eqn:E; [|reflexivity].
    replace (match length (@nil N) - length (rest st') with
             | 0 | _ => @nil N end) with (@nil N)
      by (destruct (length (@nil N) - length (rest st')); reflexivity).
    rewrite app_nil_r.
    apply expand_kept; [exact T|].
    apply hd_error_in in E. eapply rmatch_kept in E; [apply E|].
    split; [reflexivity|constructor].
  - assert (Ft : forallb Q t = true /\ Q c = true).
    { cbn in F. apply andb_true_iff in F. tauto. }
    destruct Ft as [Ft Fc].
    destruct skip as [|k]; [|cbn [replace_go]; now apply IH].
    rewrite replace_go_eq.
    destruct (match_at ci r p (c :: t)) as [st'|] eqn:E.
    + apply forallb_app_true.
      * apply expand_kept; [exact T|].
        apply hd_error_in in E. eapply rmatch_kept in E; [apply E|].
        split; [exact F|constructor].
      * destruct (length (c :: t) - length (rest st')).
        -- cbn [forallb]. rewrite Fc. now apply IH.
        -- now apply IH.
    + cbn [forallb]. rewrite Fc. now apply IH.
Qed.

Lemma replace_all_kept r tpl s :
  tpl_in Q tpl = true -> forallb Q s = true ->
  forallb Q (replace_all ci r tpl s) = true.
Proof. intros. now apply replace_go_kept. Qed.

End Charwise.

(** * More on [trim] *)

Lemma drop_space_head s :
  drop_space s = [] \/ exists c t, drop_space s = c :: t /\ is_space c = false.
Proof.
  induction s as [|c t IH]; [now left|]. cbn [drop_space].
  destruct (is_space c) eqn:E; [exact IH|]. right. now exists c, t.
Qed.

Lemma trim_single c : is_space c = false -> trim [c] = [c].
Proof. intros H. unfold trim. cbn. rewrite H. cbn. now rewrite H. Qed.

Lemma trim_solid c u d :
  is_space c = false -> is_space d = false ->
  trim (c :: u ++ [d]) = c :: u ++ [d].
Proof.
  intros Hc Hd. change (c :: u ++ [d]) with ((c :: u) ++ [d]).
  rewrite (trim_solid_head c u d [] Hc Hd). reflexivity.
Qed.

(** A trimmed text is empty, or starts and ends with a character that is
    not white space. *)
Lemma trim_ends s :
  trim s = []
  \/ (exists c, trim s = [c] /\ is_space c = false)
  \/ (exists c m d, trim s = c :: m ++ [d]
                    /\ is_space c = false /\ is_space d = false).
Proof.
  assert (Hs : trim s = rev (drop_space (rev (drop_space s)))) by reflexivity.
  rewrite Hs. clear Hs. set (y := drop_space s).
  destruct (drop_space_head (rev y)) as [E|[d [z' [E Hd]]]].
  - rewrite E. now left.
  - right. rewrite E. destruct (drop_space_suffix (rev y)) as [u [Hu _]].
    rewrite E in Hu. apply (f_equal (@rev N)) in Hu.
    rewrite rev_involutive, rev_app_distr in Hu. cbn [rev] in Hu.
    cbn [rev]. destruct (rev z') as [|c0 r0] eqn:Ez.
    + left. exists d. now split.
    + right. exists c0, r0, d. cbn [app] in *. repeat split; [|exact Hd].
      destruct (drop_space_head s) as [E0|[c [t [E0 Hc]]]]; fold y in E0;
        rewrite E0 in Hu; [discriminate|].
      now injection Hu as -> _.
Qed.

Lemma trim_idem s : trim (trim s) = trim s.
Proof.
  destruct (trim_ends s) as [E|[[c [E Hc]]|[c [m [d [E [Hc Hd]]]]]]]; rewrite E.
  - reflexivity.
  - now apply trim_single.
  - now apply trim_solid.
Qed.

Lemma rtrim_app_stop y d v :
  is_space d = false -> blank v = true -> rtrim (y ++ d :: v) = y ++ [d].
Proof.
  intros Hd Bv. unfold rtrim. rewrite rev_app_distr. cbn [rev].
  rewrite <- app_assoc. cbn [app].
  rewrite drop_space_app_stop by exact Hd.
  rewrite drop_space_blank by (now rewrite blank_rev). cbn [app rev].
  now rewrite rev_involutive.
Qed.

Lemma rtrim_blank v : blank v = true -> rtrim v = [].
Proof.
  intros B. unfold rtrim. rewrite drop_space_blank; [reflexivity|].
  now rewrite blank_rev.
Qed.

(** Trimming on the right and then on the left is [trim]. *)
Lemma drop_space_rtrim x : drop_space (rtrim x) = trim x.
Proof.
  destruct (trim_split x) as [u [v [E [Bu Bv]]]].
  destruct (trim_ends x) as [T|[[c [T Hc]]|[c [m [d [T [Hc Hd]]]]]]];
    rewrite T in *; rewrite E at 1.
  - cbn [app]. rewrite rtrim_blank; [reflexivity|].
    rewrite blank_app. now rewrite Bu, Bv.
  - cbn [app]. rewrite rtrim_app_stop by assumption.
    rewrite drop_space_app_stop by exact Hc.
    now rewrite (drop_space_blank u Bu).
  - replace (u ++ (c :: m ++ [d]) ++ v) with ((u ++ c :: m) ++ d :: v)
      by (cbn [app]; rewrite <- !app_assoc; reflexivity).
    rewrite rtrim_app_stop by assumption. rewrite <- app_assoc. cbn [app].
    rewrite drop_space_app_stop by exact Hc.
    now rewrite (drop_space_blank u Bu).
Qed.

Lemma forallb_trim (Q : char -> bool) s :
  forallb Q s = true -> forallb Q (trim s) = true.
Proof.
  intros H. destruct (trim_split s) as [u [v [E _]]]. rewrite E in H.
  rewrite !forallb_app in H.
  apply andb_true_iff in H as [_ H]. now apply andb_true_iff in H as [H _].
Qed.

Lemma trim_nonspace s :
  forallb (fun c => negb (is_space c)) s = true -> trim s = s.
Proof.
  intros H. destruct s as [|c s]; [reflexivity|].
  cbn [forallb] in H. apply andb_true_iff in H as [Hc H].
  apply negb_true_iff in Hc.
  destruct (rev s) as [|d r] eqn:E.
  - apply (f_equal (@rev N)) in E. rewrite rev_involutive in E. subst s.
    now apply trim_single.
  - apply (f_equal (@rev N)) in E. rewrite rev_involutive in E. cbn [rev] in E.
    subst s. apply trim_solid; [exact Hc|].
    rewrite forallb_app in H. apply andb_true_iff in H as [_ H]. cbn in H.
    rewrite andb_true_r in H. now apply negb_true_iff in H.
Qed.

(** * The segmenter on any sequence of keywords *)

Lemma spaced_cons k a more :
  spaced ((k, a) :: more) = true ->
  is_keyword k = true /\ wordless a = true /\ tame a = true
  /\ (a = [] \/ starts_nonword a = true)
  /\ (more = [] \/ (ends_nonword a = true /\ more <> []))
  /\ spaced more = true.
Proof.
  cbn [spaced]. rewrite !andb_true_iff. intros [[K G] S].
  destruct more as [|m more'].
  - apply trail_inv in G as [W [T St]]. repeat split; auto.
  - apply gap_inv in G as [W [T [St En]]].
    repeat split; auto. right. split; [exact En|discriminate].
Qed.

Lemma text_of_cons k a more :
  text_of ((k, a) :: more) = k ++ a ++ text_of more.
Proof. unfold text_of. cbn [flat_map fst snd]. now rewrite <- app_assoc. Qed.

Lemma marked_of_cons k a more :
  marked_of ((k, a) :: more)
  = marker k ++ after_marker a ++ marked_of more.
Proof. unfold marked_of. cbn [flat_map fst snd]. now rewrite <- app_assoc. Qed.

Lemma starts_letter_text more :
  more <> [] -> spaced more = true -> starts_letter (text_of more) = true.
Proof.
  destruct more as [|[k a] more']; [congruence|]. intros _ S.
  apply spaced_cons in S as [K _]. rewrite text_of_cons.
  now apply starts_letter_keyword.
Qed.

Lemma mark_spaced segs : forall p,
  spaced segs = true -> is_word_opt p = false ->
  replace_go true rx_marker marker_tpl 0 p (text_of segs) = marked_of segs.
Proof.
  induction segs as [|[k a] more IH]; intros p S P.
  - cbn [text_of marked_of flat_map].
    rewrite replace_go_eq, marker_at_end. reflexivity.
  - apply spaced_cons in S as [K [W [T [St [En S']]]]].
    rewrite text_of_cons, marked_of_cons.
    rewrite (mark_step k a (text_of more)); auto.
    + do 2 f_equal. destruct En as [->|[En N]].
      * cbn [text_of marked_of flat_map].
        rewrite replace_go_eq, marker_at_end. reflexivity.
      * apply IH; [exact S'|]. now apply last_opt_gap.
    + destruct En as [->|[En N]].
      * cbn [text_of flat_map].
        destruct a; [left; auto|right; left; split; [discriminate|reflexivity]].
      * right; right. split; [exact En|]. now apply starts_letter_text.
Qed.

Lemma mark_lead_spaced pre segs :
  lead pre = true -> spaced segs = true ->
  mark (pre ++ text_of segs) = pre ++ marked_of segs.
Proof.
  intros L S. apply lead_inv in L as [Fp [_ Ep]].
  unfold mark, replace_all.
  destruct segs as [|[k a] more].
  - cbn [text_of marked_of flat_map]. rewrite !app_nil_r.
    apply (wordless_mark pre Fp).
  - rewrite replace_go_copy.
    + f_equal. apply mark_spaced; [exact S|]. now apply last_opt_lead.
    + intros x1 x2 E N. apply (marker_quiet pre x1 x2 _ _ Fp); auto.
      right. destruct Ep as [->|Ep].
      * destruct x1; simpl in E; [congruence|discriminate E].
      * rewrite E, ends_nonword_app in Ep; auto.
Qed.

Lemma marked_of_separator k a more :
  marked_of ((k, a) :: more)
  = separator ++ chunk_at (k, a) ++ marked_of more.
Proof. rewrite marked_of_cons. apply marker_chunk. Qed.

Lemma starts_letter_chunk ka z :
  is_keyword (fst ka) = true -> starts_letter (chunk_at ka ++ z) = true.
Proof.
  intros K. unfold chunk_at, chunk_of. rewrite <- app_assoc.
  now apply starts_letter_keyword.
Qed.

Lemma split_spaced segs : forall x p cur,
  spaced segs = true -> calm x = true ->
  split_go false rx_split 0 p cur (x ++ marked_of segs)
  = (rev cur ++ x) :: map chunk_at segs.
Proof.
  induction segs as [|[k a] more IH]; intros x p cur S C.
  - cbn [marked_of flat_map map]. rewrite app_nil_r. now apply split_last.
  - apply spaced_cons in S as [K [W [T [St [En S']]]]].
    rewrite marked_of_separator.
    destruct (split_step x (chunk_at (k, a) ++ marked_of more) p cur C)
      as [q Eq].
    { now apply starts_letter_chunk. }
    rewrite Eq. cbn [map]. f_equal.
    rewrite (IH (chunk_at (k, a)) q [] S').
    + reflexivity.
    + apply calm_chunk; [now apply keyword_letters|].
      now apply tame_after_marker.
Qed.

Lemma trim_lf a : trim (LF :: a) = trim a.
Proof. reflexivity. Qed.

Lemma drop_class_space t : drop_class true [Space] t = drop_space t.
Proof.
  induction t as [|c t IH]; [reflexivity|]. cbn [drop_class drop_space].
  rewrite class_space_ci. now rewrite IH.
Qed.

Lemma role_match_rest k t :
  is_keyword k = true ->
  exists st', match_at true rx_role None (k ++ js " ===" ++ t) = Some st'
              /\ caps st' = [(1, k); (2, k)]
              /\ rest st' = drop_space t.
Proof.
  intros K. unfold match_at, rx_role. cbn [cat fold_right].
  rewrite rmatch_seq, rmatch_bol. cbn [prev]. rewrite flat_map_single.
  rewrite rmatch_seq, !rmatch_grp, rmatch_keyword_at by exact K.
  cbn [map prev rest caps]. rewrite !consumed_app, flat_map_single.
  change (js " ===") with [SP; EQ; EQ; EQ]. cbn [app].
  rewrite rmatch_seq. unfold ws.
  destruct (rmatch_star_class true [Space] (SP :: EQ :: EQ :: EQ :: t)
              (last_opt None k) [(1, k); (2, k)]) as [tl1 E1].
  rewrite E1. cbn [drop_class take_class]. rewrite !class_space_ci.
  change (is_space SP) with true. change (is_space EQ) with false. cbv iota.
  set (q1 := last_opt (last_opt None k) [SP]).
  destruct (rmatch_star_class true [Space] t (Some EQ) [(1, k); (2, k)])
    as [tl2 E2].
  exists (MState (last_opt (Some EQ) (take_class true [Space] t))
                 (drop_class true [Space] t) [(1, k); (2, k)]).
  split; [|split; [reflexivity|apply drop_class_space]].
  eapply hd_flat_map; [reflexivity|].
  rewrite rmatch_seq, lit_lits, rmatch_lits. change (js "==") with [EQ; EQ].
  cbn [strip]. change (class_mem true [One EQ] EQ) with true. cbv iota.
  rewrite flat_map_single, rmatch_seq.
  change (c1 "=") with (Chr [One EQ]). rewrite rmatch_opt_class.
  change (class_mem true [One EQ] EQ) with true. cbv iota.
  eapply hd_flat_map; [reflexivity|].
  rewrite rmatch_seq. rewrite E2. reflexivity.
Qed.

(** A chunk that starts with a marked keyword: the role is the keyword in
    capitals, the block is the text behind the marker. *)
Lemma tag_marked_chunk k t :
  is_keyword k = true ->
  tag_chunk (k ++ js " ===" ++ t) = Section_ (toUpperCase k) (drop_space t).
Proof.
  intros K. destruct (role_match_rest k t K) as [st' [M [C R]]].
  unfold tag_chunk, replace_first.
  unfold rx_role in *. cbn [cat fold_right] in *. rewrite !exec_bol, M.
  cbn [m_caps m_pre m_post expand flat_map app]. rewrite C, R. reflexivity.
Qed.

Lemma tag_chunk_at ka :
  is_keyword (fst ka) = true ->
  tag_chunk (trim (chunk_at ka)) = section_of ka.
Proof.
  intros K. unfold chunk_at, section_of. rewrite trim_chunk by exact K.
  rewrite tag_marked_chunk by exact K. now rewrite drop_space_rtrim, trim_lf.
Qed.

Lemma spaced_keywords segs :
  spaced segs = true -> Forall (fun ka => is_keyword (fst ka) = true) segs.
Proof.
  induction segs as [|[k a] more IH]; intros S; constructor.
  - now apply spaced_cons in S as [K _].
  - apply IH. now apply spaced_cons in S as [_ [_ [_ [_ [_ S']]]]].
Qed.

Lemma chunks_keywords segs :
  Forall (fun ka => is_keyword (fst ka) = true) segs ->
  map tag_chunk (filter non_empty (map trim (map chunk_at segs)))
  = map section_of segs.
Proof.
  induction 1 as [|ka more K _ IH]; [reflexivity|].
  cbn [map filter]. unfold chunk_at at 1.
  rewrite non_empty_chunk by exact K. cbn [map]. rewrite IH.
  f_equal. now apply tag_chunk_at.
Qed.

(** The tagged chunks of a spaced text, in the order of the text. *)
Lemma tagged_spaced pre segs :
  lead pre = true -> spaced segs = true ->
  map tag_chunk (chunks_of (mark (pre ++ text_of segs)))
  = leading pre ++ map section_of segs.
Proof.
  intros L S. rewrite (mark_lead_spaced pre segs L S).
  pose proof (lead_inv _ L) as [Fp [Tp _]].
  unfold chunks_of.
  assert (Sp : split false rx_split (pre ++ marked_of segs)
               = pre :: map chunk_at segs).
  { destruct (pre ++ marked_of segs) eqn:E.
    - apply app_eq_nil in E as [-> E2]. destruct segs as [|[k a] more].
      + reflexivity.
      + rewrite marked_of_cons in E2. discriminate E2.
    - rewrite <- E. rewrite split_nonempty by (rewrite E; discriminate).
      rewrite (split_spaced segs pre None [] S (calm_tame _ Tp)). reflexivity. }
  rewrite Sp. cbn [map filter]. rewrite non_empty_trim. unfold leading.
  destruct (blank pre) eqn:B; cbn [negb].
  - cbn [app]. apply chunks_keywords. now apply spaced_keywords.
  - cbn [map app]. rewrite (tag_trimmed pre Fp). f_equal.
    apply chunks_keywords. now apply spaced_keywords.
Qed.

(** * What a match captures *)

Section Relations.

Variable R : mstate -> mstate -> Prop.
Hypothesis R_refl : forall st, R st st.
Hypothesis R_trans : forall a b c, R a b -> R b c -> R a c.

(** A relation that holds along one iteration holds along the quantifier. *)
Lemma rep_loop_rel f g :
  (forall st st', In st' (f st) -> R st st') ->
  forall fuel mn mx st st',
    In st' (rep_loop f g fuel mn mx st) -> R st st'.
Proof.
  intros Hf fuel. induction fuel as [|fuel IH]; intros mn mx st st' H;
    cbn [rep_loop] in H; [contradiction|].
  assert (Hiter : forall mx',
    In st' (flat_map (fun st1 =>
      if Nat.eqb mn 0 && Nat.eqb (length (rest st1)) (length (rest st))
      then [] else rep_loop f g fuel (Nat.pred mn) mx' st1) (f st)) ->
    R st st').
  { intros mx' Hin. apply in_flat_map in Hin as [x [Hx Hin]].
    destruct (_ && _); [contradiction|]. apply IH in Hin. eauto. }
  destruct mx as [[|k]|].
  - destruct H as [<-|[]]. auto.
  - destruct (Nat.ltb 0 mn); [|destruct g].
    + eauto.
    + apply in_app_or in H as [H|[<-|[]]]; eauto.
    + destruct H as [<-|H]; eauto.
  - destruct (Nat.ltb 0 mn); [|destruct g].
    + eauto.
    + apply in_app_or in H as [H|[<-|[]]]; eauto.
    + destruct H as [<-|H]; eauto.
Qed.

End Relations.

Lemma rmatch_capfree ci r :
  capfree r = true ->
  forall st st', In st' (rmatch ci r st) -> caps st' = caps st.
Proof.
  induction r as [|cs|a IHa b IHb|a IHa b IHb|g mn mx a IHa|n a IHa|a IHa| | |];
    intros F st st' H; cbn [rmatch] in H; cbn [capfree] in F.
  - destruct H as [<-|[]]. reflexivity.
  - eapply in_chr_caps. cbn [rmatch]. exact H.
  - apply andb_true_iff in F as [Fa Fb].
    apply in_flat_map in H as [s1 [H1 H2]].
    rewrite (IHb Fb _ _ H2). now apply IHa.
  - apply andb_true_iff in F as [Fa Fb].
    apply in_app_iff in H as [H|H]; auto.
  - eapply (rep_loop_rel (fun a b => caps b = caps a)); [| |exact (IHa F)|exact H].
    + reflexivity.
    + intros x y z H1 H2. congruence.
  - discriminate.
  - destruct (rmatch ci a st) as [|s1 l] eqn:E; [contradiction|].
    destruct H as [<-|[]]. cbn [caps]. apply (IHa F st). rewrite E. now left.
  - destruct (prev st); [contradiction|]. destruct H as [<-|[]]. reflexivity.
  - destruct (rest st); [|contradiction]. destruct H as [<-|[]]. reflexivity.
  - destruct (xorb _ _); [|contradiction]. destruct H as [<-|[]]. reflexivity.
Qed.

Lemma read_in_refl P st : read_in P st st.
Proof. exists []. repeat split. Qed.

Lemma read_in_trans P a b c : read_in P a b -> read_in P b c -> read_in P a c.
Proof.
  intros [w1 [E1 [F1 C1]]] [w2 [E2 [F2 C2]]]. exists (w1 ++ w2). repeat split.
  - rewrite E1, E2. now rewrite app_assoc.
  - rewrite forallb_app. now rewrite F1, F2.
  - congruence.
Qed.

Lemma chr_read ci cs st st' :
  In st' (rmatch ci (Chr cs) st) -> read_in (class_mem ci cs) st st'.
Proof.
  destruct st as [p s k]. destruct s as [|c t]; [contradiction|].
  rewrite rmatch_chr. destruct (class_mem ci cs c) eqn:C; [|contradiction].
  intros [<-|[]]. exists [c]. cbn. now rewrite C.
Qed.

(** A quantifier over a class reads characters of the class only. *)
Lemma rep_class_read ci g mn mx cs st st' :
  In st' (rmatch ci (Rep g mn mx (Chr cs)) st) ->
  read_in (class_mem ci cs) st st'.
Proof.
  cbn [rmatch]. apply rep_loop_rel.
  - apply read_in_refl.
  - apply read_in_trans.
  - apply chr_read.
Qed.

Lemma consumed_read st st' w :
  rest st = w ++ rest st' -> consumed st st' = w.
Proof.
  intros E. unfold consumed. rewrite E, length_app.
  replace (length w + length (rest st') - length (rest st')) with (length w)
    by lia.
  rewrite firstn_app, Nat.sub_diag, firstn_all. cbn. apply app_nil_r.
Qed.

(** A group around a quantifier over a class captures characters of the
    class. *)
Lemma grp_class ci n g mn mx cs st st' :
  In st' (rmatch ci (Grp n (Rep g mn mx (Chr cs))) st) ->
  exists w, caps st' = (n, w) :: caps st
            /\ forallb (class_mem ci cs) w = true.
Proof.
  rewrite rmatch_grp. intros H. apply in_map_iff in H as [s1 [<- H1]].
  apply rep_class_read in H1 as [w [E [F C]]]. exists w. cbn [caps].
  rewrite (consumed_read _ _ _ E), C. now split.
Qed.

Lemma grp_class_bounded ci n g lo hi cs st st' :
  lo <= hi ->
  In st' (rmatch ci (Grp n (Rep g lo (Some hi) (Chr cs))) st) ->
  exists w, caps st' = (n, w) :: caps st
            /\ forallb (class_mem ci cs) w = true
            /\ lo <= length w <= hi.
Proof.
  intros L. rewrite rmatch_grp. intros H. apply in_map_iff in H as [s1 [<- H1]].
  apply in_rep_class in H1 as [w [E [F [B C]]]]; [|exact L]. exists w.
  cbn [caps]. rewrite (consumed_read _ _ _ E), C. now repeat split.
Qed.

(** A match found by [exec] is one of the ways the pattern matches. *)
Lemma exec_in ci r blk m :
  exec ci r blk = Some m ->
  exists p y st', In st' (rmatch ci r (MState p y []))
                  /\ m_caps m = caps st'.
Proof.
  intros H. apply search_some in H as [x [y [st' [_ [M [_ C]]]]]].
  exists (last_opt None x), y, st'. split; [|exact C].
  now apply hd_error_in.
Qed.

(** ** The role of a chunk *)

Lemma upper_keyword k :
  is_keyword k = true ->
  toUpperCase k = js "NAME" \/ toUpperCase k = js "SIRE"
  \/ toUpperCase k = js "DAM".
Proof.
  unfold is_keyword. rewrite !orb_true_iff.
  intros [[H|H]|H]; apply spells_upper in H; auto.
Qed.

Lemma role_caps p y st' :
  In st' (rmatch true rx_role (MState p y [])) ->
  exists k t, y = k ++ t /\ is_keyword k = true
              /\ get_cap 1 (caps st') = Some k.
Proof.
  unfold rx_role. cbn [cat fold_right]. intros H.
  in_seq H s0 H0. rewrite rmatch_bol in H0. cbn [prev] in H0.
  destruct p; [contradiction|]. destruct H0 as [<-|[]].
  in_seq H s1 H1.
  rewrite !rmatch_grp in H1. apply in_map_iff in H1 as [s2 [<- H2]].
  apply in_map_iff in H2 as [s3 [<- H3]].
  destruct (keyword_some_inv None y []) as [k [t [-> K]]].
  { intros E. rewrite E in H3. contradiction. }
  rewrite (rmatch_keyword_at k t None [] K) in H3. destruct H3 as [<-|[]].
  cbn [prev rest caps] in H. rewrite !consumed_app in H.
  apply rmatch_capfree in H; [|reflexivity]. cbn [caps] in H.
  exists k, t. rewrite H. now repeat split.
Qed.

Lemma tag_chunk_role chunk : In (role (tag_chunk chunk)) roles.
Proof.
  unfold tag_chunk. destruct (exec true rx_role chunk) as [m|] eqn:E.
  - cbn [role]. unfold rx_role in E. cbn [cat fold_right] in E.
    rewrite exec_bol in E.
    destruct (match_at true _ None chunk) as [st'|] eqn:M; [|discriminate].
    injection E as <-. cbn [m_caps].
    apply hd_error_in in M. apply role_caps in M as [k [t [_ [K ->]]]].
    unfold roles. destruct (upper_keyword k K) as [ -> | [ -> | -> ] ]; cbn; auto.
  - destruct (test true rx_name_start chunk); cbn; auto.
Qed.

Lemma segment_roles s :
  Forall (fun sec => In (role sec) roles) (segmentRabbits s).
Proof.
  unfold segmentRabbits.
  eapply Permutation_Forall; [symmetry; apply sort_by_rank_perm|].
  apply Forall_map. apply Forall_forall. intros c _. apply tag_chunk_role.
Qed.

(** * The order of the blocks, and blank texts *)

Lemma rank_of_role r :
  In r roles ->
  (r = js "NAME" /\ roleRank r = 0) \/ (r = js "SIRE" /\ roleRank r = 1)
  \/ (r = js "DAM" /\ roleRank r = 2) \/ (r = js "UNKNOWN" /\ roleRank r = 3).
Proof.
  unfold roles. intros [<-|[<-|[<-|[<-|[]]]]]; auto 6.
Qed.

(** A list in rank order whose roles are the four known ones reads NAME
    blocks, then SIRE blocks, then DAM blocks, then UNKNOWN blocks. *)
Lemma roles_in_order l :
  StronglySorted rank_le l ->
  Forall (fun sec => In (role sec) roles) l ->
  exists n s d u,
    map role l = repeat (js "NAME") n ++ repeat (js "SIRE") s
                 ++ repeat (js "DAM") d ++ repeat (js "UNKNOWN") u.
Proof.
  induction 1 as [|x t St IH Hx]; intros F.
  - now exists 0, 0, 0, 0.
  - inversion F as [|? ? Fx Ft]; subst.
    destruct (IH Ft) as [n [s [d [u E]]]]. cbn [map].
    assert (Hd : forall y t', t = y :: t' ->
                 roleRank (role x) <= roleRank (role y)).
    { intros y t' ->. inversion Hx; subst. assumption. }
    assert (Hhd : forall r rs, map role t = r :: rs ->
                  roleRank (role x) <= roleRank r).
    { intros r rs Er. destruct t as [|y t']; [discriminate|].
      cbn [map] in Er. injection Er as <- _. now apply (Hd y t'). }
    destruct (rank_of_role _ Fx) as [[Rx Kx]|[[Rx Kx]|[[Rx Kx]|[Rx Kx]]]];
      rewrite Rx; rewrite Kx in Hhd.
    + exists (S n), s, d, u. cbn [repeat app]. now rewrite E.
    + destruct n as [|n].
      * exists 0, (S s), d, u. cbn [repeat app] in *. now rewrite E.
      * exfalso. cbn [repeat app] in E. apply Hhd in E. cbn in E. lia.
    + destruct n as [|n]; [destruct s as [|s]|].
      * exists 0, 0, (S d), u. cbn [repeat app] in *. now rewrite E.
      * exfalso. cbn [repeat app] in E. apply Hhd in E. cbn in E. lia.
      * exfalso. cbn [repeat app] in E. apply Hhd in E. cbn in E. lia.
    + destruct n as [|n]; [destruct s as [|s]; [destruct d as [|d]|]|].
      * exists 0, 0, 0, (S u). cbn [repeat app] in *. now rewrite E.
      * exfalso. cbn [repeat app] in E. apply Hhd in E. cbn in E. lia.
      * exfalso. cbn [repeat app] in E. apply Hhd in E. cbn in E. lia.
      * exfalso. cbn [repeat app] in E. apply Hhd in E. cbn in E. lia.
Qed.

Lemma blank_cons c t : blank (c :: t) = is_space c && blank t.
Proof. reflexivity. Qed.

Lemma blank_suffix x y : blank (x ++ y) = true -> blank y = true.
Proof. rewrite blank_app, andb_true_iff. tauto. Qed.

Lemma space_not_letter c : is_space c = true -> is_letter c = false.
Proof.
  intros S. destruct (is_letter c) eqn:L; [|reflexivity].
  apply letter_not_space in L. congruence.
Qed.

Lemma strip_blank a w y :
  is_letter a = true -> blank y = true -> strip true (a :: w) y = None.
Proof.
  intros A B. destruct y as [|c t]; [reflexivity|].
  rewrite blank_cons in B. apply andb_true_iff in B as [Sc _].
  cbn [strip]. rewrite (class_one_ci a c A).
  destruct (N.eqb_spec (upper_char c) (upper_char a)) as [E|E]; [|reflexivity].
  apply (upper_char_letter a c A) in E.
  apply space_not_letter in Sc. congruence.
Qed.

Lemma blank_keyword_free s : blank s = true -> keyword_free s = true.
Proof.
  intros B. unfold keyword_free, test, exec.
  rewrite search_none_intro; [reflexivity|].
  intros x y E. subst s. apply blank_suffix in B.
  unfold match_at. replace (rmatch true keyword _) with (@nil mstate);
    [reflexivity|].
  symmetry. apply keyword_none.
  repeat split; apply strip_blank; auto.
Qed.

Lemma blank_marker_free s : blank s = true -> marker_free s = true.
Proof.
  intros B. unfold marker_free, test, exec.
  rewrite search_none_intro; [reflexivity|].
  intros x y E. subst s. apply blank_suffix in B.
  apply strip_lits_none. destruct y as [|c [|c2 t]]; [reflexivity| |].
  - cbn [strip js]. destruct (class_mem false [One LF] c); reflexivity.
  - rewrite !blank_cons in B. apply andb_true_iff in B as [_ B].
    apply andb_true_iff in B as [S2 _].
    cbn [strip]. destruct (class_mem false [One LF] c); [|reflexivity].
    change (js "===") with [EQ; EQ; EQ]. cbn [strip].
    rewrite class_one_cs. destruct (N.eqb_spec EQ c2) as [<-|N]; [|reflexivity].
    discriminate S2.
Qed.


(** * The name pattern needs its label *)

Lemma strip_cs w : forall s t, strip false w s = Some t <-> s = w ++ t.
Proof.
  induction w as [|a w IH]; intros s t; cbn [strip app].
  - split; [now intros [= ->]|now intros ->].
  - destruct s as [|c s].
    + split; [discriminate|discriminate].
    + rewrite class_one_cs. destruct (N.eqb_spec a c) as [->|N].
      * rewrite IH. split; [now intros ->|now intros [= ->]].
      * split; [discriminate|]. intros [= E _]. congruence.
Qed.

Lemma labels_at p y k :
  rmatch false (alt [lit "Name"; lit "Rabbit"; lit "Animal"]) (MState p y k)
  <> []
  <-> exists w t, In w name_labels /\ y = w ++ t.
Proof.
  cbn [alt rmatch]. rewrite !lit_lits. fold (rmatch false).
  change (rmatch false (lits (js "Name")) (MState p y k)
          ++ rmatch false (lits (js "Rabbit")) (MState p y k)
          ++ rmatch false (lits (js "Animal")) (MState p y k) <> []
          <-> exists w t, In w name_labels /\ y = w ++ t).
  rewrite !rmatch_lits. unfold name_labels. split.
  - intros H.
    destruct (strip false (js "Name") y) as [t|] eqn:E1.
    { exists (js "Name"), t. split; [now left|now apply strip_cs]. }
    destruct (strip false (js "Rabbit") y) as [t|] eqn:E2.
    { exists (js "Rabbit"), t. split; [right; now left|now apply strip_cs]. }
    destruct (strip false (js "Animal") y) as [t|] eqn:E3.
    { exists (js "Animal"), t. split; [right; right; now left|now apply strip_cs]. }
    now contradiction H.
  - intros [w [t [[<-|[<-|[<-|[]]]] E]]]; apply strip_cs in E; rewrite E.
    + discriminate.
    + destruct (strip false (js "Name") y); discriminate.
    + destruct (strip false (js "Name") y);
        destruct (strip false (js "Rabbit") y); discriminate.
Qed.

Lemma labelled_iff b :
  labelled b = true <-> exists w x t, In w name_labels /\ b = x ++ w ++ t.
Proof.
  unfold labelled, test, exec. split.
  - destruct (search _ _ _ _ _) as [m|] eqn:E; [|discriminate]. intros _.
    apply search_some in E as [x [y [st' [-> [M _]]]]].
    destruct (proj1 (labels_at (last_opt None x) y [])) as [w [t [I ->]]].
    { unfold match_at in M. intros Z. rewrite Z in M. discriminate. }
    now exists w, x, t.
  - intros [w [x [t [I ->]]]].
    destruct (search _ _ _ _ _) as [m|] eqn:E; [reflexivity|].
    apply search_none_at in E. unfold match_at in E. apply hd_error_nil in E.
    exfalso. revert E. apply labels_at. now exists w, t.
Qed.

Lemma labelled_factor x y z :
  labelled (x ++ y ++ z) = false -> labelled y = false.
Proof.
  intros H. destruct (labelled y) eqn:E; [|reflexivity].
  apply labelled_iff in E as [w [x1 [t [I ->]]]].
  rewrite <- H. symmetry. apply labelled_iff.
  exists w, (x ++ x1), (t ++ z). split; [exact I|].
  now rewrite <- !app_assoc.
Qed.

Lemma label_shape w :
  In w name_labels ->
  lacks SP w = true /\ exists c w', w = c :: w'.
Proof.
  unfold name_labels. intros [<-|[<-|[<-|[]]]]; (split; [reflexivity|]);
    eexists; eexists; reflexivity.
Qed.

Lemma unbreak_map b :
  replace_all false (Chr [One LF]) [RLit [SP]] b = map unbreak b.
Proof.
  rewrite replace_class. induction b as [|c b IH]; [reflexivity|].
  cbn [flat_map map]. rewrite IH. rewrite class_one_cs. unfold unbreak.
  destruct (LF =? c)%N; reflexivity.
Qed.

Lemma unbreak_inv w : forall v,
  lacks SP w = true -> map unbreak v = w -> v = w.
Proof.
  induction w as [|a w IH]; intros [|c v] L E; try discriminate; [reflexivity|].
  cbn [map] in E. injection E as E1 E2. cbn [lacks forallb] in L.
  apply andb_true_iff in L as [La L]. f_equal; [|now apply IH].
  unfold unbreak in E1. destruct (LF =? c)%N; [|exact E1].
  subst a. discriminate La.
Qed.

Lemma lacks_last c w y : lacks c w = true -> w = y ++ [c] -> False.
Proof.
  intros L ->. rewrite lacks_app in L. apply andb_true_iff in L as [_ L].
  cbn in L. now rewrite N.eqb_refl in L.
Qed.

Lemma padded_labelled b : labelled (padded b) = true -> labelled b = true.
Proof.
  intros H. apply labelled_iff in H as [w [x [t [I E]]]].
  destruct (label_shape w I) as [L [c [w' Ew]]].
  unfold padded in E. rewrite unbreak_map in E.
  destruct x as [|x0 x].
  { exfalso. cbn [app] in E. rewrite Ew in E. injection E as E _.
    subst c w. discriminate L. }
  cbn [app] in E. injection E as _ E.
  destruct (suffix_last _ _ _ _ E) as [y0 Ey].
  { rewrite Ew. discriminate. }
  destruct (rev t) as [|d t0] eqn:Et.
  { exfalso. apply (f_equal (@rev N)) in Et. rewrite rev_involutive in Et.
    subst t. rewrite app_nil_r in Ey. exact (lacks_last _ _ _ L Ey). }
  apply (f_equal (@rev N)) in Et. rewrite rev_involutive in Et. cbn [rev] in Et.
  subst t. rewrite !app_assoc in E. apply app_inj_tail in E as [E _].
  rewrite <- app_assoc in E.
  apply map_eq_app in E as [bx [br [-> [_ E]]]].
  apply map_eq_app in E as [bw [bt [-> [E _]]]].
  apply (unbreak_inv _ _ L) in E. subst bw.
  apply labelled_iff. now exists w, bx, bt.
Qed.

Lemma name_needs_label b :
  labelled b = false -> exec false rx_name (padded b) = None.
Proof.
  intros H. destruct (exec false rx_name (padded b)) as [m|] eqn:E;
    [|reflexivity].
  exfalso. apply search_some in E as [x [y [st' [Ep [M _]]]]].
  assert (L : labelled (padded b) = true).
  { apply labelled_iff.
    destruct (proj1 (labels_at (last_opt None x) y [])) as [w [t [I ->]]].
    - apply hd_error_in in M. unfold rx_name in M. cbn [cat fold_right] in M.
      in_seq M s1 H1. rewrite rmatch_grp in H1.
      apply in_map_iff in H1 as [s2 [_ H2]].
      intros Z. rewrite Z in H2. contradiction.
    - now exists w, x, t. }
  apply padded_labelled in L. congruence.
Qed.

(** Without one of the labels in the block the name stays empty. *)
Lemma name_empty sec :
  labelled (block sec) = false -> Name (parseSection sec) = [].
Proof.
  intros H. cbn [parseSection Name]. unfold grab.
  rewrite (name_needs_label _ H). apply inferredName_empty.
Qed.

Lemma section_of_unlabelled ka :
  labelled (snd ka) = false -> labelled (block (section_of ka)) = false.
Proof.
  intros H. cbn [section_of block].
  destruct (after_marker_suffix (snd ka)) as [d Ed].
  destruct (trim_split (after_marker (snd ka))) as [u [v [E _]]].
  apply (labelled_factor (d ++ u) _ v).
  rewrite <- app_assoc, <- E, <- Ed. exact H.
Qed.

Lemma leading_unlabelled pre :
  labelled pre = false ->
  Forall (fun sec => labelled (block sec) = false) (leading pre).
Proof.
  intros H. unfold leading. destruct (blank pre); constructor; [|constructor].
  cbn [block]. destruct (trim_split pre) as [u [v [E _]]].
  rewrite E in H. eapply labelled_factor. exact H.
Qed.


(** * Reading a date *)

Lemma hd_error_app {A} (l l' : list A) x :
  hd_error l = Some x -> hd_error (l ++ l') = Some x.
Proof. destruct l; [discriminate|]. intros H. exact H. Qed.

(** A greedy bounded quantifier over a class reads the whole run of class
    characters when the run fits the bounds. *)
Lemma rep_greedy_run ci cs w : forall lo hi p z k,
  forallb (class_mem ci cs) w = true ->
  lo <= length w <= hi -> stops ci cs z = true ->
  hd_error (rmatch ci (Rep true lo (Some hi) (Chr cs)) (MState p (w ++ z) k))
  = Some (MState (last_opt p w) z k).
Proof.
  induction w as [|a w IH]; intros lo hi p z k F B Hz; rewrite rmatch_rep.
  - cbn [length] in B. assert (lo = 0) by lia. subst lo.
    destruct hi as [|h]; [reflexivity|]. cbn zeta. cbn [app last_opt Nat.ltb Nat.leb].
    replace (rmatch ci (Chr cs) (MState p z k)) with (@nil mstate);
      [reflexivity|].
    destruct z as [|c t]; [reflexivity|]. rewrite rmatch_chr.
    cbn [stops] in Hz. apply negb_true_iff in Hz. now rewrite Hz.
  - cbn [forallb] in F. apply andb_true_iff in F as [Fa F].
    cbn [length] in B. destruct hi as [|h]; [lia|]. cbn zeta.
    cbn [app]. rewrite rmatch_chr, Fa, flat_map_single. cbn [rest length].
    replace (Nat.eqb (length (w ++ z)) (S (length (w ++ z)))) with false
      by (symmetry; apply Nat.eqb_neq; lia).
    rewrite andb_false_r. cbn [option_map Nat.pred last_opt].
    assert (H := IH (Nat.pred lo) h (Some a) z k F ltac:(lia) Hz).
    destruct (Nat.ltb 0 lo); [exact H|]. now apply hd_error_app.
Qed.

Lemma hd_error_map {A B} (f : A -> B) l x :
  hd_error l = Some x -> hd_error (map f l) = Some (f x).
Proof. destruct l; [discriminate|]. now intros [= ->]. Qed.

Lemma grp_greedy_run ci n cs w lo hi p z k :
  forallb (class_mem ci cs) w = true ->
  lo <= length w <= hi -> stops ci cs z = true ->
  hd_error (rmatch ci (Grp n (Rep true lo (Some hi) (Chr cs)))
              (MState p (w ++ z) k))
  = Some (MState (last_opt p w) z ((n, w) :: k)).
Proof.
  intros F B S. rewrite rmatch_grp.
  rewrite (hd_error_map _ _ _ (rep_greedy_run ci cs w lo hi p z k F B S)).
  cbn [prev rest caps]. now rewrite consumed_app.
Qed.

Lemma digits_class w :
  digits w = true -> forallb (class_mem false [Digit]) w = true.
Proof.
  intros D. rewrite <- D. apply forallb_ext_eq. intros x. apply class_digit.
Qed.

Lemma slash_stops z : stops false [Digit] (47%N :: z) = true.
Proof. reflexivity. Qed.

(** The date pattern on a well-formed date. *)
Lemma rx_date_match mm dd yy :
  digits mm = true -> 1 <= length mm <= 2 ->
  digits dd = true -> 1 <= length dd <= 2 ->
  digits yy = true -> 2 <= length yy <= 4 ->
  exists st',
    match_at false rx_date None (mm ++ js "/" ++ dd ++ js "/" ++ yy) = Some st'
    /\ caps st' = [(3, yy); (2, dd); (1, mm)].
Proof.
  intros D1 L1 D2 L2 D3 L3. unfold match_at, rx_date. cbn [cat fold_right].
  change (js "/") with [47%N]. cbn [app].
  exists (MState (last_opt (Some 47%N) yy) [] [(3, yy); (2, dd); (1, mm)]).
  split; [|reflexivity].
  rewrite rmatch_seq, rmatch_bol. cbn [prev]. rewrite flat_map_single.
  rewrite rmatch_seq. eapply hd_flat_map.
  { apply grp_greedy_run; [now apply digits_class|exact L1|apply slash_stops]. }
  rewrite rmatch_seq. change (c1 "/") with (Chr [One 47%N]).
  rewrite rmatch_chr. change (class_mem false [One 47%N] 47%N) with true.
  cbv iota. rewrite flat_map_single.
  rewrite rmatch_seq. eapply hd_flat_map.
  { apply grp_greedy_run; [now apply digits_class|exact L2|apply slash_stops]. }
  rewrite rmatch_seq.
  rewrite rmatch_chr. change (class_mem false [One 47%N] 47%N) with true.
  cbv iota. rewrite flat_map_single.
  rewrite rmatch_seq. eapply hd_flat_map.
  { rewrite <- (app_nil_r yy) at 1.
    apply grp_greedy_run; [now apply digits_class|exact L3|reflexivity]. }
  reflexivity.
Qed.

Lemma replace_class_char ci cs x s :
  replace_all ci (Chr cs) [RLit [x]] s
  = map (fun c => if class_mem ci cs c then x else c) s.
Proof.
  rewrite replace_class. induction s as [|c s IH]; [reflexivity|].
  cbn [flat_map map]. rewrite IH. destruct (class_mem ci cs c); reflexivity.
Qed.

Lemma repair_char c :
  (fun c => if class_mem false [ch "-"] c then 47%N else c)
    ((fun c => if class_mem false [ch "."] c then 47%N else c)
       ((fun c => if class_mem false [ch "I"; ch "l"] c then 49%N else c)
          ((fun c => if class_mem false [ch "O"] c then 48%N else c) c)))
  = repair c.
Proof.
  cbv beta.
  unfold class_mem, existsb, item_mem, repair, ch.
  cbn [js andb map list_ascii_of_string]. rewrite !orb_false_r.
  change (N_of_ascii "O") with 79%N. change (N_of_ascii "I") with 73%N.
  change (N_of_ascii "l") with 108%N. change (N_of_ascii ".") with 46%N.
  change (N_of_ascii "-") with 45%N.
  rewrite (N.eqb_sym 79 c).
  destruct (N.eqb_spec c 79) as [->|N1]; [reflexivity|].
  rewrite (N.eqb_sym 73 c), (N.eqb_sym 108 c).
  destruct (N.eqb_spec c 73) as [->|N2]; [reflexivity|].
  destruct (N.eqb_spec c 108) as [->|N3]; [reflexivity|].
  cbn [orb].
  rewrite (N.eqb_sym 46 c).
  destruct (N.eqb_spec c 46) as [->|N4]; [reflexivity|].
  rewrite (N.eqb_sym 45 c).
  destruct (N.eqb_spec c 45) as [->|N5]; reflexivity.
Qed.

(** The four replacements of [normalizeDate] repair the token character by
    character. *)
Lemma repair_map s :
  replace_all false (c1 "-") [RLit (js "/")]
    (replace_all false (c1 ".") [RLit (js "/")]
       (replace_all false (Chr [ch "I"; ch "l"]) [RLit (js "1")]
          (replace_all false (c1 "O") [RLit (js "0")] s)))
  = map repair s.
Proof.
  unfold c1. change (js "/") with [47%N]. change (js "1") with [49%N].
  change (js "0") with [48%N].
  rewrite !replace_class_char, !map_map. apply map_ext. apply repair_char.
Qed.

Lemma normalizeDate_reads s mm dd yy :
  map repair s = mm ++ js "/" ++ dd ++ js "/" ++ yy ->
  digits mm = true -> 1 <= length mm <= 2 ->
  digits dd = true -> 1 <= length dd <= 2 ->
  digits yy = true -> 2 <= length yy <= 4 ->
  normalizeDate s
  = padStart2 mm ++ js "/" ++ padStart2 dd ++ js "/" ++ century yy.
Proof.
  intros E D1 L1 D2 L2 D3 L3.
  destruct s as [|c0 s0].
  { exfalso. cbn [map] in E. symmetry in E. apply app_eq_nil in E as [_ E].
    discriminate E. }
  unfold normalizeDate. cbv zeta. rewrite repair_map, E, exec_rx_date.
  destruct (rx_date_match mm dd yy D1 L1 D2 L2 D3 L3) as [st' [M C]].
  rewrite M. cbn [m_caps]. rewrite C. reflexivity.
Qed.

Lemma digit_bounds c : is_digit c = true <-> (48 <= c <= 57)%N.
Proof.
  unfold is_digit. rewrite andb_true_iff, !N.leb_le. tauto.
Qed.

Lemma repair_digit c : is_digit c = true -> repair c = c.
Proof.
  intros D. apply digit_bounds in D. unfold repair.
  destruct (N.eqb_spec c 79); [lia|]. destruct (N.eqb_spec c 73); [lia|].
  destruct (N.eqb_spec c 108); [lia|]. destruct (N.eqb_spec c 46); [lia|].
  destruct (N.eqb_spec c 45); [lia|]. reflexivity.
Qed.

Lemma repair_digits w : digits w = true -> map repair w = w.
Proof.
  induction w as [|c w IH]; [reflexivity|]. cbn [digits forallb map].
  rewrite andb_true_iff. intros [D Dw]. rewrite repair_digit by exact D.
  f_equal. now apply IH.
Qed.

Lemma digit_not_space c : is_digit c = true -> is_space c = false.
Proof.
  intros D. apply digit_bounds in D. apply not_true_is_false. intros S.
  apply is_space_spec in S. lia.
Qed.

Lemma digits_solid w :
  digits w = true -> forallb (fun c => negb (is_space c)) w = true.
Proof.
  induction w as [|c w IH]; [reflexivity|]. cbn [digits forallb].
  rewrite !andb_true_iff. intros [D Dw]. split; [|now apply IH].
  now rewrite digit_not_space.
Qed.

(** A date of the form the normalizer builds is left as it is. *)
Lemma date_shape_fixed d : date_shape d -> normalizeDate d = d.
Proof.
  intros [mm [dd [yy [-> [D1 [L1 [D2 [L2 [D3 L3]]]]]]]]].
  rewrite (normalizeDate_reads _ mm dd yy); auto; try lia.
  - unfold padStart2, century. rewrite L1, L2. cbn [Nat.sub repeat app].
    destruct L3 as [-> | ->]; reflexivity.
  - rewrite !map_app.
    rewrite (repair_digits mm), (repair_digits dd), (repair_digits yy)
      by assumption.
    reflexivity.
Qed.

Lemma date_shape_trimmed d : date_shape d -> trim d = d.
Proof.
  intros [mm [dd [yy [-> [D1 [L1 [D2 [L2 [D3 L3]]]]]]]]].
  apply trim_nonspace. rewrite !forallb_app.
  rewrite (digits_solid mm), (digits_solid dd), (digits_solid yy)
    by assumption.
  reflexivity.
Qed.

Lemma normalizeDate_idem s :
  trim s = s -> normalizeDate (normalizeDate s) = normalizeDate s.
Proof.
  intros T. destruct (normalizeDate_shape s) as [E|Sh].
  - rewrite T in E. now rewrite !E.
  - now apply date_shape_fixed.
Qed.

Lemma normalizeDate_trimmed s : trim (normalizeDate s) = normalizeDate s.
Proof.
  destruct (normalizeDate_shape s) as [E|Sh].
  - rewrite E. apply trim_idem.
  - now apply date_shape_trimmed.
Qed.

Lemma grab_trimmed blk ci r : trim (grab blk ci r) = grab blk ci r.
Proof.
  unfold grab. destruct (exec ci r blk); [apply trim_idem|reflexivity].
Qed.

(** * What the field patterns capture *)

Lemma capfree_cat l : forallb capfree l = true -> capfree (cat l) = true.
Proof.
  induction l as [|r l IH]; [reflexivity|]. cbn [forallb cat fold_right capfree].
  rewrite !andb_true_iff. intros [H1 H2]. split; [exact H1|now apply IH].
Qed.

(** A pattern with one group between pieces that capture nothing. *)
Lemma cat_single_capture ci pre n body post : forall st st',
  forallb capfree pre = true -> forallb capfree post = true ->
  In st' (rmatch ci (cat (pre ++ Grp n body :: post)) st) ->
  exists s1 s2, In s2 (rmatch ci (Grp n body) s1)
                /\ caps s1 = caps st /\ caps st' = caps s2.
Proof.
  induction pre as [|x pre IH]; intros st st' F1 F2 H.
  - cbn [app cat fold_right] in H. in_seq H s2 H2.
    exists st, s2. repeat split; [exact H2|].
    eapply rmatch_capfree; [|exact H]. now apply capfree_cat.
  - cbn [app cat fold_right] in H. cbn [forallb] in F1.
    apply andb_true_iff in F1 as [Fx F1]. in_seq H s0 H0.
    apply (rmatch_capfree ci x Fx) in H0.
    destruct (IH s0 st' F1 F2 H) as [s1 [s2 [I [C1 C2]]]].
    exists s1, s2. repeat split; [exact I|congruence|exact C2].
Qed.

(** The text a field pattern with one class group grabs. *)
Lemma grab_class ci pre g lo mx cs post blk :
  forallb capfree pre = true -> forallb capfree post = true ->
  grab blk ci (cat (pre ++ Grp 1 (Rep g lo mx (Chr cs)) :: post)) = []
  \/ exists w, grab blk ci (cat (pre ++ Grp 1 (Rep g lo mx (Chr cs)) :: post))
               = trim w
               /\ forallb (class_mem ci cs) w = true
               /\ (forall hi, mx = Some hi -> lo <= hi -> length w <= hi).
Proof.
  intros F1 F2. unfold grab.
  destruct (exec ci _ blk) as [m|] eqn:E; [right|now left].
  apply exec_in in E as [p [y [st' [I C]]]].
  apply cat_single_capture in I as [s1 [s2 [I [C1 C2]]]]; auto.
  cbn [caps] in C1.
  destruct mx as [hi|].
  - destruct (Nat.le_gt_cases lo hi) as [L|L].
    + apply grp_class_bounded in I as [w [K [F B]]]; [|exact L].
      exists w. rewrite C, C2, K, C1. repeat split; auto.
      intros h [= <-] _. lia.
    + apply grp_class in I as [w [K F]].
      exists w. rewrite C, C2, K, C1. repeat split; auto.
      intros h [= <-] ?. lia.
  - apply grp_class in I as [w [K F]].
    exists w. rewrite C, C2, K, C1. repeat split; auto. discriminate.
Qed.

Lemma letter_not_digit c : is_letter c = true -> is_digit c = false.
Proof.
  intros L. apply letter_spec in L. apply not_true_is_false. intros D.
  apply digit_bounds in D. lia.
Qed.

Lemma class_digits_ci c :
  class_mem true [rng "0" "9"] c = true -> is_digit c = true.
Proof.
  unfold class_mem, existsb. rewrite orb_false_r. cbn [andb].
  change (item_mem (rng "0" "9") c) with (is_digit c).
  change (item_mem (rng "0" "9") (swap_case c)) with (is_digit (swap_case c)).
  destruct (swap_case_cases c) as [[L1 L2]|[_ E]].
  - rewrite (letter_not_digit _ L1), (letter_not_digit _ L2). discriminate.
  - rewrite E. now rewrite orb_diag.
Qed.

Lemma class_id_ci c :
  class_mem true id_class c = true -> is_id_char c = true.
Proof.
  unfold is_id_char. destruct (swap_case_cases c) as [[L1 _]|[L E]].
  - now rewrite L1.
  - unfold class_mem, id_class, existsb. rewrite E, !orb_diag, orb_false_r.
    change (item_mem (rng "A" "Z") c) with (is_upper c).
    change (item_mem (rng "0" "9") c) with (is_digit c).
    change (item_mem (ch "-") c) with (45 =? c)%N.
    unfold is_letter in *. apply orb_false_iff in L as [-> ->].
    now rewrite N.eqb_sym.
Qed.

Lemma forallb_impl {A} (f g : A -> bool) l :
  (forall x, f x = true -> g x = true) ->
  forallb f l = true -> forallb g l = true.
Proof.
  intros H. induction l as [|x l IH]; [reflexivity|]. cbn [forallb].
  rewrite !andb_true_iff. intros [H1 H2]. split; auto.
Qed.

(** The Ear, Reg and GC fields hold letters, digits and hyphens only. *)
Lemma id_chars pre blk :
  forallb capfree pre = true ->
  forallb is_id_char
    (grab blk true (cat (pre ++ Grp 1 (plus (Chr id_class)) :: [Wordb])))
  = true.
Proof.
  intros F1.
  destruct (grab_class true pre true 1 None id_class [Wordb] blk F1 eq_refl)
    as [E|[w [E [F _]]]]; unfold plus; rewrite E.
  - reflexivity.
  - apply forallb_trim. revert F. apply forallb_impl. apply class_id_ci.
Qed.

(** * Characters the cleaners remove *)

Lemma lacks_forallb c x : lacks c x = forallb (fun d => negb (d =? c)%N) x.
Proof. reflexivity. Qed.

Lemma replace_one_lacks c0 x s :
  x <> c0 -> lacks c0 (replace_all false (Chr [One c0]) [RLit [x]] s) = true.
Proof.
  intros N. rewrite replace_class_char. unfold lacks. rewrite forallb_forall.
  intros d I. apply in_map_iff in I as [c [<- _]]. rewrite class_one_cs.
  destruct (N.eqb_spec c0 c) as [->|N1]; apply negb_true_iff, N.eqb_neq;
    congruence.
Qed.

(** [preClean] leaves no carriage return behind. *)
Lemma preClean_lacks_cr s : lacks CR (preClean s) = true.
Proof.
  unfold preClean, born_rule, ear_rule, gc_rule, reg_rule. cbv zeta.
  rewrite lacks_forallb. apply forallb_trim.
  do 12 (apply replace_all_kept; [reflexivity|]).
  rewrite <- lacks_forallb. unfold rx_cr. now apply replace_one_lacks.
Qed.

(** [preClean] leaves no vertical bar behind. *)
Lemma preClean_lacks_bar s : lacks BAR (preClean s) = true.
Proof.
  unfold preClean. cbv zeta. rewrite lacks_forallb. apply forallb_trim.
  rewrite <- lacks_forallb. unfold rx_pipe. now apply replace_one_lacks.
Qed.

(** ** [escape] *)

Lemma flat_map_flat_map {A B C} (f : A -> list B) (g : B -> list C) l :
  flat_map g (flat_map f l) = flat_map (fun x => flat_map g (f x)) l.
Proof.
  induction l as [|x l IH]; [reflexivity|]. cbn [flat_map].
  now rewrite flat_map_app, IH.
Qed.

Lemma escape_chars l : escape l = flat_map escape_char l.
Proof.
  unfold escape, c1. change (ch "&") with (One 38%N).
  change (ch "<") with (One 60%N).
  rewrite !replace_class, flat_map_flat_map.
  apply flat_map_ext. intros c. rewrite class_one_cs. unfold escape_char.
  rewrite (N.eqb_sym 38 c).
  destruct (N.eqb_spec c 38) as [->|N1]; [reflexivity|].
  cbn [flat_map]. rewrite class_one_cs, app_nil_r.
  rewrite (N.eqb_sym 60 c).
  destruct (c =? 60)%N; reflexivity.
Qed.

Lemma escape_lacks_lt l : lacks LT (escape l) = true.
Proof.
  rewrite escape_chars. unfold lacks. rewrite forallb_forall. intros d I.
  apply in_flat_map in I as [c [_ I]]. unfold escape_char in I.
  destruct (c =? 38)%N.
  { cbn in I. repeat destruct I as [<-|I]; try reflexivity. contradiction. }
  destruct (c =? 60)%N eqn:E2.
  { cbn in I. repeat destruct I as [<-|I]; try reflexivity. contradiction. }
  destruct I as [<-|[]]. unfold LT. now rewrite E2.
Qed.

Lemma escape_char_cases c :
  (c = 38%N /\ escape_char c = js "&amp;")
  \/ (c = 60%N /\ escape_char c = js "&lt;")
  \/ (c <> 38%N /\ c <> 60%N /\ escape_char c = [c]).
Proof.
  unfold escape_char.
  destruct (N.eqb_spec c 38) as [->|N1]; [now left|].
  destruct (N.eqb_spec c 60) as [->|N2]; [right; now left|].
  right; right. now repeat split.
Qed.

(** ** [safe] *)

Lemma newline_at p t :
  match_at false rx_newline p (LF :: t) = Some (MState (Some LF) t []).
Proof.
  unfold match_at, rx_newline. cbn [cat fold_right].
  rewrite rmatch_seq, rmatch_opt_class.
  change (class_mem false [One CR] LF) with false. cbv iota.
  rewrite flat_map_single, rmatch_seq, rmatch_chr.
  change (class_mem false [One LF] LF) with true. reflexivity.
Qed.

(** A replacement whose pattern takes a character wherever it stands
    removes every such character. *)
Lemma replace_go_removes r x c0 :
  x <> c0 ->
  (forall p t, exists st', match_at false r p (c0 :: t) = Some st'
                           /\ length (rest st') <= length t) ->
  forall s skip p, lacks c0 (replace_go false r [RLit [x]] skip p s) = true.
Proof.
  intros Nx H. induction s as [|c t IH]; intros skip p.
  - destruct skip; [|reflexivity]. rewrite replace_go_eq.
    destruct (match_at false r p []) as [st'|]; [|reflexivity].
    cbn [expand flat_map app].
    destruct (length (@nil char) - length (rest st')); cbn;
      apply N.eqb_neq in Nx; now rewrite Nx.
  - destruct skip as [|k]; [|cbn [replace_go]; apply IH].
    rewrite replace_go_eq.
    assert (Hx : negb (x =? c0)%N = true)
      by (apply negb_true_iff; now apply N.eqb_neq).
    destruct (N.eqb_spec c c0) as [->|Nc].
    + destruct (H p t) as [st' [-> L]]. cbn [expand flat_map app].
      replace (length (c0 :: t) - length (rest st'))
        with (S (length t - length (rest st'))) by (cbn [length]; lia).
      cbn [lacks forallb]. rewrite Hx. apply IH.
    + assert (Hc : negb (c =? c0)%N = true)
        by (apply negb_true_iff; now apply N.eqb_neq).
      destruct (match_at false r p (c :: t)) as [st'|].
      * cbn [expand flat_map app].
        destruct (length (c :: t) - length (rest st')); cbn [lacks forallb].
        -- rewrite Hx, Hc. apply IH.
        -- rewrite Hx. apply IH.
      * cbn [lacks forallb]. rewrite Hc. apply IH.
Qed.

Lemma safe_string_lacks s :
  lacks TAB (safe_string s) = true /\ lacks LF (safe_string s) = true.
Proof.
  unfold safe_string. fold rx_newline. split.
  - rewrite lacks_forallb. apply forallb_trim, replace_all_kept; [reflexivity|].
    rewrite <- lacks_forallb. now apply replace_one_lacks.
  - rewrite lacks_forallb. apply forallb_trim. rewrite <- lacks_forallb.
    apply replace_go_removes; [discriminate|].
    intros p t. eexists. split; [apply newline_at|]. cbn [rest]. lia.
Qed.

(** * Blank texts *)

Lemma item_solid_space ci it c :
  item_solid it = true -> is_space c = true ->
  item_mem it c || (ci && item_mem it (swap_case c)) = false.
Proof.
  intros H S.
  assert (E : swap_case c = c).
  { destruct (swap_case_cases c) as [[L _]|[_ E]]; [|exact E].
    apply letter_not_space in L. congruence. }
  rewrite E. assert (M : item_mem it c = false).
  { destruct it as [a|lo hi| |]; cbn [item_solid item_mem] in *.
    - destruct (N.eqb_spec a c) as [->|N]; [|reflexivity].
      rewrite S in H. discriminate.
    - apply andb_true_iff in H as [H1 H2]. apply N.ltb_lt in H1, H2.
      apply is_space_spec in S. apply not_true_is_false.
      rewrite andb_true_iff, !N.leb_le. lia.
    - discriminate.
    - destruct (is_digit c) eqn:D; [|reflexivity].
      apply digit_not_space in D. congruence. }
  rewrite M. now destruct ci.
Qed.

Lemma class_solid_space ci cs c :
  forallb item_solid cs = true -> is_space c = true -> class_mem ci cs c = false.
Proof.
  intros H S. unfold class_mem. induction cs as [|it cs IH]; [reflexivity|].
  cbn [forallb existsb] in *. apply andb_true_iff in H as [H1 H2].
  rewrite (item_solid_space ci it c H1 S). now apply IH.
Qed.

Lemma needs_solid_none ci r :
  needs_solid r = true -> forall st, quiet st = true -> rmatch ci r st = [].
Proof.
  induction r as [|cs|a IHa b IHb|a IHa b IHb|g mn mx a IHa|n a IHa|a IHa| | |];
    intros F st Q; cbn [needs_solid] in F; try discriminate.
  - destruct st as [p s k]. destruct s as [|c t]; [reflexivity|].
    rewrite rmatch_chr. unfold quiet in Q. cbn [prev rest] in Q.
    apply andb_true_iff in Q as [_ Q].
    now rewrite (class_solid_space ci cs c F Q).
  - rewrite rmatch_seq, (IHa F st Q). reflexivity.
  - apply andb_true_iff in F as [Fa Fb]. cbn [rmatch].
    now rewrite (IHa Fa st Q), (IHb Fb st Q).
  - rewrite rmatch_grp, (IHa F st Q). reflexivity.
  - rewrite rmatch_wordb. unfold quiet in Q.
    apply andb_true_iff in Q as [Q1 Q2]. apply negb_true_iff in Q1.
    rewrite Q1. destruct (rest st) as [|c t]; [reflexivity|].
    cbn [hd_error is_word_opt]. now rewrite (space_not_word c Q2).
Qed.

(** A pattern that needs a solid start finds nothing in a blank text. *)
Lemma blank_no_match ci r s :
  needs_solid r = true -> blank s = true -> exec ci r s = None.
Proof.
  intros F B. apply search_none_intro. intros x y E. subst s.
  rewrite blank_app in B. apply andb_true_iff in B as [Bx By].
  unfold match_at. rewrite (needs_solid_none ci r F); [reflexivity|].
  unfold quiet. cbn [prev rest].
  rewrite (last_opt_blank x None eq_refl Bx). cbn [negb andb].
  destruct y as [|c t]; [reflexivity|].
  rewrite blank_cons in By. now apply andb_true_iff in By as [-> _].
Qed.

Lemma blank_replace ci r tpl s :
  needs_solid r = true -> blank s = true -> replace_all ci r tpl s = s.
Proof. intros F B. apply replace_all_none. now apply blank_no_match. Qed.


(** * The outcomes of a run *)

Lemma renderTSV_rows r rows :
  renderTSV (r :: rows) = Throw (TypeError no_replace).
Proof. reflexivity. Qed.

Lemma renderTSV_none : renderTSV [] = Ok (join [TAB] header).
Proof. reflexivity. Qed.

(** Every run, by the outcome of each call. *)
Lemma run_cases E url :
  run E url =
  match createWorker E with
  | Throw e => ([CreateWorker], Throw e)
  | Ok _ =>
    match loadLanguage E (js "eng") with
    | Throw e => ([CreateWorker; SetLogger; LoadLanguage (js "eng")], Throw e)
    | Ok _ =>
      match initialize E (js "eng") with
      | Throw e =>
          ([CreateWorker; SetLogger; LoadLanguage (js "eng");
            Initialize (js "eng")], Throw e)
      | Ok _ =>
        match recognize E url with
        | Throw e => (up_to_recognize url, Throw e)
        | Ok text =>
          match terminate E with
          | Throw e => (up_to_recognize url ++ [Terminate], Throw e)
          | Ok _ =>
            match renderTSV (extract text) with
            | Throw e => (up_to_recognize url ++ [Terminate], Throw e)
            | Ok tsv =>
                (complete_trace url (renderReadable (extract text)) tsv, Ok tt)
            end
          end
        end
      end
    end
  end.
Proof.
  unfold run, runOCR, bind, call, lift, extract, complete_trace.
  destruct (createWorker E); [|reflexivity].
  destruct (loadLanguage E (js "eng")); [|reflexivity].
  destruct (initialize E (js "eng")); [|reflexivity].
  destruct (recognize E url) as [text|]; [|reflexivity].
  destruct (terminate E); [|reflexivity].
  destruct (renderTSV _); reflexivity.
Qed.


(** * The drafts *)

Lemma forallb_rev {A} (Q : A -> bool) l : forallb Q (rev l) = forallb Q l.
Proof.
  induction l as [|c l IH]; [reflexivity|]. cbn [rev forallb].
  rewrite forallb_app, IH. cbn [forallb]. rewrite andb_true_r.
  apply andb_comm.
Qed.

Lemma join_forallb (Q : char -> bool) sep l :
  forallb Q sep = true -> Forall (fun x => forallb Q x = true) l ->
  forallb Q (join sep l) = true.
Proof.
  intros Hs. induction 1 as [|x l Hx Hl IH]; [reflexivity|].
  destruct l as [|y l]; [exact Hx|].
  change (join sep (x :: y :: l)) with (x ++ sep ++ join sep (y :: l)).
  rewrite !forallb_app. now rewrite Hx, Hs, IH.
Qed.

Lemma split_char_forallb (Q : char -> bool) sep s : forall cur,
  forallb Q cur = true -> forallb Q s = true ->
  Forall (fun x => forallb Q x = true) (Draft.split_char sep cur s).
Proof.
  induction s as [|c t IH]; intros cur Hc Hs; cbn [Draft.split_char].
  - constructor; [|constructor]. now rewrite forallb_rev.
  - cbn [forallb] in Hs. apply andb_true_iff in Hs as [H1 H2].
    destruct (c =? sep)%N.
    + constructor; [now rewrite forallb_rev|]. now apply IH.
    + apply IH; [|exact H2]. cbn [forallb]. now rewrite H1.
Qed.

Lemma split_char_lacks sep s : forall cur,
  lacks sep cur = true ->
  Forall (fun x => lacks sep x = true) (Draft.split_char sep cur s).
Proof.
  induction s as [|c t IH]; intros cur Hc; cbn [Draft.split_char].
  - constructor; [|constructor]. unfold lacks. now rewrite forallb_rev.
  - destruct (c =? sep)%N eqn:E.
    + constructor; [unfold lacks; now rewrite forallb_rev|]. now apply IH.
    + apply IH. cbn [lacks forallb]. now rewrite E.
Qed.

(** ** The tags of the second draft *)

Lemma draft_tag_keyword k t :
  is_keyword k = true ->
  Draft.tag_chunk (k ++ t) = Section_ (toUpperCase k) (k ++ t).
Proof.
  intros K. unfold Draft.tag_chunk, Draft.rx_role. cbn [cat fold_right].
  rewrite exec_bol. unfold match_at.
  rewrite rmatch_seq, rmatch_bol. cbn [prev]. rewrite flat_map_single.
  rewrite rmatch_seq, !rmatch_grp, rmatch_keyword_at by exact K.
  cbn [map prev rest caps flat_map rmatch app hd_error m_caps].
  rewrite !consumed_app. reflexivity.
Qed.

Lemma name_start_keyword chunk :
  test true rx_name_start chunk = true ->
  exists k t, chunk = k ++ t /\ spells "Name" k = true.
Proof.
  unfold test, rx_name_start. cbn [cat fold_right]. rewrite exec_bol.
  destruct (match_at true _ None chunk) as [st'|] eqn:M; [|discriminate].
  intros _. apply hd_error_in in M.
  in_seq M s0 H0. rewrite rmatch_bol in H0. cbn [prev] in H0.
  destruct H0 as [<-|[]].
  in_seq M s1 H1. rewrite lit_lits, rmatch_lits in H1.
  destruct (strip true (js "Name") chunk) as [t|] eqn:E; [|contradiction].
  apply strip_ci_letters in E as [k [-> U]]; [|reflexivity].
  exists k, t. split; [reflexivity|]. now apply spells_intro.
Qed.


(** * The blocks of the segmenter *)

Lemma hd_flat_map_inv {A B} (g : A -> list B) l y :
  hd_error (flat_map g l) = Some y ->
  exists x, In x l /\ hd_error (g x) = Some y.
Proof.
  induction l as [|a l IH]; [discriminate|]. cbn [flat_map].
  destruct (g a) as [|b t] eqn:E.
  - cbn [app]. intros H. destruct (IH H) as [x [I Hx]]. exists x. split; [now right|exact Hx].
  - cbn. intros [= <-]. exists a. split; [now left|]. now rewrite E.
Qed.

(** A suffix of a trimmed text that starts with a solid character, or is
    empty, is trimmed. *)
Lemma trimmed_suffix c w r :
  trim c = c -> c = w ++ r ->
  match r with [] => True | d :: _ => is_space d = false end ->
  trim r = r.
Proof.
  intros T E H. destruct r as [|d r']; [reflexivity|].
  destruct (trim_ends c) as [Z|[[x [Z Hx]]|[x [m [y [Z [Hx Hy]]]]]]];
    rewrite T in Z.
  - exfalso. rewrite Z in E. symmetry in E. apply app_eq_nil in E as [_ E].
    discriminate.
  - rewrite Z in E. destruct w as [|w0 w'].
    + cbn [app] in E. injection E as <- <-. now apply trim_single.
    + exfalso. cbn [app] in E. injection E as _ E. symmetry in E.
      apply app_eq_nil in E as [_ E]. discriminate.
  - rewrite Z in E. change (x :: m ++ [y]) with ((x :: m) ++ [y]) in E.
    destruct (suffix_last _ _ _ _ E) as [r0 Er]; [discriminate|].
    destruct r0 as [|d0 r0'].
    + cbn [app] in Er. injection Er as -> ->. now apply trim_single.
    + cbn [app] in Er. injection Er as -> ->. now apply trim_solid.
Qed.

Lemma star_ws_head p s k :
  exists q, hd_error (rmatch true (Seq (star ws) Eps) (MState p s k))
            = Some (MState q (drop_space s) k).
Proof.
  rewrite rmatch_seq. unfold ws.
  destruct (rmatch_star_class true [Space] s p k) as [tl E]. rewrite E.
  cbn [flat_map rmatch app hd_error]. rewrite drop_class_space. eauto.
Qed.

(** What is left behind a match of the role pattern starts with a solid
    character or is empty. *)
Lemma role_rest st st' :
  hd_error (rmatch true rx_role st) = Some st' ->
  match rest st' with [] => True | d :: _ => is_space d = false end.
Proof.
  unfold rx_role. cbn [cat fold_right]. intros H.
  rewrite rmatch_seq in H. apply hd_flat_map_inv in H as [s0 [_ H]].
  rewrite rmatch_seq in H. apply hd_flat_map_inv in H as [s1 [_ H]].
  rewrite rmatch_seq in H. apply hd_flat_map_inv in H as [s2 [_ H]].
  rewrite rmatch_seq in H. apply hd_flat_map_inv in H as [s3 [_ H]].
  rewrite rmatch_seq in H. apply hd_flat_map_inv in H as [s4 [_ H]].
  destruct s4 as [p s k]. destruct (star_ws_head p s k) as [q E].
  rewrite E in H. injection H as <-. cbn [rest].
  destruct (drop_space_head s) as [->|[c [t [-> Hc]]]]; auto.
Qed.

Lemma keyword_not_unknown k :
  is_keyword k = true -> toUpperCase k <> js "UNKNOWN".
Proof.
  intros K. destruct (upper_keyword k K) as [ -> | [ -> | -> ] ]; discriminate.
Qed.

Lemma tag_chunk_block c :
  trim c = c -> c <> [] ->
  trim (block (tag_chunk c)) = block (tag_chunk c)
  /\ (role (tag_chunk c) = js "UNKNOWN" -> block (tag_chunk c) <> []).
Proof.
  intros T N. unfold tag_chunk, replace_first.
  destruct (exec true rx_role c) as [m|] eqn:E.
  - cbn [role block]. unfold rx_role in E. cbn [cat fold_right] in E.
    rewrite exec_bol in E.
    destruct (match_at true _ None c) as [st'|] eqn:M; [|discriminate].
    injection E as <-. cbn [m_caps m_pre m_post expand flat_map app].
    pose proof (hd_error_in _ _ M) as I.
    split.
    + destruct (rmatch_reached _ _ _ _ I) as [w [Ew _]]. cbn [rest] in Ew.
      apply (trimmed_suffix c w); auto.
      apply (role_rest (MState None c [])). exact M.
    + intros R. exfalso. apply role_caps in I as [k [t [_ [K G]]]].
      rewrite G in R. revert R. now apply keyword_not_unknown.
  - destruct (test true rx_name_start c); cbn [role block].
    + split; [exact T|discriminate].
    + split; [exact T|intros _; exact N].
Qed.

(** * The claims *)

(** ** The field extractor *)

(** C1.  On the block [" Name: Thumper Variety: Dutch Weight: 4 lb 2 oz
    Legs: 4 Born: 11-10-2024 "] the extractor returns, whatever the role,
    Variety "Dutch", Weight "4 lb 2 oz", Legs "4", Born "11/10/2024" and
    empty Ear, Reg and GC.  Its Name is "Thumper Variety", not "Thumper":
    the name class admits letters and spaces, so the greedy capture runs
    through the next label up to its colon.  The same happens on a whole
    run, for a card that labels the name with [Rabbit:]. *)
Theorem parseSection_thumper :
  (forall r : jstring,
     parseSection (Section_ r thumper_block) =
     {| Role := r; Name := js "Thumper Variety"; Ear := []; Reg := [];
        GC := []; Variety := js "Dutch"; Weight := js "4 lb 2 oz";
        Legs := js "4"; Born := js "11/10/2024" |})
  /\ js "Thumper Variety" <> js "Thumper"
  /\ map Name (extract (js "Rabbit: Thumper Weight: 4 lb 2 oz")) =
     [js "Thumper Weight"].
Proof.
  split; [intro r; vm_compute; reflexivity|].
  split; [discriminate|vm_compute; reflexivity].
Qed.

(** C2.  The name inference never fires.  The fall-back pattern is anchored
    at the start of the padded block, and the padding puts a space there, so
    for every block the inferred name is empty and the Name field is the
    capture of the name pattern alone.  In particular the SIRE block
    [" Sire: Big Chief Ear # AB-12 "] gets an empty Name, not "Big Chief",
    also without its own leading space. *)
Theorem inferred_name_never_fires :
  (forall sec, inferredName sec = [])
  /\ (forall sec,
        Name (parseSection sec) = grab (padded (block sec)) false rx_name)
  /\ Name (parseSection (Section_ (js "SIRE") (js " Sire: Big Chief Ear # AB-12 "))) = []
  /\ Name (parseSection (Section_ (js "SIRE") (js "Sire: Big Chief Ear # AB-12"))) = [].
Proof.
  split; [exact inferredName_empty|]. split.
  - intros sec. unfold parseSection. cbn [Name].
    destruct (grab (padded (block sec)) false rx_name); [|reflexivity].
    apply inferredName_empty.
  - split; vm_compute; reflexivity.
Qed.

(** C3.  The date normalizer returns the trimmed token or a date of two
    digits, a slash, two digits, a slash and a year, and so does the
    extractor in its Born field; but the year has three or four digits, not
    always four: ["1/2/123"] becomes ["01/02/123"], which is neither of the
    form MM/DD/YYYY nor the trimmed input, and the block ["Born: 1/2/123"]
    gets that Born value, also on a whole run. *)
Theorem normalizeDate_three_digit_year :
  (forall s, normalizeDate s = trim s \/ date_shape (normalizeDate s))
  /\ (forall sec,
        Born (parseSection sec)
        = normalizeDate (grab (padded (block sec)) true Parse.rx_born))
  /\ normalizeDate (js "1/2/123") = js "01/02/123"
  /\ (forall r,
        Born (parseSection (Section_ r (js "Born: 1/2/123"))) = js "01/02/123")
  /\ map Born (extract (js "Born: 1/2/123")) = [js "01/02/123"]
  /\ js "01/02/123" <> trim (js "1/2/123")
  /\ length (js "123") = 3.
Proof.
  split; [exact normalizeDate_shape|]. split; [reflexivity|].
  split; [vm_compute; reflexivity|]. split.
  - intros r. unfold parseSection. cbn [Born]. vm_compute. reflexivity.
  - split; [vm_compute; reflexivity|].
    split; [vm_compute; discriminate|reflexivity].
Qed.

(** C5.  The variety is captured up to a following label, but never up to
    the end of the block: wherever the variety pattern matches in a padded
    block, one of the labels Weight, Legs, Ear, Reg, GC, Born, Sire, Dam
    follows the match.  The padded block ends in a space, and [\b] does not
    hold between that space and the end of the input, so the [$] branch of
    the lookahead is never reached.  The block ["Variety: Dutch"] gets an
    empty Variety, the block ["Variety: Dutch Weight: 4 lb 2 oz"] gets
    "Dutch"; a whole run on a text that ends with the variety extracts
    none. *)
Theorem variety_needs_following_label :
  (forall b,
     match exec true Parse.rx_variety (padded b) with
     | Some m => at_label (m_post m) = true
     | None => True
     end)
  /\ (forall r, Variety (parseSection (Section_ r (js "Variety: Dutch"))) = [])
  /\ (forall r,
        Variety (parseSection (Section_ r (js "Variety: Dutch Weight: 4 lb 2 oz")))
        = js "Dutch")
  /\ map Variety (extract (js "Weight: 4 lb 2 oz Variety: Dutch")) = [[]].
Proof.
  split.
  - intros b. destruct (exec true Parse.rx_variety (padded b)) eqn:E; [|exact I].
    eapply variety_before_label; eauto.
  - split; [|split]; try (intros r; unfold parseSection; cbn [Variety]);
      vm_compute; reflexivity.
Qed.

(** ** The normalizer *)

(** C4.  The normalizer is not idempotent: the rule for [ariety] also fires
    inside a correct ["Variety"], so ["Variety"] becomes ["VVariety"] and a
    second pass gives ["VVVariety"]. *)
Theorem preClean_not_idempotent :
  preClean (js "Variety") = js "VVariety"
  /\ preClean (preClean (js "Variety")) = js "VVVariety"
  /\ preClean (preClean (js "Variety")) <> preClean (js "Variety").
Proof.
  split; [vm_compute; reflexivity|]. split; [vm_compute; reflexivity|].
  vm_compute. discriminate.
Qed.

(** C10.  The Ear rule rewrites every occurrence of [ear] or [Ear] in the
    text that reaches it: for any text before and behind the occurrence, the
    result is the rewritten text before it, then ["Ear # "], then the
    rewritten text behind it without its leading spaces, [#] and [:].  The
    rule is the left-to-right rewriting [ear_rewrite]; its pattern matches
    at [ear]/[Ear] whatever character comes before and whatever text
    follows; ["Heart"] is normalized to ["HEar # t"].  The Reg, GC and Born
    patterns do not match behind a word character.

    The normalizer applies the rule to the text its earlier steps have
    made, and its later steps work on the result: [preClean s] is
    [after_ear (ear_rule (before_ear s))].  On a text in which no other
    rule finds a match, before the Ear rule or behind it, [preClean] gives
    the text with every occurrence rewritten, trimmed.  An occurrence that
    an earlier rule breaks up is not rewritten (["eariety"] gives
    ["eVariety"]), and [trim] takes the last space of a label that ends the
    text (["ear"] gives ["Ear #"]).

    A trailing delimiter is needed by none of the four rules: the Reg and
    GC patterns match at [Reg] and [GC] whatever follows, the Born pattern
    matches with the date right behind [Born]; what Born needs is a date
    character behind its white space and colons. *)
Theorem ear_rule_every_occurrence :
  (forall (capital : bool) (pre post : jstring),
     ear_rule (pre ++ (if capital then js "Ear" else js "ear") ++ post) =
     ear_rule pre ++ js "Ear # "
       ++ ear_rule (drop_class false ear_delims post))
  /\ (forall s, ear_rule s = ear_rewrite false s)
  /\ (forall (capital : bool) p t,
        match_at false Clean.rx_ear p
          ((if capital then js "Ear" else js "ear") ++ t) <> None)
  /\ preClean (js "Heart") = js "HEar # t"
  /\ (forall c t,
        is_word c = true ->
        match_at true Clean.rx_reg (Some c) (js "Reg" ++ t) = None
        /\ match_at false Clean.rx_gc (Some c) (js "GC" ++ t) = None
        /\ match_at true Clean.rx_born (Some c) (js "Born" ++ t) = None)
  /\ born_rule (js "Born free") = js "Born free"
  /\ ear_rule (js "ear") = js "Ear # "
  /\ (forall s, preClean s = after_ear (ear_rule (before_ear s)))
  /\ (forall s,
        idle rules_before_ear s = true ->
        idle rules_after_ear (ear_rule s) = true ->
        preClean s = trim (ear_rule s))
  /\ (forall (capital : bool) (pre post : jstring),
        idle rules_before_ear
          (pre ++ (if capital then js "Ear" else js "ear") ++ post) = true ->
        idle rules_after_ear
          (ear_rule (pre ++ (if capital then js "Ear" else js "ear") ++ post))
        = true ->
        preClean (pre ++ (if capital then js "Ear" else js "ear") ++ post) =
        trim (ear_rule pre ++ js "Ear # "
                ++ ear_rule (drop_class false ear_delims post)))
  /\ preClean (js "ear") = js "Ear #"
  /\ preClean (js "eariety") = js "eVariety"
  /\ (forall p t,
        is_word_opt p = false ->
        match_at true Clean.rx_reg p (js "Reg" ++ t) <> None
        /\ match_at false Clean.rx_gc p (js "GC" ++ t) <> None)
  /\ (forall p d t,
        is_word_opt p = false -> class_mem true born_date d = true ->
        match_at true Clean.rx_born p (js "Born" ++ d :: t) <> None)
  /\ (forall p t,
        dateless t = true ->
        match_at true Clean.rx_born p (js "Born" ++ t) = None)
  /\ preClean (js "Regular") = js "Reg # ular"
  /\ preClean (js "GCx") = js "GC # x"
  /\ preClean (js "Born12") = js "Born: 12".
Proof.
  assert (O : forall (capital : bool) (pre post : jstring),
     ear_rule (pre ++ (if capital then js "Ear" else js "ear") ++ post) =
     ear_rule pre ++ js "Ear # "
       ++ ear_rule (drop_class false ear_delims post)).
  { intros capital pre post. rewrite !ear_rule_rewrite.
    assert (E : exists e, is_e e = true /\
                (if capital then js "Ear" else js "ear") ++ post
                = (e :: 97 :: 114 :: post)%N)
      by (destruct capital; [exists 69%N|exists 101%N]; split; reflexivity).
    destruct E as [e [He ->]].
    apply (ear_rewrite_occurrence (length pre)); [lia|exact He]. }
  assert (T : forall s,
        idle rules_before_ear s = true ->
        idle rules_after_ear (ear_rule s) = true ->
        preClean s = trim (ear_rule s)).
  { intros s B A.
    rewrite preClean_steps, (before_ear_idle s B). apply after_ear_idle, A. }
  repeat match goal with |- _ /\ _ => split end.
  - exact O.
  - exact ear_rule_rewrite.
  - intros capital p t.
    assert (E : exists e, is_e e = true /\
                (if capital then js "Ear" else js "ear") ++ t
                = (e :: 97 :: 114 :: t)%N)
      by (destruct capital; [exists 69%N|exists 101%N]; split; reflexivity).
    destruct E as [e [He ->]].
    destruct (ear_match p e t He) as [st' [M _]]. rewrite M. discriminate.
  - vm_compute. reflexivity.
  - intros c t W. unfold match_at, Clean.rx_reg, Clean.rx_gc, Clean.rx_born.
    cbn [cat fold_right]. rewrite !rmatch_seq, !rmatch_wordb.
    cbn [prev rest is_word_opt]. rewrite W.
    repeat split; reflexivity.
  - vm_compute. reflexivity.
  - vm_compute. reflexivity.
  - exact preClean_steps.
  - exact T.
  - intros capital pre post B A. rewrite (T _ B A). now rewrite O.
  - vm_compute. reflexivity.
  - vm_compute. reflexivity.
  - intros p t P. split; [now apply reg_match|now apply gc_match].
  - exact born_match.
  - exact born_needs_date.
  - vm_compute. reflexivity.
  - vm_compute. reflexivity.
  - vm_compute. reflexivity.
Qed.

Lemma ear_rule_every_occurrence_witness :
  (is_word 80%N = true
   /\ match_at true Clean.rx_reg (Some 80%N) (js "Reg" ++ js "nant") = None)
  /\ (idle rules_before_ear (js "a heart: of pearls") = true
      /\ idle rules_after_ear (ear_rule (js "a heart: of pearls")) = true
      /\ preClean (js "a heart: of pearls") =
         trim (ear_rule (js "a heart: of pearls"))
      /\ preClean (js "a h" ++ js "ear" ++ js "t: of pearls") =
         trim (ear_rule (js "a h") ++ js "Ear # "
                 ++ ear_rule (drop_class false ear_delims (js "t: of pearls"))))
  /\ (is_word_opt (Some 32%N) = false
      /\ match_at true Clean.rx_reg (Some 32%N) (js "Reg" ++ js "ular") <> None
      /\ class_mem true born_date 49%N = true
      /\ match_at true Clean.rx_born (Some 32%N) (js "Born" ++ 49%N :: js "2")
         <> None)
  /\ (dateless (js " free") = true
      /\ match_at true Clean.rx_born None (js "Born" ++ js " free") = None).
Proof.
  destruct ear_rule_every_occurrence
    as (_ & _ & _ & _ & B & _ & _ & _ & T & Oc & _ & _ & R & M & D & _).
  split; [|split; [|split]].
  - split; [reflexivity|]. apply (B 80%N (js "nant")). reflexivity.
  - split; [reflexivity|]. split; [reflexivity|]. split.
    + apply T; reflexivity.
    + apply (Oc false (js "a h") (js "t: of pearls")); reflexivity.
  - split; [reflexivity|]. split.
    + apply (R (Some 32%N) (js "ular")). reflexivity.
    + split; [reflexivity|]. apply (M (Some 32%N) 49%N (js "2")); reflexivity.
  - split; [reflexivity|]. apply (D None (js " free")). reflexivity.
Defined.

(** A trailing delimiter is needed by the Reg and GC rules no more than by
    the Ear rule; an [ear] of the input that the Variety rule breaks up is
    not rewritten; the label that ends the text loses its last space. *)
Lemma other_rules_need_no_delimiter :
  preClean (js "Regular") = js "Reg # ular"
  /\ preClean (js "GCx") = js "GC # x"
  /\ preClean (js "eariety") = js "eVariety"
  /\ preClean (js "ear") = js "Ear #"
  /\ preClean (js "ear") <> js "Ear # ".
Proof.
  repeat split; try (vm_compute; reflexivity). vm_compute. discriminate.
Qed.

(** ** The segmenter *)

(** C7.  Take a text made of a lead, a word spelling Name, a gap, a word
    spelling Sire, a gap, a word spelling Dam and a trail (words in any mix
    of cases), where the three words are whole words (the gaps start and
    end with a non-word character, the lead ends with one and the trail
    starts with one, unless empty) and where lead, gaps and trail contain no
    whole-word role keyword and no line feed followed by [===], and gaps and
    trail do not go on with [===] right behind the keyword's white space
    and colon.  The segmenter's blocks have the roles NAME, SIRE, DAM in
    this order, and nothing else when the lead is blank; a lead with visible
    text comes last as a fourth block, of role UNKNOWN.  A run [===]
    elsewhere in the text does no harm. *)
Theorem segment_three_keywords pre k1 a k2 b k3 c :
  spells "Name" k1 = true -> spells "Sire" k2 = true ->
  spells "Dam" k3 = true ->
  before_keywords pre = true -> between_keywords a = true ->
  between_keywords b = true -> behind_keywords c = true ->
  map role (segmentRabbits (pre ++ k1 ++ a ++ k2 ++ b ++ k3 ++ c)) =
  [js "NAME"; js "SIRE"; js "DAM"]
  ++ (if blank pre then [] else [js "UNKNOWN"]).
Proof.
  intros S1 S2 S3 Hp Ha Hb Hc.
  pose proof (is_keyword_name _ S1) as K1.
  pose proof (is_keyword_sire _ S2) as K2.
  pose proof (is_keyword_dam _ S3) as K3.
  unfold segmentRabbits, chunks_of.
  rewrite mark_three by assumption.
  destruct (before_inv _ Hp) as [Fp [Mp _]].
  destruct (between_inv _ Ha) as [_ [Ma [Ga _]]].
  destruct (between_inv _ Hb) as [_ [Mb [Gb _]]].
  destruct (behind_inv _ Hc) as [_ [Mc [Gc _]]].
  rewrite split_three
    by (auto using marker_free_calm, calm_after_marker, head_free_inv).
  cbn [map filter]. rewrite non_empty_trim, !non_empty_chunk by assumption.
  pose proof (role_of_chunk k1 (after_marker a) K1) as R1.
  pose proof (role_of_chunk k2 (after_marker b) K2) as R2.
  pose proof (role_of_chunk k3 (after_marker c) K3) as R3.
  rewrite (spells_role _ _ S1) in R1. rewrite (spells_role _ _ S2) in R2.
  rewrite (spells_role _ _ S3) in R3.
  destruct (blank pre); cbn [negb map].
  - rewrite (section_eta (tag_chunk (trim (chunk_of k1 (after_marker a))))), R1.
    rewrite (section_eta (tag_chunk (trim (chunk_of k2 (after_marker b))))), R2.
    rewrite (section_eta (tag_chunk (trim (chunk_of k3 (after_marker c))))), R3.
    apply sort_three.
  - rewrite (section_eta (tag_chunk (trim (chunk_of k1 (after_marker a))))), R1.
    rewrite (section_eta (tag_chunk (trim (chunk_of k2 (after_marker b))))), R2.
    rewrite (section_eta (tag_chunk (trim (chunk_of k3 (after_marker c))))), R3.
    rewrite (tag_trimmed pre Fp). apply sort_four.
Qed.

Lemma segment_three_keywords_witness :
  map role (segmentRabbits
              (js "Pedigree === NAME: Damson === Named sire: == B Dam"))
  = [js "NAME"; js "SIRE"; js "DAM"; js "UNKNOWN"].
Proof.
  apply (segment_three_keywords (js "Pedigree === ") (js "NAME")
           (js ": Damson === Named ") (js "sire") (js ": == B ") (js "Dam") []);
    reflexivity.
Defined.

(** Text in front of the first keyword makes a fourth block. *)
Lemma segment_leading_text :
  map role (segmentRabbits (js "x Name: A Sire: B Dam: C")) =
  [js "NAME"; js "SIRE"; js "DAM"; js "UNKNOWN"]
  /\ length (segmentRabbits (js "x Name: A Sire: B Dam: C")) <> 3.
Proof. split; [vm_compute; reflexivity|vm_compute; discriminate]. Qed.

(** Why the text around the keywords must not hold the separator: a line
    feed and [===] in the subject's text split off one more chunk. *)
Example segment_separator_in_text :
  map role (segmentRabbits
              (js "Name: a" ++ [LF] ++ js "=== b Sire: c Dam: d"))
  = [js "NAME"; js "SIRE"; js "DAM"; js "UNKNOWN"].
Proof. vm_compute. reflexivity. Qed.

(** Why [===] must not stand right behind a keyword's white space and
    colon: the marker ends with a line feed, which makes a separator of it. *)
Example segment_marker_behind_keyword :
  map role (segmentRabbits (js "Name:=== a Sire: c Dam: d"))
  = [js "NAME"; js "SIRE"; js "DAM"; js "UNKNOWN"].
Proof. vm_compute. reflexivity. Qed.

(** A run [===] anywhere else leaves the three blocks as they are. *)
Example segment_run_in_text :
  map role (segmentRabbits (js "Name: a === b Sire: c === Dam: d === e"))
  = [js "NAME"; js "SIRE"; js "DAM"].
Proof. vm_compute. reflexivity. Qed.

(** C8.  For every text that contains no whole-word role keyword (by
    [keyword_free_wordless] that includes every text that contains none of
    the keywords at all) and no line feed followed by [===], and that is not
    blank, the segmenter returns exactly one block, of role UNKNOWN, whose
    content is the trimmed text. *)
Theorem segment_no_keyword s :
  wordless s = true -> marker_free s = true -> blank s = false ->
  segmentRabbits s = [Section_ (js "UNKNOWN") (trim s)].
Proof.
  intros F M B. unfold segmentRabbits, chunks_of.
  rewrite (wordless_mark s F).
  rewrite split_none.
  - cbn [map filter]. rewrite non_empty_trim, B. cbn [negb map].
    rewrite (tag_trimmed s F). reflexivity.
  - intros ->. discriminate B.
  - apply marker_free_split. exact M.
Qed.

Lemma segment_no_keyword_witness :
  segmentRabbits (js " hello world ")
  = [Section_ (js "UNKNOWN") (js "hello world")].
Proof.
  apply (segment_no_keyword (js " hello world ")); reflexivity.
Defined.

(** The empty text has no role keyword and gives no block at all. *)
Lemma segment_empty_input :
  keyword_free [] = true /\ segmentRabbits [] = []
  /\ length (segmentRabbits []) <> 1.
Proof. repeat split; vm_compute; discriminate. Qed.

(** Why the text must not hold the separator: it is split there, although
    it has no role keyword. *)
Example segment_separator_no_keyword :
  map role (segmentRabbits (js "a" ++ [LF] ++ js "===b"))
  = [js "UNKNOWN"; js "UNKNOWN"].
Proof. vm_compute. reflexivity. Qed.

(** ** The renderers *)

(** C9.  The tabular renderer fails on every non-empty record list: the
    first cell of a row is the numeric index, [v || ''] keeps it, and a
    number has no [replace].  Only the empty list is rendered, as the header
    line alone, so there is no data row to split; a run on a text with a
    block ends in that error, behind [terminate] and before any output. *)
Theorem renderTSV_throws_on_rows :
  (forall r rows, renderTSV (r :: rows) = Throw (TypeError no_replace))
  /\ renderTSV [] = Ok (join [TAB] header)
  /\ run (reading_engine (js "Name: Thumper")) (js "card.png")
     = (up_to_recognize (js "card.png") ++ [Terminate],
        Throw (TypeError no_replace)).
Proof.
  split; [|split; [reflexivity|vm_compute; reflexivity]].
  intros r rows. reflexivity.
Qed.

(** ** The driver *)

(** C6.  When the worker is set up, [runOCR] calls [terminate] right after a
    [recognize] that succeeds; when [recognize] fails, the failure is the
    outcome of the run and the last call made is [recognize]: [terminate] is
    not called. *)
Theorem runOCR_terminate E url :
  createWorker E = Ok tt -> loadLanguage E (js "eng") = Ok tt ->
  initialize E (js "eng") = Ok tt ->
  (forall text, recognize E url = Ok text ->
     exists more, fst (run E url) = up_to_recognize url ++ Terminate :: more)
  /\ (forall e, recognize E url = Throw e ->
        run E url = (up_to_recognize url, Throw e)).
Proof.
  intros H1 H2 H3. rewrite (run_up_to_recognize E url H1 H2 H3). split.
  - intros text Hr. unfold bind at 1, call at 1. rewrite Hr.
    match goal with
    | |- exists more, fst (bind ?x ?f ?tr) = _ =>
        destruct (bind_trace_prefix x f tr (up_to_recognize url ++ [Terminate]))
          as [more Em]
    end.
    + intros a tr0. cbv zeta. apply bind_extends; [apply lift_extends|].
      intros tsv. apply bind_extends; [apply call_extends|].
      intros _. apply bind_extends; [apply call_extends|].
      intros _. apply call_extends.
    + exists []. rewrite app_nil_r. reflexivity.
    + exists more. rewrite Em, <- app_assoc. reflexivity.
  - intros e Hr. unfold bind at 1, call at 1. rewrite Hr. reflexivity.
Qed.

Lemma runOCR_terminate_witness :
  run failing_engine (js "card.png")
  = (up_to_recognize (js "card.png"), Throw (Rejected (js "cannot read image")))
  /\ exists more,
       fst (run (reading_engine (js "Name: Thumper")) (js "card.png"))
       = up_to_recognize (js "card.png") ++ Terminate :: more.
Proof.
  split.
  - apply (proj2 (runOCR_terminate failing_engine (js "card.png")
                    eq_refl eq_refl eq_refl)).
    reflexivity.
  - apply (proj1 (runOCR_terminate (reading_engine (js "Name: Thumper"))
                    (js "card.png") eq_refl eq_refl eq_refl)
             (js "Name: Thumper")).
    reflexivity.
Defined.

(** A failing [recognize] leaves the worker unterminated. *)
Lemma runOCR_no_terminate_on_failure :
  recognize failing_engine (js "card.png")
  = Throw (Rejected (js "cannot read image"))
  /\ ~ In Terminate (fst (run failing_engine (js "card.png"))).
Proof.
  split; [reflexivity|].
  vm_compute. intros H.
  repeat (destruct H as [H|H]; [discriminate H|]). exact H.
Qed.

(** * Further properties of the code *)

(** ** The segmenter *)

(** X1.  Whatever the text, the roles of the blocks [segmentRabbits]
    returns read: NAME blocks first, then SIRE blocks, then DAM blocks, then
    UNKNOWN blocks; no other role occurs. *)
Theorem segment_roles_in_order s :
  exists n si d u,
    map role (segmentRabbits s)
    = repeat (js "NAME") n ++ repeat (js "SIRE") si
      ++ repeat (js "DAM") d ++ repeat (js "UNKNOWN") u.
Proof.
  apply roles_in_order; [apply sort_by_rank_sorted|apply segment_roles].
Qed.



(** X3.  A text of white space only gives no block at all. *)
Theorem segment_blank_text s : blank s = true -> segmentRabbits s = [].
Proof.
  intros B. unfold segmentRabbits, chunks_of.
  rewrite (wordless_mark s (keyword_free_wordless s (blank_keyword_free s B))).
  destruct s as [|c t] eqn:Es; [reflexivity|]. rewrite <- Es in *.
  rewrite split_none.
  - cbn [map filter]. rewrite non_empty_trim, B. reflexivity.
  - rewrite Es. discriminate.
  - apply marker_free_split. now apply blank_marker_free.
Qed.

Lemma segment_blank_text_witness :
  segmentRabbits (SP :: LF :: TAB :: [SP]) = [].
Proof. exact (segment_blank_text (SP :: LF :: TAB :: [SP]) eq_refl). Defined.

(** X4.  Whatever the text, no block [segmentRabbits] returns starts or
    ends with white space, and an UNKNOWN block is never empty.  (A NAME,
    SIRE or DAM block is empty when nothing stands behind its keyword.) *)
Theorem blocks_are_trimmed s :
  Forall (fun sec => trimmed (block sec)
                     /\ (role sec = js "UNKNOWN" -> block sec <> []))
         (segmentRabbits s).
Proof.
  unfold segmentRabbits.
  eapply Permutation_Forall; [symmetry; apply sort_by_rank_perm|].
  apply Forall_map, Forall_forall. intros c I.
  unfold chunks_of in I. apply filter_In in I as [I N].
  apply in_map_iff in I as [x [<- _]].
  apply tag_chunk_block; [apply trim_idem|].
  intros E. rewrite E in N. discriminate N.
Qed.

(** ** The field extractor *)

(** X5.  [parseSection] leaves Name empty unless the block holds one of the
    labels Name, Rabbit or Animal in exactly this spelling: the name pattern
    is case-sensitive, and the fall-back for SIRE and DAM blocks never
    matches. *)
Theorem name_needs_its_label sec :
  labelled (block sec) = false -> Name (parseSection sec) = [].
Proof. apply name_empty. Qed.

Lemma name_needs_its_label_witness :
  Name (parseSection (Section_ (js "NAME") (js "NAME: Thumper Ear # 12"))) = [].
Proof.
  exact (name_needs_its_label
           (Section_ (js "NAME") (js "NAME: Thumper Ear # 12")) eq_refl).
Defined.

(** X6.  [segmentRabbits] takes the role keyword out of each block, so the
    name pattern does not find the label [Name] it asks for: on a text of
    whole-word role keywords whose texts in between hold none of the labels
    Name, Rabbit and Animal, every record has an empty Name. *)
Theorem names_lost_after_segmenting pre segs :
  lead pre = true -> spaced segs = true ->
  labelled pre = false ->
  forallb (fun ka => negb (labelled (snd ka))) segs = true ->
  Forall (fun r => Name r = [])
         (map parseSection (segmentRabbits (pre ++ text_of segs))).
Proof.
  intros L S Hp Hs. apply Forall_map. unfold segmentRabbits.
  eapply Permutation_Forall; [symmetry; apply sort_by_rank_perm|].
  rewrite (tagged_spaced pre segs L S).
  apply Forall_app. split.
  - eapply Forall_impl; [|apply (leading_unlabelled pre Hp)].
    intros sec. apply name_empty.
  - apply Forall_map. rewrite forallb_forall in Hs. apply Forall_forall.
    intros ka I. apply name_empty. apply section_of_unlabelled.
    apply Hs in I. now apply negb_true_iff in I.
Qed.

Lemma names_lost_after_segmenting_witness :
  Forall (fun r => Name r = [])
         (map parseSection
              (segmentRabbits
                 (js "Name: Thumper Variety: Dutch Sire: Big Chief Dam: Flopsy"))).
Proof.
  exact (names_lost_after_segmenting []
           [(js "Name", js ": Thumper Variety: Dutch ");
            (js "Sire", js ": Big Chief "); (js "Dam", js ": Flopsy")]
           eq_refl eq_refl eq_refl eq_refl).
Defined.

(** X7.  No field that [parseSection] extracts starts or ends with white
    space. *)
Theorem fields_are_trimmed sec :
  trimmed (Name (parseSection sec)) /\ trimmed (Ear (parseSection sec))
  /\ trimmed (Reg (parseSection sec)) /\ trimmed (GC (parseSection sec))
  /\ trimmed (Variety (parseSection sec)) /\ trimmed (Weight (parseSection sec))
  /\ trimmed (Legs (parseSection sec)) /\ trimmed (Born (parseSection sec)).
Proof.
  unfold trimmed. cbn [parseSection Name Ear Reg GC Variety Weight Legs Born].
  repeat split; try apply grab_trimmed.
  - destruct (grab (padded (block sec)) false rx_name) eqn:E.
    + now rewrite inferredName_empty.
    + rewrite <- E. apply grab_trimmed.
  - apply normalizeDate_trimmed.
Qed.

(** X8.  The Legs field is empty or made of one or two digits. *)
Theorem legs_at_most_two_digits sec :
  digits (Legs (parseSection sec)) = true
  /\ length (Legs (parseSection sec)) <= 2.
Proof.
  cbn [parseSection Legs]. set (blk := padded (block sec)).
  change rx_legs with
    (cat ([lit "Leg"; opt (c1 "s"); star sep]
          ++ Grp 1 (Rep true 1 (Some 2) (Chr [rng "0" "9"])) :: [Wordb])).
  destruct (grab_class true [lit "Leg"; opt (c1 "s"); star sep] true 1 (Some 2)
              [rng "0" "9"] [Wordb] blk eq_refl eq_refl) as [->|[w [-> [F B]]]].
  - split; [reflexivity|cbn; lia].
  - assert (D : digits w = true).
    { revert F. apply forallb_impl. apply class_digits_ci. }
    rewrite (trim_nonspace w (digits_solid w D)). split; [exact D|].
    apply (B 2); [reflexivity|lia].
Qed.

(** X9.  The Ear, Reg and GC fields hold ASCII letters, digits and hyphens
    only. *)
Theorem id_fields_characters sec :
  forallb is_id_char (Ear (parseSection sec)) = true
  /\ forallb is_id_char (Reg (parseSection sec)) = true
  /\ forallb is_id_char (GC (parseSection sec)) = true.
Proof.
  cbn [parseSection Ear Reg GC]. repeat split.
  - exact (id_chars [lit "Ear"; star ws; c1 "#"; star sep] _ eq_refl).
  - exact (id_chars [lit "Reg"; star ws; c1 "#"; star sep] _ eq_refl).
  - exact (id_chars [Wordb; lit "GC"; star ws; c1 "#"; star sep] _ eq_refl).
Qed.

(** X10.  [parseSection] reads a line feed inside a block as a space: a
    block and the same block with every line feed turned into a space give
    the same record. *)
Theorem line_breaks_read_as_spaces rl b :
  parseSection (Section_ rl (map unbreak b)) = parseSection (Section_ rl b).
Proof.
  assert (P : padded (map unbreak b) = padded b).
  { unfold padded. rewrite !unbreak_map, map_map. do 2 f_equal.
    apply map_ext. intros c. unfold unbreak.
    destruct (LF =? c)%N eqn:E; [reflexivity|now rewrite E]. }
  unfold parseSection, inferredName. cbn [block role]. now rewrite P.
Qed.

(** ** The date normalizer *)

(** X11.  [normalizeDate] reads a token character by character, [O] as [0],
    [I] and [l] as [1], [.] and [-] as [/].  When this reading is month,
    slash, day, slash, year, with one or two digits for month and day and two
    to four for the year, the result is the month and the day padded with [0]
    to two digits and the year, a two-digit year with [19] in front from 70
    on and [20] below. *)
Theorem normalizeDate_reads_date s mm dd yy :
  map repair s = mm ++ js "/" ++ dd ++ js "/" ++ yy ->
  digits mm = true -> 1 <= length mm <= 2 ->
  digits dd = true -> 1 <= length dd <= 2 ->
  digits yy = true -> 2 <= length yy <= 4 ->
  normalizeDate s
  = padStart2 mm ++ js "/" ++ padStart2 dd ++ js "/" ++ century yy.
Proof. apply normalizeDate_reads. Qed.

Lemma normalizeDate_reads_date_witness :
  normalizeDate (js "I-O2.69") = js "01/02/2069".
Proof.
  apply (normalizeDate_reads_date (js "I-O2.69") (js "1") (js "02") (js "69"));
    try reflexivity; cbn [length js map list_ascii_of_string]; lia.
Defined.

(** X12.  The Born field is a fixed point of [normalizeDate]: normalizing
    it again changes nothing.  This rests on the token being trimmed; on a
    token with white space in front a second pass does change the result. *)
Theorem born_is_normal :
  (forall sec,
     normalizeDate (Born (parseSection sec)) = Born (parseSection sec))
  /\ normalizeDate (js " 1/2/2024") = js "1/2/2024"
  /\ normalizeDate (js "1/2/2024") = js "01/02/2024".
Proof.
  split; [|split; reflexivity].
  intros sec. cbn [parseSection Born]. apply normalizeDate_idem.
  apply grab_trimmed.
Qed.

(** ** The normalizer *)

(** X13.  The text [preClean] returns holds no carriage return and no
    vertical bar, and it neither starts nor ends with white space. *)
Theorem preClean_removes s :
  lacks CR (preClean s) = true /\ lacks BAR (preClean s) = true
  /\ trimmed (preClean s).
Proof.
  split; [apply preClean_lacks_cr|split; [apply preClean_lacks_bar|]].
  unfold trimmed, preClean. cbv zeta. apply trim_idem.
Qed.

(** X14.  [preClean] turns a text of white space only into the empty
    text. *)
Theorem preClean_blank_text s : blank s = true -> preClean s = [].
Proof.
  intros B. unfold preClean, born_rule, ear_rule, gc_rule, reg_rule. cbv zeta.
  set (s3 := replace_all false rx_hspace [RLit [SP]]
               (replace_all false rx_blank_lines [RLit [LF]]
                  (replace_all false rx_cr [RLit [LF]] s))).
  assert (B3 : blank s3 = true).
  { unfold s3, blank. now do 3 (apply replace_all_kept; [reflexivity|]). }
  do 10 (rewrite (blank_replace _ _ _ s3) by (reflexivity || exact B3)).
  now apply trim_nil_blank.
Qed.

Lemma preClean_blank_text_witness :
  preClean (SP :: CR :: LF :: LF :: TAB :: [SP]) = [].
Proof.
  exact (preClean_blank_text (SP :: CR :: LF :: LF :: TAB :: [SP]) eq_refl).
Defined.

(** ** The renderers *)

(** X15.  The escaping of [renderReadable] works character by character:
    [&] becomes [&amp;], [<] becomes [&lt;], every other character stays.
    So the readable output is lines joined by [<br>], and no line holds a
    [<]: a field value cannot open a tag. *)
Theorem readable_is_escaped :
  (forall l, escape l = flat_map escape_char l)
  /\ forall rows,
       exists lines,
         renderReadable rows = join (js "<br>") lines
         /\ Forall (fun l => lacks LT l = true) lines.
Proof.
  split; [apply escape_chars|].
  intros rows. exists (map escape (flat_map readable_lines (indexed rows))).
  split; [reflexivity|]. apply Forall_map, Forall_forall.
  intros l _. apply escape_lacks_lt.
Qed.

(** X16.  The escaping loses nothing: two lines with the same escaped
    form are the same line. *)
Theorem escape_is_lossless a b : escape a = escape b -> a = b.
Proof.
  rewrite !escape_chars. revert b.
  induction a as [|x a IH]; intros [|y b] H.
  - reflexivity.
  - exfalso. cbn [flat_map] in H.
    destruct (escape_char_cases y) as [[_ E]|[[_ E]|[_ [_ E]]]];
      rewrite E in H; discriminate H.
  - exfalso. cbn [flat_map] in H.
    destruct (escape_char_cases x) as [[_ E]|[[_ E]|[_ [_ E]]]];
      rewrite E in H; discriminate H.
  - cbn [flat_map] in H.
    destruct (escape_char_cases x) as [[Ex E]|[[Ex E]|[N1 [N2 E]]]];
      destruct (escape_char_cases y) as [[Ey F]|[[Ey F]|[M1 [M2 F]]]];
      rewrite E, F in H; subst;
      change (js "&amp;") with [38; 97; 109; 112; 59]%N in H;
      change (js "&lt;") with [38; 108; 116; 59]%N in H;
      cbn [app] in H; try discriminate H;
      inversion H; subst; try congruence; f_equal; now apply IH.
Qed.

Lemma escape_is_lossless_witness : js "a<b & c" = js "a<b & c".
Proof. exact (escape_is_lossless (js "a<b & c") (js "a<b & c") eq_refl). Defined.

(** X17.  On a string, [safe] returns a text without tab and without line
    feed that neither starts nor ends with white space.  A carriage return
    with no line feed behind it is kept. *)
Theorem safe_removes_breaks :
  (forall s,
     exists v, safe (VStr s) = Ok v
               /\ lacks TAB v = true /\ lacks LF v = true /\ trimmed v)
  /\ safe (VStr (js "a" ++ [CR] ++ js "b")) = Ok (js "a" ++ [CR] ++ js "b").
Proof.
  split; [|reflexivity].
  intros s. exists (safe_string s). split; [reflexivity|].
  destruct (safe_string_lacks s) as [H1 H2]. repeat split; auto.
  unfold trimmed, safe_string. apply trim_idem.
Qed.

(** ** The driver *)

(** X18.  [runOCR] completes only when the recognized text gives no record
    at all: it has then written an empty readable text and the header line
    alone.  With one record or more, [renderTSV] throws before anything is
    written. *)
Theorem run_completes_only_empty E url tr :
  run E url = (tr, Ok tt) ->
  exists text,
    recognize E url = Ok text /\ extract text = []
    /\ tr = complete_trace url [] (join [TAB] header).
Proof.
  rewrite run_cases.
  destruct (createWorker E); [|discriminate].
  destruct (loadLanguage E (js "eng")); [|discriminate].
  destruct (initialize E (js "eng")); [|discriminate].
  destruct (recognize E url) as [text|]; [|discriminate].
  destruct (terminate E); [|discriminate].
  destruct (extract text) as [|r rows] eqn:X.
  - rewrite renderTSV_none. intros [= <-]. now exists text.
  - rewrite renderTSV_rows. discriminate.
Qed.

Lemma run_completes_only_empty_witness :
  exists text,
    recognize (reading_engine []) (js "card.png") = Ok text
    /\ extract text = []
    /\ fst (run (reading_engine []) (js "card.png"))
       = complete_trace (js "card.png") [] (join [TAB] header).
Proof.
  exact (run_completes_only_empty (reading_engine []) (js "card.png")
           (fst (run (reading_engine []) (js "card.png"))) eq_refl).
Defined.

(** X19.  A run that fails, at whatever step, has made none of the three
    writes of [runOCR] to the page. *)
Theorem failed_run_writes_nothing E url tr e :
  run E url = (tr, Throw e) -> existsb page_write tr = false.
Proof.
  rewrite run_cases.
  destruct (createWorker E); [|intros [= <- _]; reflexivity].
  destruct (loadLanguage E (js "eng")); [|intros [= <- _]; reflexivity].
  destruct (initialize E (js "eng")); [|intros [= <- _]; reflexivity].
  destruct (recognize E url) as [text|]; [|intros [= <- _]; reflexivity].
  destruct (terminate E); [|intros [= <- _]; reflexivity].
  destruct (renderTSV _); [discriminate|intros [= <- _]; reflexivity].
Qed.

Lemma failed_run_writes_nothing_witness :
  existsb page_write
    (up_to_recognize (js "card.png") ++ [Terminate]) = false.
Proof.
  exact (failed_run_writes_nothing (reading_engine (js "Rabbit: Thumper"))
           (js "card.png") (up_to_recognize (js "card.png") ++ [Terminate])
           (TypeError no_replace) eq_refl).
Defined.

(** X20.  When every call on the engine succeeds and the recognized text
    gives no record, the run completes: it terminates the worker, writes an
    empty readable text and the header line, and reports completion.  So a
    run whose engine calls succeed completes exactly when there is no
    record. *)
Theorem run_without_records E url text :
  createWorker E = Ok tt -> loadLanguage E (js "eng") = Ok tt ->
  initialize E (js "eng") = Ok tt -> recognize E url = Ok text ->
  terminate E = Ok tt -> extract text = [] ->
  run E url = (complete_trace url [] (join [TAB] header), Ok tt).
Proof.
  intros H1 H2 H3 H4 H5 X. rewrite run_cases, H1, H2, H3, H4, H5, X.
  reflexivity.
Qed.

Lemma run_without_records_witness :
  run (reading_engine (js " | ")) (js "card.png")
  = (complete_trace (js "card.png") [] (join [TAB] header), Ok tt).
Proof.
  exact (run_without_records (reading_engine (js " | ")) (js "card.png")
           (js " | ") eq_refl eq_refl eq_refl eq_refl eq_refl eq_refl).
Defined.

(** ** The drafts *)

(** X21.  The text the first draft shows holds no line feed: the lines are
    joined by [<br>]. *)
Theorem draft_formatted_no_line_feed text :
  lacks LF (Draft.formatted text) = true.
Proof.
  unfold Draft.formatted. rewrite lacks_forallb.
  apply join_forallb; [reflexivity|].
  apply Forall_forall. intros x I. apply filter_In in I as [I _].
  apply in_map_iff in I as [y [<- I]]. apply forallb_trim.
  pose proof (split_char_lacks LF text [] eq_refl) as F.
  rewrite Forall_forall in F. apply (F y I).
Qed.

(** X22.  For a recognized text of white space only the first draft shows
    the empty text. *)
Theorem draft_formatted_blank text :
  blank text = true -> Draft.formatted text = [].
Proof.
  intros B. unfold Draft.formatted.
  replace (filter non_empty (map trim (Draft.split_char LF [] text)))
    with (@nil jstring); [reflexivity|].
  symmetry. pose proof (split_char_forallb is_space LF text [] eq_refl B) as F.
  induction F as [|x l Hx _ IH]; [reflexivity|].
  cbn [map filter]. rewrite non_empty_trim. fold (blank x) in Hx.
  now rewrite Hx.
Qed.

Lemma draft_formatted_blank_witness :
  Draft.formatted (SP :: LF :: TAB :: LF :: [SP]) = [].
Proof.
  exact (draft_formatted_blank (SP :: LF :: TAB :: LF :: [SP]) eq_refl).
Defined.

(** X23.  Whenever the tagger of [src/ocr.js] gives a chunk one of the
    roles NAME, SIRE and DAM, the tagger of the second draft gives it the same
    role.  The converse fails: the draft tags a chunk by its first letters
    alone. *)
Theorem draft_tags_agree chunk :
  role (tag_chunk chunk) <> js "UNKNOWN" ->
  role (Draft.tag_chunk chunk) = role (tag_chunk chunk).
Proof.
  unfold tag_chunk. destruct (exec true rx_role chunk) as [m|] eqn:E.
  - intros _. cbn [role]. unfold rx_role in E. cbn [cat fold_right] in E.
    rewrite exec_bol in E.
    destruct (match_at true _ None chunk) as [st'|] eqn:M; [|discriminate].
    injection E as <-. cbn [m_caps].
    apply hd_error_in in M. apply role_caps in M as [k [t [-> [K ->]]]].
    now rewrite draft_tag_keyword.
  - destruct (test true rx_name_start chunk) eqn:T; cbn [role].
    + intros _. apply name_start_keyword in T as [k [t [-> S]]].
      rewrite draft_tag_keyword by (now apply is_keyword_name).
      cbn [role]. now apply spells_upper in S.
    + congruence.
Qed.

Lemma draft_tags_agree_witness :
  role (Draft.tag_chunk (js "sire ===" ++ LF :: js "Big Chief")) = js "SIRE".
Proof.
  apply (draft_tags_agree (js "sire ===" ++ LF :: js "Big Chief")).
  discriminate.
Defined.

Example draft_tags_more :
  role (Draft.tag_chunk (js "Named after x")) = js "NAME"
  /\ role (tag_chunk (js "Named after x")) = js "UNKNOWN".
Proof. split; reflexivity. Qed.
